(** * Residue interaction graphs of protein structures

    A shallow embedding of [proteingraph/pin.py]: the atom table, the
    generic dataframe filter, the distance matrix, the residue graph with
    labelled edges, the backbone construction, the seven interaction
    detectors and the feature encoders, followed by the properties
    established about them.

    Conventions of the embedding.
    - A pandas dataframe is a list of rows, each paired with its index
      label.  [reset_index(drop=True)] relabels the rows [0, 1, ...].
    - A float64 number is a rational.  The distances and the means that
      numpy, scipy and pandas compute in float64 are the values of the
      functions of the class [Float64], of which only the laws of IEEE
      arithmetic that the proofs use are assumed: every statement holds
      for every such arithmetic, the one of the libraries among them.
      A distance is kept as a non-negative number by its square
      ([surd]); comparing two float64 numbers is exact.
    - A Python exception is a value of [exn]; a computation that mutates
      the graph returns an [outcome]: the graph it finished with, or the
      exception raised together with the graph at that moment.
    - A networkx graph is a map from node keys to attribute records and
      a map from unordered node pairs to edge attributes.  An unordered
      pair is kept as the ordered pair of its two keys. *)

From Stdlib Require Import QArith Ascii.
From stdpp Require Import gmap strings list fin_maps sorting pretty.

Set Warnings "-clear-no-such-hyp".

(** ** Exceptions and results *)

Inductive exn : Set :=
  | AssertionError
  | KeyError
  | IndexError
  | ValueError
  | RuntimeError.

Inductive result (A : Type) : Type :=
  | Ok (a : A)
  | Raise (e : exn).
Arguments Ok {A} a.
Arguments Raise {A} e.

#[global] Instance result_ret : MRet result := λ A a, Ok a.
#[global] Instance result_bind : MBind result := λ A B f r,
  match r with
  | Ok a => f a
  | Raise e => Raise e
  end.
#[global] Instance result_fmap : FMap result := λ A B f r,
  match r with
  | Ok a => Ok (f a)
  | Raise e => Raise e
  end.

Ltac rsimpl :=
  cbn [mbind mret fmap result_bind result_ret result_fmap] in *.

(** [mapM] for [result]: the first exception wins. *)
Fixpoint collect {A B} (f : A → result B) (l : list A) : result (list B) :=
  match l with
  | [] => Ok []
  | a :: l => b ← f a; bs ← collect f l; Ok (b :: bs)
  end.

(** ** The atom table *)

Module Table.

(** One line of the structure file, before [read_pdb] derives the
    node identifier. *)
Record RawAtom : Type := mkRaw {
  raw_record_name : string;
  raw_atom_name : string;
  raw_residue_name : string;
  raw_chain_id : string;
  raw_residue_number : Z;
  raw_x : Q;
  raw_y : Q;
  raw_z : Q
}.

Record Atom : Type := mkAtom {
  record_name : string;
  atom_name : string;
  residue_name : string;
  chain_id : string;
  residue_number : Z;
  x_coord : Q;
  y_coord : Q;
  z_coord : Q;
  node_id : string
}.

(** A dataframe: rows in order, each with its index label. *)
Abbreviation DataFrame A := (list (nat * A)).

Definition labels {A} (df : DataFrame A) : list nat := df.*1.
Definition rows {A} (df : DataFrame A) : list A := df.*2.

(** [RangeIndex]: the labels [0 .. n-1]. *)
Definition range_index {A} (l : list A) : DataFrame A :=
  imap (λ i a, (i, a)) l.

(** [df.reset_index(drop=True)]. *)
Definition reset_index {A} (df : DataFrame A) : DataFrame A :=
  range_index (rows df).

(** [df.loc[i]]: the row labelled [i]. *)
Definition loc {A} (df : DataFrame A) (i : nat) : result A :=
  match list_find (λ r, r.1 = i) df with
  | Some (_, (_, a)) => Ok a
  | None => Raise KeyError
  end.

(** [chain_id + residue_number.map(str) + residue_name]. *)
Definition make_node_id (chain : string) (pos : Z) (aa : string) : string :=
  chain +:+ pretty pos +:+ aa.

Definition with_node_id (r : RawAtom) : Atom :=
  {| record_name := raw_record_name r;
     atom_name := raw_atom_name r;
     residue_name := raw_residue_name r;
     chain_id := raw_chain_id r;
     residue_number := raw_residue_number r;
     x_coord := raw_x r;
     y_coord := raw_y r;
     z_coord := raw_z r;
     node_id := make_node_id (raw_chain_id r) (raw_residue_number r)
                  (raw_residue_name r) |}.

(** [read_pdb], after the parser has produced the ATOM records. *)
Definition read_pdb (records : list RawAtom) : DataFrame Atom :=
  range_index (with_node_id <$> records).

(** Cells of a column: strings, integers and numbers. *)
Inductive cell : Type :=
  | CStr (s : string)
  | CInt (z : Z)
  | CNum (q : Q).

(** Python's [==] on cells. *)
Definition cell_eqb (a b : cell) : bool :=
  match a, b with
  | CStr s, CStr t => bool_decide (s = t)
  | CInt n, CInt m => bool_decide (n = m)
  | CNum p, CNum q => Qeq_bool p q
  | CInt n, CNum q | CNum q, CInt n => Qeq_bool (inject_Z n) q
  | _, _ => false
  end.

(** [df[by_column]] on one row; an unknown column is a [KeyError]. *)
Definition column (by_column : string) (a : Atom) : result cell :=
  if bool_decide (by_column = "record_name") then Ok (CStr (record_name a))
  else if bool_decide (by_column = "atom_name") then Ok (CStr (atom_name a))
  else if bool_decide (by_column = "residue_name") then Ok (CStr (residue_name a))
  else if bool_decide (by_column = "chain_id") then Ok (CStr (chain_id a))
  else if bool_decide (by_column = "residue_number") then Ok (CInt (residue_number a))
  else if bool_decide (by_column = "x_coord") then Ok (CNum (x_coord a))
  else if bool_decide (by_column = "y_coord") then Ok (CNum (y_coord a))
  else if bool_decide (by_column = "z_coord") then Ok (CNum (z_coord a))
  else if bool_decide (by_column = "node_id") then Ok (CStr (node_id a))
  else Raise KeyError.

Definition is_column (by_column : string) : bool :=
  bool_decide (by_column ∈
    ["record_name"; "atom_name"; "residue_name"; "chain_id";
     "residue_number"; "x_coord"; "y_coord"; "z_coord"; "node_id"]).

(** [series.isin(list_of_values)] on one cell. *)
Definition isin (list_of_values : list cell) (c : cell) : bool :=
  existsb (cell_eqb c) list_of_values.

(** The boolean mask [df[by_column].isin(list_of_values) == boolean]. *)
Definition keep (by_column : string) (list_of_values : list cell)
    (boolean : bool) (a : Atom) : bool :=
  match column by_column a with
  | Ok c => bool_decide (isin list_of_values c = boolean)
  | Raise _ => false
  end.

(** [filter_dataframe]: the value it returns. *)
Definition filter_dataframe (dataframe : DataFrame Atom) (by_column : string)
    (list_of_values : list cell) (boolean : bool) : result (DataFrame Atom) :=
  if is_column by_column then
    Ok (reset_index (filter (λ r, keep by_column list_of_values boolean r.2) dataframe))
  else Raise KeyError.

(** The same function statement by statement, on a store of dataframe
    objects: [copy] allocates, the mask selection builds a new object
    and rebinds [df], [reset_index(inplace=True)] mutates that object. *)
Abbreviation Store := (gmap nat (DataFrame Atom)).

Definition fresh_ref (σ : Store) : nat := fresh (dom σ).

Definition filter_dataframe_store (σ : Store) (dataframe : nat)
    (by_column : string) (list_of_values : list cell) (boolean : bool)
    : Store * result nat :=
  match σ !! dataframe with
  | None => (σ, Raise KeyError)
  | Some d =>
      (* df = dataframe.copy() *)
      let df := fresh_ref σ in
      let σ1 := <[df := d]> σ in
      (* df = df[df[by_column].isin(list_of_values) == boolean] *)
      if is_column by_column then
        let df' := fresh_ref σ1 in
        let σ2 := <[df' := filter (λ r, keep by_column list_of_values boolean r.2) d]> σ1 in
        (* df.reset_index(inplace=True, drop=True) *)
        let σ3 := alter reset_index df' σ2 in
        (σ3, Ok df')
      else (σ1, Raise KeyError)
  end.

End Table.

(** ** Distances *)

Module Geometry.
Import Table.

Abbreviation coords := (Q * Q * Q)%type.

(** A non-negative float64 number, kept as its square: [Sqrt r] is the
    number whose square is [r]. *)
Record surd : Type := Sqrt { radicand : Q }.

Definition sq (a : Q) : Q := (a * a)%Q.

(** The float64 arithmetic of scipy and pandas.  Distances and means
    are computed in float64, with rounding: the results are rational
    numbers, but not the exact distance or the exact mean, and the three
    functions are kept abstract.  [pdist p q] is the entry of
    [pdist(points, metric="euclidean")] for two rows, [euclidean] is
    [scipy.spatial.distance.euclidean] and [mean] is the mean of one
    column of a group of rows.  In IEEE arithmetic [x - y] and [y - x]
    differ in their sign only and [x - x] is zero: the entry of two rows
    does not depend on their order, and a row is at distance zero from
    itself. *)
Class Float64 : Type := {
  pdist : coords → coords → surd;
  euclidean : coords → coords → surd;
  mean : list Q → Q;
  pdist_sym p q : (radicand (pdist p q) == radicand (pdist q p))%Q;
  pdist_self p : (radicand (pdist p p) == 0)%Q
}.

(** [d <= t], [d >= t] and [d > 0] on float64 numbers; [d] is not
    negative, so that [d <= t] is false and [d >= t] is true for a
    negative [t]. *)
Definition surd_le (d : surd) (t : Q) : bool :=
  Qle_bool 0 t && Qle_bool (radicand d) (sq t).
Definition surd_ge (d : surd) (t : Q) : bool :=
  negb (Qle_bool 0 t) || Qle_bool (sq t) (radicand d).
Definition surd_pos (d : surd) : bool := negb (Qle_bool (radicand d) 0).

Abbreviation Matrix := (list (list surd)).

(** [squareform(pdist(points))]: [pdist] computes the distance of every
    pair [i < j] once, [squareform] mirrors it and puts zeros on the
    diagonal. *)
Definition squareform_pdist `{!Float64} (points : list coords) : Matrix :=
  imap (λ i p,
    imap (λ j q,
      if bool_decide (i = j) then Sqrt 0
      else if bool_decide (i < j) then pdist p q
      else pdist q p) points) points.

(** [compute_distmat].  For an empty table [squareform] still returns a
    1x1 matrix, and giving it the empty index of the table raises. *)
Definition compute_distmat `{!Float64} {A} (xyz : A → coords)
    (pdb_df : DataFrame A) : result Matrix :=
  match pdb_df with
  | [] => Raise ValueError
  | _ => Ok (squareform_pdist (xyz <$> rows pdb_df))
  end.

Definition atom_xyz (a : Atom) : coords := (x_coord a, y_coord a, z_coord a).

(** [np.where(cond)] on a matrix: the positions where the condition
    holds, in row-major order, as the pair of row and column arrays. *)
Definition hits (cond : surd → bool) (m : Matrix) : list (nat * nat) :=
  mjoin (imap (λ i row,
    mjoin (imap (λ j d, if cond d then [(i, j)] else []) row)) m).

Definition np_where (cond : surd → bool) (m : Matrix) : list nat * list nat :=
  ((hits cond m).*1, (hits cond m).*2).

(** [get_interacting_atoms_]. *)
Definition get_interacting_atoms_ (angstroms : Q) (distmat : Matrix)
    : list nat * list nat :=
  np_where (λ d, surd_le d angstroms) distmat.

End Geometry.

(** ** The residue graph *)

Module Graph.

(** A number in a feature vector: a rational, or a sum of square roots
    (the sum of the distances to the neighbours). *)
Inductive num : Type :=
  | Rat (q : Q)
  | SurdSum (radicands : list Q).

(** The attributes [add_node] is called with. *)
Record NodeData : Type := mkNode {
  n_chain_id : string;
  n_residue_number : Z;
  n_residue_name : string;
  n_x_coord : Q;
  n_y_coord : Q;
  n_z_coord : Q;
  n_features : option (list (list num))
}.

Record EdgeData : Type := mkEdge {
  kind : gset string;
  e_features : option (list Q)
}.

(** A node made by [add_edge] alone has an empty attribute dictionary:
    [None]. *)
Record t : Type := mkGraph {
  nodes : gmap string (option NodeData);
  edges : gmap (string * string) EdgeData
}.

Definition empty : t := mkGraph ∅ ∅.

(** The key of the unordered pair [{u, v}]. *)
Definition ekey (u v : string) : string * string :=
  if bool_decide (u ≤ v)%string then (u, v) else (v, u).

Definition has_node (g : t) (n : string) : bool :=
  bool_decide (is_Some (nodes g !! n)).

Definition has_edge (g : t) (u v : string) : bool :=
  bool_decide (is_Some (edges g !! ekey u v)).

(** [G.add_node(n, **attrs)] with the full set of attributes. *)
Definition add_node (n : string) (d : NodeData) (g : t) : t :=
  mkGraph (<[n := Some d]> (nodes g)) (edges g).

Definition touch_node (n : string) (ns : gmap string (option NodeData))
    : gmap string (option NodeData) :=
  match ns !! n with
  | Some _ => ns
  | None => <[n := None]> ns
  end.

(** [G.add_edge(u, v, kind=k)]: missing endpoints become nodes, and
    the [kind] attribute of the edge is set, replacing an earlier one. *)
Definition add_edge (u v : string) (k : gset string) (g : t) : t :=
  mkGraph (touch_node v (touch_node u (nodes g)))
    (<[ekey u v := match edges g !! ekey u v with
                   | Some d => mkEdge k (e_features d)
                   | None => mkEdge k None
                   end]> (edges g)).

(** [G.remove_edge(u, v)] on an edge that exists. *)
Definition remove_edge (u v : string) (g : t) : t :=
  mkGraph (nodes g) (delete (ekey u v) (edges g)).

(** [G.edges[u, v]["kind"].add(k)] on an edge that exists. *)
Definition add_kind (u v : string) (k : string) (g : t) : t :=
  mkGraph (nodes g)
    (alter (λ d, mkEdge ({[k]} ∪ kind d) (e_features d)) (ekey u v) (edges g)).

(** [G.edges[u, v]["kind"].remove(k)] on an edge that exists. *)
Definition remove_kind (u v : string) (k : string) (g : t) : t :=
  mkGraph (nodes g)
    (alter (λ d, mkEdge (kind d ∖ {[k]}) (e_features d)) (ekey u v) (edges g)).

(** [G.edges(data=True)]: every edge once. *)
Definition edge_list (g : t) : list (string * string * EdgeData) :=
  map_to_list (edges g).

(** [G.nodes(data=True)]. *)
Definition node_list (g : t) : list (string * option NodeData) :=
  map_to_list (nodes g).

(** [G.neighbors(n)]. *)
Definition neighbors (g : t) (n : string) : list string :=
  omap (λ '((u, v), _),
    if bool_decide (u = n) then Some v
    else if bool_decide (v = n) then Some u
    else None) (edge_list g).

(** [G.nodes[n]["residue_name"]]. *)
Definition node_data (g : t) (n : string) : result NodeData :=
  match nodes g !! n with
  | Some (Some d) => Ok d
  | _ => Raise KeyError
  end.

(** The outcome of a procedure that mutates the graph. *)
Inductive outcome : Type :=
  | Done (g : t)
  | Raised (e : exn) (g : t).

Definition andthen (o : outcome) (k : t → outcome) : outcome :=
  match o with
  | Done g => k g
  | Raised e g => Raised e g
  end.

(** Evaluate an expression that may raise, in state [g]. *)
Definition eval {A} (g : t) (r : result A) (k : A → outcome) : outcome :=
  match r with
  | Ok a => k a
  | Raise e => Raised e g
  end.

(** [for x in l: body(x)]. *)
Fixpoint for_each {A} (l : list A) (body : A → t → outcome) (g : t) : outcome :=
  match l with
  | [] => Done g
  | x :: l => andthen (body x g) (for_each l body)
  end.

End Graph.

(** ** Residue constants

    The module [resi_atoms] of the package holds the residue tables. *)

Module ResiAtoms.

(** Modelled from the spec: [BOND_TYPES] of [resi_atoms], the closed
    vocabulary of bond kinds, as the specification lists it. *)
Definition BOND_TYPES : list string :=
  ["backbone"; "hydrophobic"; "disulfide"; "hbond"; "ionic"; "aromatic";
   "aromatic_sulphur"; "cation_pi"; "delaunay"].

(** Modelled from the spec: [HYDROPHOBIC_RESIS] of [resi_atoms], the
    residue filter of the hydrophobic detector. *)
Definition HYDROPHOBIC_RESIS : list string :=
  ["ALA"; "VAL"; "LEU"; "ILE"; "MET"; "PHE"; "TRP"; "PRO"; "TYR"].

(** Modelled from the spec: [DISULFIDE_RESIS] of [resi_atoms]. *)
Definition DISULFIDE_RESIS : list string := ["CYS"].

(** Modelled from the spec: [IONIC_RESIS] of [resi_atoms]. *)
Definition IONIC_RESIS : list string := ["ARG"; "LYS"; "HIS"; "ASP"; "GLU"].

(** Modelled from the spec: [AROMATIC_RESIS] of [resi_atoms]. *)
Definition AROMATIC_RESIS : list string := ["PHE"; "TRP"; "HIS"; "TYR"].

(** The tables the specification does not spell out are parameters. *)
Record t : Type := mk {
  BACKBONE_ATOMS : list string;
  DISULFIDE_ATOMS : list string;
  AA_RING_ATOMS : gmap string (list string);
  POS_AA : list string;
  NEG_AA : list string;
  CATION_PI_RESIS : list string;
  CATION_RESIS : list string;
  PI_RESIS : list string;
  RESI_NAMES : list string;
  (** each entry is a two-dimensional array *)
  ISOELECTRIC_POINTS_STD : gmap string (list (list Q));
  MOLECULAR_WEIGHTS_STD : gmap string (list (list Q))
}.

End ResiAtoms.

(** ** Grouping and sorting *)

Module Group.
Import Table.

(** Lexicographic order on pairs. *)
Definition lex_le {A B} (RA : relation A) (RB : relation B) : relation (A * B) :=
  λ x y, (x.1 ≠ y.1 ∧ RA x.1 y.1) ∨ (x.1 = y.1 ∧ RB x.2 y.2).

#[global] Instance lex_le_dec {A B} `{EqDecision A} (RA : relation A)
  (RB : relation B) `{!RelDecision RA, !RelDecision RB} :
  RelDecision (lex_le RA RB).
Proof. intros x y. unfold lex_le. apply _. Defined.

(** [df.groupby(keys)]: the distinct keys in increasing order, each
    with its rows. *)
Definition groupby {A K} `{EqDecision K} (R : relation K) `{!RelDecision R}
    (key : A → K) (df : DataFrame A) : list (K * DataFrame A) :=
  (λ k, (k, filter (λ r, key r.2 = k) df))
    <$> merge_sort R (remove_dups (key <$> rows df)).

Definition key3 : Type := string * Z * string.
Definition key3_le : relation key3 :=
  lex_le (lex_le String.le Z.le) String.le.

Definition key4 : Type := string * string * Z * string.
Definition key4_le : relation key4 :=
  lex_le (lex_le (lex_le String.le String.le) Z.le) String.le.

End Group.

(** ** The program *)

Module Pin.
Import Table Geometry Graph Group ResiAtoms.

Definition strs (l : list string) : list cell := CStr <$> l.

(** [compute_chain_pos_aa_mapping]: chain -> position -> residue type.
    A later group with the same chain and position replaces the entry. *)
Definition compute_chain_pos_aa_mapping (pdb_df : DataFrame Atom)
    : gmap string (gmap Z string) :=
  foldl (λ chain_pos_aa '((chain, pos, aa), _),
           <[chain := <[pos := aa]> (default ∅ (chain_pos_aa !! chain))]>
             chain_pos_aa)
    ∅
    (groupby key3_le
       (λ a, (chain_id a, residue_number a, residue_name a)) pdb_df).

(** [chain_pos_aa[chain]] of a [defaultdict(dict)]. *)
Definition chain_map (chain_pos_aa : gmap string (gmap Z string))
    (chain : string) : gmap Z string :=
  default ∅ (chain_pos_aa !! chain).

(** [df.query("atom_name == 'CA'")[col].values[0]]. *)
Definition ca_value (col : Atom → Q) (d : DataFrame Atom) : result Q :=
  match filter (λ r, atom_name r.2 = "CA") d with
  | r :: _ => Ok (col r.2)
  | [] => Raise IndexError
  end.

(** The float64 values of the literals [2.2] and [5.3]; the other
    thresholds are float64 numbers. *)
Definition float_2_2 : Q := 2476979795053773 # 1125899906842624.
Definition float_5_3 : Q := 5967269506265907 # 1125899906842624.

Section program.
Context {F64 : Float64}.
Variable K : ResiAtoms.t.

(** [get_rgroup_dataframe_]. *)
Definition get_rgroup_dataframe_ (dataframe : DataFrame Atom)
    : result (DataFrame Atom) :=
  filter_dataframe dataframe "atom_name" (strs (BACKBONE_ATOMS K)) false.

(** The first loop of [compute_interaction_graph]: one node for every
    group of ATOM records. *)
Definition add_residue_nodes (pdb_df : DataFrame Atom) (G : Graph.t) : outcome :=
  for_each
    (groupby key4_le
       (λ a, (node_id a, chain_id a, residue_number a, residue_name a))
       (filter (λ r, record_name r.2 = "ATOM") pdb_df))
    (λ '((node_id, chain_id, residue_number, residue_name), d) G,
       eval G (ca_value x_coord d) (λ x_coord,
       eval G (ca_value y_coord d) (λ y_coord,
       eval G (ca_value z_coord d) (λ z_coord,
       Done (add_node node_id
               (mkNode chain_id residue_number residue_name
                  x_coord y_coord z_coord None) G)))))
    G.

(** One of the two [if] blocks of the second loop, for the position
    [pos'] next to the node. *)
Definition link_backbone (chain_pos_aa : gmap string (gmap Z string))
    (n chain aa : string) (pos' : Z) (G : Graph.t) : Graph.t :=
  match chain_map chain_pos_aa chain !! pos' with
  | Some aa' =>
      let node' := make_node_id chain pos' aa' in
      if bool_decide (aa ∈ RESI_NAMES K) && bool_decide (aa' ∈ RESI_NAMES K)
      then add_edge n node' {["backbone"]} G
      else G
  | None => G
  end.

(** The second loop of [compute_interaction_graph].  It iterates over
    the node dictionary: a node added by [add_edge] in the body makes
    the next step of the iteration raise. *)
Definition add_backbone_edges (chain_pos_aa : gmap string (gmap Z string))
    (G : Graph.t) : outcome :=
  let size0 := size (nodes G) in
  for_each (node_list G)
    (λ '(n, _) G,
       eval G (node_data G n) (λ d,
       let chain := n_chain_id d in
       let pos := n_residue_number d in
       let aa := n_residue_name d in
       let G := link_backbone chain_pos_aa n chain aa (pos - 1) G in
       let G := link_backbone chain_pos_aa n chain aa (pos + 1) G in
       if bool_decide (size (nodes G) = size0) then Done G
       else Raised RuntimeError G))
    G.

(** The block every detector ends with: add the labels to the edge
    when it exists, make the edge with these labels otherwise. *)
Definition add_labels (u v : string) (kind : list string) (G : Graph.t)
    : Graph.t :=
  if has_edge G u v then foldl (λ G k, add_kind u v k G) G kind
  else add_edge u v (list_to_set kind) G.

(** The body of the loop of [add_interacting_resis_]. *)
Definition commit_pair (kind : list string) (i1 i2 : string) (G : Graph.t)
    : outcome :=
  if bool_decide (i1 ≠ i2) then Done (add_labels i1 i2 kind G) else Done G.

(** [add_interacting_resis_].  The set of pairs is visited in the order
    of their first occurrence; the edges the loop leaves are the same in
    any other order. *)
Definition add_interacting_resis_ (interacting_atoms : list nat * list nat)
    (dataframe : DataFrame Atom) (kind : list string) (G : Graph.t) : outcome :=
  if forallb (λ k, bool_decide (k ∈ BOND_TYPES)) kind then
    eval G (collect (λ i, node_id <$> loc dataframe i) interacting_atoms.1) (λ resi1,
    eval G (collect (λ i, node_id <$> loc dataframe i) interacting_atoms.2) (λ resi2,
    let interacting_resis := remove_dups (zip resi1 resi2) in
    for_each interacting_resis (λ '(i1, i2), commit_pair kind i1 i2) G))
  else Raised AssertionError G.

(** The common shape of the threshold detectors: distance matrix of
    the filtered table, atoms within [angstroms], commit. *)
Definition commit_within (df : result (DataFrame Atom)) (angstroms : Q)
    (kind : list string) (G : Graph.t) : outcome :=
  eval G df (λ df,
  eval G (compute_distmat atom_xyz df) (λ distmat,
  let interacting_atoms := get_interacting_atoms_ angstroms distmat in
  add_interacting_resis_ interacting_atoms df kind G)).

Definition add_hydrophobic_interactions_ (rgroup_df : DataFrame Atom)
    (G : Graph.t) : outcome :=
  commit_within
    (filter_dataframe rgroup_df "residue_name" (strs HYDROPHOBIC_RESIS) true)
    5 ["hydrophobic"] G.

Definition add_disulfide_interactions_ (rgroup_df : DataFrame Atom)
    (G : Graph.t) : outcome :=
  commit_within
    (disulfide_df ← filter_dataframe rgroup_df "residue_name"
                      (strs DISULFIDE_RESIS) true;
     filter_dataframe disulfide_df "atom_name" (strs (DISULFIDE_ATOMS K)) true)
    float_2_2 ["disulfide"] G.

Definition HBOND_ATOMS : list string :=
  ["ND"; "NE"; "NH"; "NZ"; "OD1"; "OD2"; "OE"; "OG"; "OH"; "SD"; "SG";
   "N"; "O"].

Definition HBOND_ATOMS_SULPHUR : list string := ["SD"; "SG"].

Definition add_hydrogen_bond_interactions_ (rgroup_df : DataFrame Atom)
    (G : Graph.t) : outcome :=
  andthen
    (commit_within
       (filter_dataframe rgroup_df "atom_name" (strs HBOND_ATOMS) true)
       (35 # 10) ["hbond"] G)
    (commit_within
       (filter_dataframe rgroup_df "atom_name" (strs HBOND_ATOMS_SULPHUR) true)
       4 ["hbond"]).

(** [get_edges_by_bond_type]. *)
Definition get_edges_by_bond_type (G : Graph.t) (bond_type : string)
    : list (string * string) :=
  omap (λ '((n1, n2), d),
          if bool_decide (bond_type ∈ kind d) then Some (n1, n2) else None)
    (edge_list G).

(** [G.edges[r1, r2]["kind"].remove(k)]. *)
Definition kind_remove (r1 r2 k : string) (G : Graph.t) : outcome :=
  match edges G !! ekey r1 r2 with
  | Some d =>
      if bool_decide (k ∈ kind d) then Done (remove_kind r1 r2 k G)
      else Raised KeyError G
  | None => Raised KeyError G
  end.

(** The body of the loop that checks the charges of an ionic edge. *)
Definition check_ionic (r1 r2 : string) (G : Graph.t) : outcome :=
  eval G (node_data G r1) (λ d1,
  eval G (node_data G r2) (λ d2,
  let condition1 :=
    bool_decide (n_residue_name d1 ∈ POS_AA K)
    && bool_decide (n_residue_name d2 ∈ NEG_AA K) in
  let condition2 :=
    bool_decide (n_residue_name d2 ∈ POS_AA K)
    && bool_decide (n_residue_name d1 ∈ NEG_AA K) in
  let is_ionic := condition1 || condition2 in
  if negb is_ionic then
    andthen (kind_remove r1 r2 "ionic" G) (λ G,
      match edges G !! ekey r1 r2 with
      | Some d =>
          if bool_decide (size (kind d) = 0) then Done (remove_edge r1 r2 G)
          else Done G
      | None => Raised KeyError G
      end)
  else Done G)).

Definition add_ionic_interactions_ (rgroup_df : DataFrame Atom)
    (G : Graph.t) : outcome :=
  andthen
    (commit_within
       (filter_dataframe rgroup_df "residue_name" (strs IONIC_RESIS) true)
       6 ["ionic"] G)
    (λ G, for_each (get_edges_by_bond_type G "ionic")
            (λ '(r1, r2), check_ionic r1 r2) G).

(** A row of the table of ring centroids. *)
Record Centroid : Type := mkCentroid {
  c_node_id : string;
  c_x_coord : Q;
  c_y_coord : Q;
  c_z_coord : Q
}.

Definition centroid_xyz (c : Centroid) : coords :=
  (c_x_coord c, c_y_coord c, c_z_coord c).

(** [get_ring_atoms_]. *)
Definition get_ring_atoms_ (dataframe : DataFrame Atom) (aa : string)
    : result (DataFrame Atom) :=
  ring_atom_df ← filter_dataframe dataframe "residue_name" (strs [aa]) true;
  ring_atoms ← match AA_RING_ATOMS K !! aa with
               | Some l => Ok l
               | None => Raise KeyError
               end;
  filter_dataframe ring_atom_df "atom_name" (strs ring_atoms) true.

(** [get_ring_centroids_]: the mean coordinates of every group of
    rows with one [node_id]. *)
Definition get_ring_centroids_ (ring_atom_df : DataFrame Atom)
    : DataFrame Centroid :=
  range_index
    ((λ '(n, d), mkCentroid n (mean (x_coord <$> rows d))
                   (mean (y_coord <$> rows d)) (mean (z_coord <$> rows d)))
       <$> groupby String.le node_id ring_atom_df).

(** [df.sort_values(by="node_id")]. *)
Definition sort_by_node_id (df : DataFrame Centroid) : DataFrame Centroid :=
  merge_sort (λ r1 r2, (c_node_id r1.2 ≤ c_node_id r2.2)%string) df.

(** The body of the last loop of [add_aromatic_interactions_]. *)
Definition commit_aromatic (n1 n2 : string) (G : Graph.t) : outcome :=
  eval G (node_data G n1) (λ d1,
  if bool_decide (n_residue_name d1 ∈ AROMATIC_RESIS) then
    eval G (node_data G n2) (λ d2,
    if bool_decide (n_residue_name d2 ∈ AROMATIC_RESIS) then
      Done (add_labels n1 n2 ["aromatic"] G)
    else Raised AssertionError G)
  else Raised AssertionError G).

(** [distmat[(distmat >= 4.5) & (distmat <= 7)].fillna(0)]. *)
Definition clip_aromatic (distmat : Matrix) : Matrix :=
  fmap (M := list)
    (fmap (M := list)
       (λ d, if surd_ge d (45 # 10) && surd_le d 7 then d else Sqrt 0))
    distmat.

(** [distmat.index[r]]. *)
Definition index_at (df : DataFrame Centroid) (r : nat) : result string :=
  match df !! r with
  | Some (_, c) => Ok (c_node_id c)
  | None => Raise IndexError
  end.

(** The body of the first loop of [add_aromatic_interactions_]. *)
Definition ring_centroids (dataframe : DataFrame Atom) (resi : string)
    : result (DataFrame Centroid) :=
  resi_rings_df ← get_ring_atoms_ dataframe resi;
  Ok (get_ring_centroids_ resi_rings_df).

(** The table of ring centroids of [add_aromatic_interactions_]. *)
Definition aromatic_centroids (dataframe : DataFrame Atom)
    : result (DataFrame Centroid) :=
  dfs ← collect (ring_centroids dataframe) AROMATIC_RESIS;
  Ok (reset_index (sort_by_node_id (List.concat dfs))).

Definition add_aromatic_interactions_ (dataframe : DataFrame Atom)
    (G : Graph.t) : outcome :=
  eval G (aromatic_centroids dataframe) (λ aromatic_df,
  eval G (compute_distmat centroid_xyz aromatic_df) (λ distmat,
  let distmat := clip_aromatic distmat in
  let indices := np_where surd_pos distmat in
  eval G (collect (λ '(r, c),
             n1 ← index_at aromatic_df r;
             n2 ← index_at aromatic_df c;
             Ok (n1, n2)) (zip indices.1 indices.2)) (λ interacting_resis,
  for_each interacting_resis (λ '(n1, n2), commit_aromatic n1 n2) G))).

(** The body of the loop shared, up to its constants, by the
    aromatic-sulphur and the cation-pi detectors: [first] and
    [second] are the two lists the node identifiers are looked up in. *)
Definition commit_typed_pair (df : DataFrame Atom)
    (first second : list string) (label : string) (a1 a2 : nat)
    (G : Graph.t) : outcome :=
  eval G (node_id <$> loc df a1) (λ resi1,
  eval G (node_id <$> loc df a2) (λ resi2,
  let condition1 :=
    bool_decide (resi1 ∈ first) && bool_decide (resi2 ∈ second) in
  let condition2 :=
    bool_decide (resi1 ∈ second) && bool_decide (resi2 ∈ first) in
  if (condition1 || condition2) && bool_decide (resi1 ≠ resi2) then
    Done (add_labels resi1 resi2 [label] G)
  else Done G)).

Definition commit_typed (df : DataFrame Atom)
    (interacting_atoms : list nat * list nat)
    (first second : list string) (label : string) (G : Graph.t) : outcome :=
  for_each (zip interacting_atoms.1 interacting_atoms.2)
    (λ '(a1, a2), commit_typed_pair df first second label a1 a2) G.

Definition add_aromatic_sulphur_interactions_ (rgroup_df : DataFrame Atom)
    (G : Graph.t) : outcome :=
  let RESIDUES := ["MET"; "CYS"; "PHE"; "TYR"; "TRP"] in
  let SULPHUR_RESIS := ["MET"; "CYS"] in
  let AROMATIC_RESIS := ["PHE"; "TYR"; "TRP"] in
  eval G (filter_dataframe rgroup_df "residue_name" (strs RESIDUES) true)
    (λ aromatic_sulphur_df,
  eval G (compute_distmat atom_xyz aromatic_sulphur_df) (λ distmat,
  let interacting_atoms := get_interacting_atoms_ float_5_3 distmat in
  commit_typed aromatic_sulphur_df interacting_atoms
    SULPHUR_RESIS AROMATIC_RESIS "aromatic_sulphur" G)).

Definition add_cation_pi_interactions_ (rgroup_df : DataFrame Atom)
    (G : Graph.t) : outcome :=
  eval G (filter_dataframe rgroup_df "residue_name"
            (strs (CATION_PI_RESIS K)) true) (λ cation_pi_df,
  eval G (compute_distmat atom_xyz cation_pi_df) (λ distmat,
  let interacting_atoms := get_interacting_atoms_ 6 distmat in
  commit_typed cation_pi_df interacting_atoms
    (CATION_RESIS K) (PI_RESIS K) "cation_pi" G)).

(** The detectors, in the order of the list [funcs]. *)
Inductive detector : Set :=
  | Hydrophobic | Disulfide | Hbond | Ionic | Aromatic
  | AromaticSulphur | CationPi.

Definition funcs : list detector :=
  [Hydrophobic; Disulfide; Hbond; Ionic; Aromatic; AromaticSulphur; CationPi].

Definition run_detector (dataframe rgroup_df : DataFrame Atom)
    (func : detector) : Graph.t → outcome :=
  match func with
  | Hydrophobic => add_hydrophobic_interactions_ rgroup_df
  | Disulfide => add_disulfide_interactions_ rgroup_df
  | Hbond => add_hydrogen_bond_interactions_ rgroup_df
  | Ionic => add_ionic_interactions_ rgroup_df
  | Aromatic => add_aromatic_interactions_ dataframe
  | AromaticSulphur => add_aromatic_sulphur_interactions_ rgroup_df
  | CationPi => add_cation_pi_interactions_ rgroup_df
  end.

(** The graph before the detectors run: nodes and backbone edges. *)
Definition backbone_graph (pdb_df : DataFrame Atom)
    (chain_pos_aa : gmap string (gmap Z string)) : outcome :=
  andthen (add_residue_nodes pdb_df Graph.empty)
    (add_backbone_edges chain_pos_aa).

(** [compute_interaction_graph]. *)
Definition compute_interaction_graph (pdb_df rgroup_df : DataFrame Atom)
    (chain_pos_aa : gmap string (gmap Z string)) : outcome :=
  andthen (backbone_graph pdb_df chain_pos_aa)
    (for_each funcs (run_detector pdb_df rgroup_df)).

(** *** Feature encoding *)

(** [LabelBinarizer().fit(labels)]: the distinct labels, sorted;
    fitting no label at all raises. *)
Definition lb_fit (labels : list string) : result (list string) :=
  match labels with
  | [] => Raise ValueError
  | _ => Ok (merge_sort String.le (remove_dups labels))
  end.

(** [lb.transform([y])[0]]: one column per class, except that one or
    two classes give a single column. *)
Definition lb_row (classes_ : list string) (y : string) : list Q :=
  match classes_ with
  | [] | [_] => [0%Q]
  | [_; pos] => [if bool_decide (y = pos) then 1%Q else 0%Q]
  | _ => (λ c, if bool_decide (y = c) then 1%Q else 0%Q) <$> classes_
  end.

(** [a + b] on one-dimensional arrays, with broadcasting. *)
Definition np_add (a b : list Q) : result (list Q) :=
  if bool_decide (length a = length b) then Ok (zip_with Qplus a b)
  else match a, b with
       | _, [y] => Ok ((λ x, (x + y)%Q) <$> a)
       | [x], _ => Ok ((λ y, (x + y)%Q) <$> b)
       | _, _ => Raise ValueError
       end.

(** [encode_bond_features]. *)
Definition encode_bond_features (bond_set : list string) : result (list Q) :=
  classes_ ← lb_fit BOND_TYPES;
  let bonds := replicate (length BOND_TYPES) 0%Q in
  if bool_decide (0 < length bond_set) then
    let bond_array := lb_row classes_ <$> bond_set in
    foldl (λ bonds b, bonds ← bonds; np_add bonds b) (Ok bonds) bond_array
  else Ok bonds.

(** [G.degree(n)]: a self-loop counts twice. *)
Definition degree (G : Graph.t) (n : string) : nat :=
  length (neighbors G n) + (if has_edge G n n then 1 else 0).

(** [node_coords]. *)
Definition node_coords (G : Graph.t) (n : string) : result coords :=
  d ← node_data G n; Ok (n_x_coord d, n_y_coord d, n_z_coord d).

(** [T[aa]][0][0]] for one of the two standardised tables. *)
Definition table_row (T : gmap string (list (list Q))) (aa : string)
    : result (list Q) :=
  match T !! aa with
  | Some (row :: _) => Ok row
  | Some [] => Raise IndexError
  | None => Raise KeyError
  end.

Definition set_node_features (node : string) (features : list (list num))
    (G : Graph.t) : Graph.t :=
  mkGraph
    (alter (fmap (λ d, mkNode (n_chain_id d) (n_residue_number d)
                         (n_residue_name d) (n_x_coord d) (n_y_coord d)
                         (n_z_coord d) (Some features)))
       node (nodes G))
    (edges G).

(** The vector [compute_node_features] concatenates. *)
Definition node_feature_vector (G : Graph.t) (node : string)
    : result (list num) :=
  d ← node_data G node;
  let aa := n_residue_name d in
  classes_ ← lb_fit (RESI_NAMES K);
  let aa_enc := lb_row classes_ aa in
  pka ← table_row (ISOELECTRIC_POINTS_STD K) aa;
  mw ← table_row (MOLECULAR_WEIGHTS_STD K) aa;
  let deg := [inject_Z (Z.of_nat (degree G node))] in
  here ← node_coords G node;
  dists ← collect (λ n2, there ← node_coords G n2;
                         Ok (radicand (euclidean here there)))
             (neighbors G node);
  let sum_eucl_dist := [SurdSum dists] in
  let bond_set :=
    foldl (λ bond_set n2,
             match edges G !! ekey node n2 with
             | Some e => bond_set ∪ kind e
             | None => bond_set
             end) (∅ : gset string) (neighbors G node) in
  bonds ← encode_bond_features (elements bond_set);
  Ok ((Rat <$> aa_enc) ++ (Rat <$> pka) ++ (Rat <$> mw) ++ (Rat <$> deg)
        ++ sum_eucl_dist ++ (Rat <$> bonds))%list.

(** [compute_node_features]: the vector is stored as a matrix of one
    row. *)
Definition compute_node_features (node : string) (G : Graph.t) : outcome :=
  if has_node G node then
    eval G (node_feature_vector G node) (λ features,
    Done (set_node_features node [features] G))
  else Raised AssertionError G.

Definition set_edge_features (u v : string) (features : list Q)
    (G : Graph.t) : Graph.t :=
  mkGraph (nodes G)
    (alter (λ d, mkEdge (kind d) (Some features)) (ekey u v) (edges G)).

(** [compute_edge_features]; the argument is a tuple of any length. *)
Definition compute_edge_features (edge : list string) (G : Graph.t) : outcome :=
  match edge with
  | [u; v] =>
      if has_edge G u v then
        match edges G !! ekey u v with
        | Some d =>
            eval G (encode_bond_features (elements (kind d))) (λ bond_features,
            Done (set_edge_features u v bond_features G))
        | None => Raised KeyError G
        end
      else Raised AssertionError G
  | _ => Raised AssertionError G
  end.

Definition compute_all_node_features (G : Graph.t) : outcome :=
  for_each (node_list G).*1 compute_node_features G.

Definition compute_all_edge_features (G : Graph.t) : outcome :=
  for_each (edge_list G).*1 (λ '(u, v), compute_edge_features [u; v]) G.

(** What [feature_array] returns. *)
Inductive features_of : Type :=
  | NodeFeatures (l : list (option (list (list num))))
  | EdgeFeatures (l : list (list Q)).

(** [feature_array]. *)
Definition feature_array (G : Graph.t) (kind : string) : result features_of :=
  if bool_decide (kind ∈ ["node"; "edge"]) then
    if bool_decide (kind = "node") then
      NodeFeatures <$>
        collect (λ '(n, d), match d with
                            | Some d => Ok (n_features d)
                            | None => Raise KeyError
                            end) (node_list G)
    else
      EdgeFeatures <$>
        collect (λ '(_, d), match e_features d with
                            | Some f => Ok f
                            | None => Raise KeyError
                            end) (edge_list G)
  else Raise AssertionError.

End program.
End Pin.

(** ** Predicates used in the statements *)

Module Props.
Import Table Geometry Graph Group ResiAtoms Pin.

Section float64.
Context {F64 : Float64}.

(** The two standardised tables hold arrays of one row and one column. *)
Definition shape_1x1 (t : list (list Q)) : bool :=
  match t with
  | [[_]] => true
  | _ => false
  end.

(** Every edge is stored under the key of its unordered pair. *)
Definition normal (G : Graph.t) : Prop :=
  map_Forall (λ k _, ekey k.1 k.2 = k) (edges G).

(** The set of labels of the edge [{u, v}]; empty when there is no
    such edge. *)
Definition kinds (G : Graph.t) (u v : string) : gset string :=
  match edges G !! ekey u v with
  | Some d => kind d
  | None => ∅
  end.

(** The residue type stored at a node. *)
Definition residue_of (G : Graph.t) (n : string) : option string :=
  match nodes G !! n with
  | Some (Some d) => Some (n_residue_name d)
  | _ => None
  end.

(** One endpoint is a positive residue and the other a negative one. *)
Definition opposite_charges (K : ResiAtoms.t) (G : Graph.t) (u v : string)
    : Prop :=
  ∃ a b, residue_of G u = Some a ∧ residue_of G v = Some b
         ∧ ((a ∈ POS_AA K ∧ b ∈ NEG_AA K) ∨ (b ∈ POS_AA K ∧ a ∈ NEG_AA K)).

(** The invariant of an edge: no self-loop, a non-empty set of labels,
    all of them in the vocabulary. *)
Definition edge_ok (k : string * string) (d : EdgeData) : Prop :=
  k.1 ≠ k.2 ∧ kind d ≠ ∅ ∧ ∀ l, l ∈ kind d → l ∈ BOND_TYPES.

Definition edges_ok (G : Graph.t) : Prop := map_Forall edge_ok (edges G).

(** An edge after the labels [L] have been added to it: the edge is
    made when it did not exist. *)
Definition label_edge (L : gset string) (o : option EdgeData) : EdgeData :=
  match o with
  | Some d => mkEdge (L ∪ kind d) (e_features d)
  | None => mkEdge L None
  end.

(** Two graphs whose nodes carry the same attributes. *)
Definition same_data (G G' : Graph.t) : Prop :=
  ∀ n d, nodes G !! n = Some (Some d) ↔ nodes G' !! n = Some (Some d).

(** [G'] is [G] with the labels [L] added to the edges [keys], and
    nothing else changed. *)
Definition labelled (L : gset string) (keys : list (string * string))
    (G G' : Graph.t) : Prop :=
  same_data G G'
  ∧ ∀ k, edges G' !! k =
           if decide (k ∈ keys) then Some (label_edge L (edges G !! k))
           else edges G !! k.

(** Every edge of [keys] exists and carries the labels [L]. *)
Definition saturated (L : gset string) (keys : list (string * string))
    (G : Graph.t) : Prop :=
  ∀ k, k ∈ keys → ∃ d, edges G !! k = Some d ∧ L ⊆ kind d.

(** The step of a loop body that commits the pair [key_of x], if any. *)
Definition commit_step {A} (key_of : A → option (string * string))
    (kind : list string) (x : A) (G : Graph.t) : Graph.t :=
  match key_of x with
  | Some (u, v) => add_labels u v kind G
  | None => G
  end.

Definition committed_keys {A} (key_of : A → option (string * string))
    (l : list A) : list (string * string) :=
  (λ p, ekey p.1 p.2) <$> omap key_of l.

(** Every node identifier of the table is the one [read_pdb] derives. *)
Definition derived_ids (df : DataFrame Atom) : Prop :=
  ∀ a, a ∈ rows df →
    node_id a = make_node_id (chain_id a) (residue_number a) (residue_name a).

(** The table has an atom of the residue [aa] at position [pos] of [chain]. *)
Definition residue_in (df : DataFrame Atom) (chain : string) (pos : Z)
    (aa : string) : Prop :=
  ∃ a, a ∈ rows df ∧ chain_id a = chain ∧ residue_number a = pos
       ∧ residue_name a = aa.

(** [u] and [v] name two residues of the table at consecutive positions
    of one chain. *)
Definition adjacent_residues (df : DataFrame Atom) (u v : string) : Prop :=
  ∃ chain pos aa aa',
    residue_in df chain pos aa ∧ residue_in df chain (pos + 1) aa'
    ∧ ((u = make_node_id chain pos aa ∧ v = make_node_id chain (pos + 1) aa')
       ∨ (v = make_node_id chain pos aa ∧ u = make_node_id chain (pos + 1) aa')).

(** The attributes of every node are those of a residue of the table,
    stored under the identifier of that residue. *)
Definition nodes_of_table (df : DataFrame Atom) (G : Graph.t) : Prop :=
  ∀ n d, nodes G !! n = Some (Some d) →
    n = make_node_id (n_chain_id d) (n_residue_number d) (n_residue_name d)
    ∧ residue_in df (n_chain_id d) (n_residue_number d) (n_residue_name d).

(** The edge [k] exists and carries the label [l]. *)
Definition has_label (l : string) (G : Graph.t) (k : string * string) : Prop :=
  ∃ e, edges G !! k = Some e ∧ l ∈ kind e.

(** [k] joins a node of [G] to the residue the mapping records at the
    position before or after it. *)
Definition backbone_link (chain_pos_aa : gmap string (gmap Z string))
    (G : Graph.t) (k : string * string) : Prop :=
  ∃ n d pos' aa',
    nodes G !! n = Some (Some d)
    ∧ (pos' = n_residue_number d - 1 ∨ pos' = n_residue_number d + 1)%Z
    ∧ chain_map chain_pos_aa (n_chain_id d) !! pos' = Some aa'
    ∧ k = ekey n (make_node_id (n_chain_id d) pos' aa').

(** The node [n] of [G0] is joined in [G] to the residues the mapping
    records before and after it, when both residue types are in the
    alphabet. *)
Definition linked (K : ResiAtoms.t) (chain_pos_aa : gmap string (gmap Z string))
    (G0 G : Graph.t) (n : string) : Prop :=
  ∀ d pos' aa',
    nodes G0 !! n = Some (Some d) →
    (pos' = n_residue_number d - 1 ∨ pos' = n_residue_number d + 1)%Z →
    chain_map chain_pos_aa (n_chain_id d) !! pos' = Some aa' →
    n_residue_name d ∈ RESI_NAMES K → aa' ∈ RESI_NAMES K →
    has_label "backbone" G (ekey n (make_node_id (n_chain_id d) pos' aa')).

(** The label a detector commits. *)
Definition label (func : detector) : string :=
  match func with
  | Hydrophobic => "hydrophobic"
  | Disulfide => "disulfide"
  | Hbond => "hbond"
  | Ionic => "ionic"
  | Aromatic => "aromatic"
  | AromaticSulphur => "aromatic_sulphur"
  | CationPi => "cation_pi"
  end.

(** The graphs the construction goes through: the backbone graph, and
    the graph after any detector has returned. *)
Inductive reachable (K : ResiAtoms.t) (pdb_df rgroup_df : DataFrame Atom)
    : Graph.t → Prop :=
  | reach_backbone G :
      backbone_graph K pdb_df (compute_chain_pos_aa_mapping pdb_df) = Done G →
      reachable K pdb_df rgroup_df G
  | reach_detector G G' func :
      reachable K pdb_df rgroup_df G →
      run_detector K pdb_df rgroup_df func G = Done G' →
      reachable K pdb_df rgroup_df G'.

(** An edge after the "ionic" label has been withdrawn: it is dropped
    when no label is left. *)
Definition strip_edge (d : EdgeData) : option EdgeData :=
  if decide (kind d ∖ {["ionic"]} = ∅) then None
  else Some (mkEdge (kind d ∖ {["ionic"]}) (e_features d)).

(** [G'] is [G] after a detector with label [l]: every edge is as it
    was, or has gained the label (and was made if it did not exist), or,
    for the ionic detector, has lost the label. *)
Definition detector_step (l : string) (G G' : Graph.t) : Prop :=
  same_data G G'
  ∧ ∀ k, edges G' !! k = edges G !! k
         ∨ (k.1 ≠ k.2 ∧ ekey k.1 k.2 = k
            ∧ edges G' !! k = Some (label_edge {[l]} (edges G !! k)))
         ∨ (l = "ionic" ∧ edges G' !! k = edges G !! k ≫= strip_edge).

(** A distance in the closed interval from 4.5 to 7. *)
Definition in_aromatic_range (d : surd) : bool :=
  surd_ge d (45 # 10) && surd_le d 7.

(** The ring atoms of the residue of type [aa] named [n]. *)
Definition ring_atoms_of (K : ResiAtoms.t) (df : DataFrame Atom)
    (aa n : string) : list Atom :=
  filter (λ a, node_id a = n)
    (filter (λ a, atom_name a ∈ default [] (AA_RING_ATOMS K !! aa))
       (filter (λ a, residue_name a = aa) (rows df))).

(** The centroid of a list of atoms: the means of their coordinates,
    as [mean] computes them. *)
Definition centroid_of (n : string) (atoms : list Atom) : Centroid :=
  mkCentroid n (mean (x_coord <$> atoms)) (mean (y_coord <$> atoms))
    (mean (z_coord <$> atoms)).

(** The test [condition1 or condition2] of the ionic detector on two
    residue types. *)
Definition charges_ok (K : ResiAtoms.t) (a b : string) : bool :=
  (bool_decide (a ∈ POS_AA K) && bool_decide (b ∈ NEG_AA K))
  || (bool_decide (b ∈ POS_AA K) && bool_decide (a ∈ NEG_AA K)).

(** The same test on the two endpoints of an edge; false when a node
    carries no residue type. *)
Definition is_ionic (K : ResiAtoms.t) (G : Graph.t) (k : string * string) : bool :=
  match residue_of G k.1, residue_of G k.2 with
  | Some a, Some b => charges_ok K a b
  | _, _ => false
  end.

(** Both endpoints carry attributes. *)
Definition has_data (G : Graph.t) (k : string * string) : Prop :=
  is_Some (residue_of G k.1) ∧ is_Some (residue_of G k.2).

(** What the charge check makes of an edge. *)
Definition strip_invalid (K : ResiAtoms.t) (G : Graph.t) (k : string * string)
    (o : option EdgeData) : option EdgeData :=
  match o with
  | Some d =>
      if bool_decide ("ionic" ∈ kind d) && negb (is_ionic K G k)
      then strip_edge d else Some d
  | None => None
  end.

(** Committing the label on the edges [ks] and checking the charges, on
    one edge. *)
Definition ionic_edge (K : ResiAtoms.t) (G : Graph.t)
    (ks : list (string * string)) (k : string * string)
    (o : option EdgeData) : option EdgeData :=
  strip_invalid K G k
    (if decide (k ∈ ks) then Some (label_edge {["ionic"]} o) else o).

(** Every edge labelled "ionic" joins opposite charges. *)
Definition ionic_valid (K : ResiAtoms.t) (G : Graph.t) : Prop :=
  ∀ k, has_label "ionic" G k → is_ionic K G k = true.

(** Two distinct residues with atoms of the table within [t] of each
    other: the distance [pdist] computes for the two rows is at most
    [t]. *)
Definition close_residues (df : DataFrame Atom) (t : Q) (u v : string) : Prop :=
  ∃ a b, a ∈ rows df ∧ b ∈ rows df ∧ node_id a = u ∧ node_id b = v ∧ u ≠ v
         ∧ surd_le (pdist (atom_xyz a) (atom_xyz b)) t = true.

(** The pair committed by the body of the loop of the aromatic detector. *)
Definition aromatic_key (p : string * string) : option (string * string) :=
  Some p.

(** The pair committed by the body of [add_interacting_resis_]. *)
Definition pair_key (p : string * string) : option (string * string) :=
  if bool_decide (p.1 ≠ p.2) then Some p else None.

(** The pair committed by the body of the typed detectors. *)
Definition typed_key (df : DataFrame Atom) (first second : list string)
    (a : nat * nat) : option (string * string) :=
  match loc df a.1, loc df a.2 with
  | Ok r1, Ok r2 =>
      let resi1 := node_id r1 in
      let resi2 := node_id r2 in
      if ((bool_decide (resi1 ∈ first) && bool_decide (resi2 ∈ second))
          || (bool_decide (resi1 ∈ second) && bool_decide (resi2 ∈ first)))
         && bool_decide (resi1 ≠ resi2)
      then Some (resi1, resi2) else None
  | _, _ => None
  end.

(** The backbone connects every two residues of the table at
    consecutive positions of a chain whose types are in the alphabet. *)
Definition backbone_complete (K : ResiAtoms.t) (df : DataFrame Atom)
    (G : Graph.t) : Prop :=
  ∀ chain pos aa aa',
    residue_in df chain pos aa → residue_in df chain (pos + 1) aa' →
    aa ∈ RESI_NAMES K → aa' ∈ RESI_NAMES K →
    "backbone" ∈ kinds G (make_node_id chain pos aa)
                   (make_node_id chain (pos + 1) aa').



(** The string has a decimal digit. *)
Definition is_digit (c : ascii) : bool :=
  bool_decide (c ∈ ["0"; "1"; "2"; "3"; "4"; "5"; "6"; "7"; "8"; "9"]%char).

Fixpoint has_digit (s : string) : bool :=
  match s with
  | EmptyString => false
  | String c s => is_digit c || has_digit s
  end.

(** The rows at two positions paired by the two arrays are atoms of the
    residues [u] and [v]. *)
Definition residues_paired (interacting_atoms : list nat * list nat)
    (df : DataFrame Atom) (u v : string) : Prop :=
  ∃ n i j a b,
    interacting_atoms.1 !! n = Some i ∧ interacting_atoms.2 !! n = Some j
    ∧ rows df !! i = Some a ∧ rows df !! j = Some b
    ∧ node_id a = u ∧ node_id b = v.

(** Two distinct residues [u] and [v] have atoms of the table that
    satisfy [P] and are within [t] of each other: the distance [pdist]
    computes for the two rows is at most [t]. *)
Definition atoms_within (df : DataFrame Atom) (P : Atom → Prop) (t : Q)
    (u v : string) : Prop :=
  ∃ a b, a ∈ rows df ∧ b ∈ rows df ∧ P a ∧ P b
         ∧ node_id a = u ∧ node_id b = v ∧ u ≠ v
         ∧ surd_le (pdist (atom_xyz a) (atom_xyz b)) t = true.

(** [c] is a CA atom among the ATOM records of the residue group of
    [a]: the group of the first loop of [compute_interaction_graph] is
    keyed by node identifier, chain, residue number and residue name. *)
Definition alpha_carbon_of (pdb_df : DataFrame Atom) (a c : Atom) : Prop :=
  c ∈ rows pdb_df ∧ record_name c = "ATOM" ∧ atom_name c = "CA"
  ∧ node_id c = node_id a ∧ chain_id c = chain_id a
  ∧ residue_number c = residue_number a ∧ residue_name c = residue_name a.

(** The attributes of the node made from the CA atom [c]. *)
Definition alpha_carbon_node (c : Atom) : NodeData :=
  mkNode (chain_id c) (residue_number c) (residue_name c)
    (x_coord c) (y_coord c) (z_coord c) None.

End float64.

End Props.

(** ** Sample inputs

    Small tables on which the statements below are evaluated. *)

Module Sample.
Import Table Geometry Graph Group ResiAtoms Pin Props.

Definition exact_distance (p q : coords) : surd :=
  let '(x1, y1, z1) := p in
  let '(x2, y2, z2) := q in
  Sqrt (sq (x1 - x2) + sq (y1 - y2) + sq (z1 - z2))%Q.

Definition Qsum (l : list Q) : Q := foldr Qplus 0%Q l.

Definition exact_mean (l : list Q) : Q :=
  (Qsum l / inject_Z (Z.of_nat (length l)))%Q.

(** An instance of the arithmetic, in which the statements are
    evaluated on the sample tables: the exact distance and the exact
    mean.  The coordinates of the sample tables are small integers, of
    which float64 computes the squares and their sums without
    rounding. *)
Definition exact : Float64.
Proof.
  refine {| pdist := exact_distance;
            euclidean := exact_distance;
            mean := exact_mean |}.
  - intros [[x1 y1] z1] [[x2 y2] z2]. unfold exact_distance, sq. simpl. ring.
  - intros [[x y] z]. unfold exact_distance, sq. simpl. ring.
Defined.

#[local] Existing Instance exact.

(** An instance of the residue tables: the ring atoms are those of the
    docstring of [add_aromatic_interactions_], the alphabet has four
    residue types. *)
Definition tables : ResiAtoms.t :=
  {| BACKBONE_ATOMS := ["N"; "CA"; "C"; "O"];
     DISULFIDE_ATOMS := ["SG"];
     AA_RING_ATOMS :=
       list_to_map [("PHE", ["CG"; "CD"; "CE"; "CZ"]);
                    ("TRP", ["CD"; "CE"; "CH"; "CZ"]);
                    ("HIS", ["CG"; "CD"; "ND"; "NE"; "CE"]);
                    ("TYR", ["CG"; "CD"; "CE"; "CZ"])];
     POS_AA := ["HIS"; "LYS"; "ARG"];
     NEG_AA := ["GLU"; "ASP"];
     CATION_PI_RESIS := ["LYS"; "ARG"; "PHE"; "TYR"; "TRP"];
     CATION_RESIS := ["LYS"; "ARG"];
     PI_RESIS := ["PHE"; "TYR"; "TRP"];
     RESI_NAMES := ["ALA"; "GLY"; "SER"; "THR"; "MET"; "PHE"; "LYS";
                    "ARG"; "ASP"];
     ISOELECTRIC_POINTS_STD :=
       list_to_map [("MET", [[1 # 2]]); ("PHE", [[1 # 3]])];
     MOLECULAR_WEIGHTS_STD :=
       list_to_map [("MET", [[2 # 3]]); ("PHE", [[3 # 4]])] |}.

(** A methionine and a phenylalanine, next to each other in chain A,
    whose side-chain atoms SD and CZ are 3 apart. *)
Definition met_phe : list RawAtom :=
  [ mkRaw "ATOM" "CA" "MET" "A" 1 0 0 0;
    mkRaw "ATOM" "SD" "MET" "A" 1 1 0 0;
    mkRaw "ATOM" "CA" "PHE" "A" 2 3 0 0;
    mkRaw "ATOM" "CZ" "PHE" "A" 2 4 0 0 ].

(** A lysine and a phenylalanine whose side-chain atoms NZ and CZ are
    3 apart. *)
Definition lys_phe : list RawAtom :=
  [ mkRaw "ATOM" "CA" "LYS" "A" 1 0 0 0;
    mkRaw "ATOM" "NZ" "LYS" "A" 1 1 0 0;
    mkRaw "ATOM" "CA" "PHE" "A" 2 3 0 0;
    mkRaw "ATOM" "CZ" "PHE" "A" 2 4 0 0 ].

(** Two positions of chain A with two residue types each. *)
Definition two_types : list RawAtom :=
  [ mkRaw "ATOM" "CA" "ALA" "A" 1 0 0 0;
    mkRaw "ATOM" "CA" "GLY" "A" 1 0 1 0;
    mkRaw "ATOM" "CA" "SER" "A" 2 3 0 0;
    mkRaw "ATOM" "CA" "THR" "A" 2 3 1 0 ].

(** The R-group table and the backbone graph of a list of records;
    the empty table and the empty graph when the code raises. *)
Definition rgroup_of (records : list RawAtom) : DataFrame Atom :=
  match get_rgroup_dataframe_ tables (read_pdb records) with
  | Ok df => df
  | Raise _ => []
  end.

(** The graph after [compute_node_features] has run on a node. *)
Definition featured (node : string) (G : Graph.t) : Graph.t :=
  match compute_node_features tables node G with
  | Done G' => G'
  | Raised _ G' => G'
  end.

Definition backbone_of (records : list RawAtom) : Graph.t :=
  match backbone_graph tables (read_pdb records)
          (compute_chain_pos_aa_mapping (read_pdb records)) with
  | Done G => G
  | Raised _ G => G
  end.

(** The graph after a detector has run on [G]. *)
Definition after (func : detector) (records : list RawAtom) (G : Graph.t)
    : Graph.t :=
  match run_detector tables (read_pdb records) (rgroup_of records) func G with
  | Done G' => G'
  | Raised _ G' => G'
  end.

(** The graph [compute_interaction_graph] builds from a list of records. *)
Definition graph_of (records : list RawAtom) : Graph.t :=
  match compute_interaction_graph tables (read_pdb records) (rgroup_of records)
          (compute_chain_pos_aa_mapping (read_pdb records)) with
  | Done G => G
  | Raised _ G => G
  end.

(** Five positions of chain A, the first two with two residue types
    each; every detector finds atoms of its residues. *)
Definition mixed : list RawAtom :=
  [ mkRaw "ATOM" "CA" "ALA" "A" 1 0 0 0;
    mkRaw "ATOM" "CB" "ALA" "A" 1 1 0 0;
    mkRaw "ATOM" "CA" "GLY" "A" 1 0 1 0;
    mkRaw "ATOM" "CA" "SER" "A" 2 3 0 0;
    mkRaw "ATOM" "OG" "SER" "A" 2 4 0 0;
    mkRaw "ATOM" "CA" "THR" "A" 2 3 1 0;
    mkRaw "ATOM" "OG1" "THR" "A" 2 4 1 0;
    mkRaw "ATOM" "CA" "CYS" "A" 3 6 0 0;
    mkRaw "ATOM" "SG" "CYS" "A" 3 7 0 0;
    mkRaw "ATOM" "CA" "PHE" "A" 4 9 0 0;
    mkRaw "ATOM" "CZ" "PHE" "A" 4 10 0 0;
    mkRaw "ATOM" "CA" "LYS" "A" 5 12 0 0;
    mkRaw "ATOM" "NZ" "LYS" "A" 5 13 0 0 ].

(** A lysine, an aspartate and an arginine: the side chains of the
    lysine and of the arginine are 6 apart, the aspartate is 3 from
    both. *)
Definition charged : list RawAtom :=
  [ mkRaw "ATOM" "CA" "LYS" "A" 1 0 0 0;
    mkRaw "ATOM" "NZ" "LYS" "A" 1 1 0 0;
    mkRaw "ATOM" "CA" "ASP" "A" 2 3 0 0;
    mkRaw "ATOM" "OD1" "ASP" "A" 2 4 0 0;
    mkRaw "ATOM" "CA" "ARG" "A" 3 6 0 0;
    mkRaw "ATOM" "NH1" "ARG" "A" 3 7 0 0 ].


(** The rows of the R-group table the ionic detector measures. *)
Definition ionic_of (records : list RawAtom) : DataFrame Atom :=
  match filter_dataframe (rgroup_of records) "residue_name"
          (strs IONIC_RESIS) true with
  | Ok df => df
  | Raise _ => []
  end.

(** Two cysteines whose sulphur atoms SG are 2 apart. *)
Definition cystine : list RawAtom :=
  [ mkRaw "ATOM" "CA" "CYS" "A" 1 0 0 0;
    mkRaw "ATOM" "SG" "CYS" "A" 1 1 0 0;
    mkRaw "ATOM" "CA" "CYS" "A" 2 4 0 0;
    mkRaw "ATOM" "SG" "CYS" "A" 2 3 0 0 ].

End Sample.

(** * Properties *)

(** ** Dataframes *)

Module TableFacts.
Import Table.

Lemma rows_range_index {A} (l : list A) : rows (range_index l) = l.
Proof.
  unfold rows, range_index. rewrite fmap_imap.
  rewrite (imap_ext _ (const id)); [|done].
  by rewrite imap_const, list_fmap_id.
Qed.

Lemma labels_range_index {A} (l : list A) :
  labels (range_index l) = seq 0 (length l).
Proof.
  unfold labels, range_index. rewrite fmap_imap.
  rewrite (imap_ext _ (λ i _, id i)); [|done].
  by rewrite imap_seq_0, list_fmap_id.
Qed.

Lemma length_range_index {A} (l : list A) :
  length (range_index l) = length l.
Proof. apply length_imap. Qed.

Lemma range_index_lookup {A} (l : list A) i :
  range_index l !! i = (λ a, (i, a)) <$> l !! i.
Proof. apply list_lookup_imap. Qed.

Lemma rows_filter {A} (P : A → bool) (df : DataFrame A) :
  rows (filter (λ r, P r.2) df) = filter (λ a, P a) (rows df).
Proof.
  unfold rows. induction df as [|[i a] df IH]; [done|].
  rewrite filter_cons. cbn [snd]. rewrite fmap_cons. cbn [snd].
  rewrite filter_cons.
  destruct (decide (P a)); [rewrite fmap_cons; cbn [snd]; f_equal|]; apply IH.
Qed.

Lemma rows_filter_prop {A} (P : A → Prop) {dec : ∀ a, Decision (P a)}
    (df : DataFrame A) :
  rows (filter (λ r, P r.2) df) = filter P (rows df).
Proof.
  unfold rows. induction df as [|[i a] df IH]; [done|].
  rewrite filter_cons. cbn [snd]. rewrite fmap_cons. cbn [snd].
  rewrite filter_cons.
  destruct (decide (P a)); [rewrite fmap_cons; cbn [snd]; f_equal|]; apply IH.
Qed.

(** On a table with a range index, [loc] is positional. *)
Lemma loc_range_index {A} (l : list A) i :
  loc (range_index l) i =
    match l !! i with Some a => Ok a | None => Raise KeyError end.
Proof.
  unfold loc.
  destruct (l !! i) as [a|] eqn:Hi.
  - assert (list_find (λ r : nat * A, r.1 = i) (range_index l)
            = Some (i, (i, a))) as ->; [|done].
    apply list_find_Some. split_and!.
    + by rewrite range_index_lookup, Hi.
    + done.
    + intros j [k b] Hj Hlt. rewrite range_index_lookup in Hj.
      destruct (l !! j); simplify_eq/=. lia.
  - assert (list_find (λ r : nat * A, r.1 = i) (range_index l) = None)
      as ->; [|done].
    apply list_find_None, Forall_forall. intros [k b] Hin.
    apply list_elem_of_lookup in Hin as [j Hj].
    rewrite range_index_lookup in Hj.
    destruct (l !! j) eqn:E; simplify_eq/=.
    intros ->. congruence.
Qed.

Lemma isin_spec vals c :
  isin vals c = true ↔ ∃ v, v ∈ vals ∧ cell_eqb c v = true.
Proof.
  unfold isin. rewrite existsb_exists.
  setoid_rewrite <-list_elem_of_In. done.
Qed.

Lemma is_column_spec col a : is_column col = true → ∃ c, column col a = Ok c.
Proof.
  unfold is_column. intros Hc%bool_decide_eq_true.
  unfold column. repeat case_bool_decide; eauto.
  exfalso. repeat (apply elem_of_cons in Hc as [->|Hc]; [done|]).
  by apply elem_of_nil in Hc.
Qed.

Lemma keep_spec col vals b a :
  keep col vals b a = true ↔ ∃ c, column col a = Ok c ∧ isin vals c = b.
Proof.
  unfold keep. destruct (column col a) as [c|e].
  - rewrite bool_decide_eq_true. naive_solver.
  - naive_solver.
Qed.

Lemma filter_dataframe_rows df col vals b out :
  filter_dataframe df col vals b = Ok out →
  rows out = filter (λ a, keep col vals b a) (rows df)
  ∧ labels out = seq 0 (length out).
Proof.
  unfold filter_dataframe. destruct (is_column col); [|done].
  intros [= <-]. unfold reset_index.
  rewrite rows_range_index, labels_range_index, length_range_index.
  by rewrite rows_filter.
Qed.

Lemma filter_dataframe_range df col vals b out :
  filter_dataframe df col vals b = Ok out → out = range_index (rows out).
Proof.
  unfold filter_dataframe. destruct (is_column col); [|done].
  intros [= <-]. unfold reset_index. by rewrite rows_range_index.
Qed.

(** C10. [filter_dataframe], run on a store of dataframe objects with
    a column of the table, returns a new object and leaves every
    object that existed, the input among them, as it was; the new
    object holds, in their original order and labelled [0, 1, ...],
    exactly the rows whose cell in the column is in the list (flag
    true) or is not in the list (flag false); it is the value of the
    functional [filter_dataframe]. *)
Theorem filter_dataframe_pure (σ : Store) (dataframe : nat)
    (d : DataFrame Atom) (by_column : string) (list_of_values : list cell)
    (boolean : bool) :
  σ !! dataframe = Some d →
  is_column by_column = true →
  ∃ σ' df out,
    filter_dataframe_store σ dataframe by_column list_of_values boolean
      = (σ', Ok df)
    ∧ σ !! df = None
    ∧ (∀ r, is_Some (σ !! r) → σ' !! r = σ !! r)
    ∧ σ' !! dataframe = Some d
    ∧ σ' !! df = Some out
    ∧ filter_dataframe d by_column list_of_values boolean = Ok out
    ∧ rows out = filter (λ a, keep by_column list_of_values boolean a) (rows d)
    ∧ (∀ a, keep by_column list_of_values boolean a = true ↔
            ∃ c, column by_column a = Ok c
                 ∧ ((∃ v, v ∈ list_of_values ∧ cell_eqb c v = true)
                    ↔ boolean = true))
    ∧ labels out = seq 0 (length out).
Proof.
  intros Hd Hcol.
  unfold filter_dataframe_store. rewrite Hd, Hcol.
  set (df0 := fresh_ref σ).
  set (σ1 := <[df0 := d]> σ).
  set (df1 := fresh_ref σ1).
  set (sel := filter _ d).
  assert (σ !! df0 = None) as H0.
  { apply not_elem_of_dom. unfold df0, fresh_ref. apply is_fresh. }
  assert (σ1 !! df1 = None) as H1.
  { apply not_elem_of_dom. unfold df1, fresh_ref. apply is_fresh. }
  assert (df1 ≠ df0) as Hne.
  { intros E. rewrite E in H1. unfold σ1 in H1.
    by rewrite lookup_insert_eq in H1. }
  assert (σ !! df1 = None) as H1'.
  { unfold σ1 in H1. by rewrite lookup_insert_ne in H1. }
  exists (alter reset_index df1 (<[df1 := sel]> σ1)), df1, (reset_index sel).
  assert (filter_dataframe d by_column list_of_values boolean
          = Ok (reset_index sel)) as Hpure.
  { unfold filter_dataframe. by rewrite Hcol. }
  split_and!; try done.
  - intros r [x Hr]. rewrite alter_insert_eq.
    rewrite lookup_insert_ne by congruence.
    unfold σ1. rewrite lookup_insert_ne by congruence. done.
  - rewrite alter_insert_eq.
    rewrite lookup_insert_ne by congruence.
    unfold σ1. rewrite lookup_insert_ne by congruence. done.
  - by rewrite alter_insert_eq, lookup_insert_eq.
  - by apply filter_dataframe_rows in Hpure as [? ?].
  - intros a. rewrite keep_spec. destruct boolean.
    + setoid_rewrite isin_spec. naive_solver.
    + split; intros (c & Hc & Hin); exists c; split; try done.
      * split; [|done]. intros Hv%isin_spec. congruence.
      * destruct (isin list_of_values c) eqn:E; [|done].
        apply isin_spec in E. naive_solver.
  - by apply filter_dataframe_rows in Hpure as [? ?].
Qed.

Lemma filter_dataframe_pure_witness :
  let σ : Store := {[ 7 := read_pdb Sample.met_phe ]} in
  σ !! 7 = Some (read_pdb Sample.met_phe)
  ∧ is_column "atom_name" = true
  ∧ ∃ σ' df out,
      filter_dataframe_store σ 7 "atom_name" [CStr "N"; CStr "CA"] false
        = (σ', Ok df)
      ∧ σ !! df = None
      ∧ (∀ r, is_Some (σ !! r) → σ' !! r = σ !! r)
      ∧ σ' !! 7 = Some (read_pdb Sample.met_phe)
      ∧ σ' !! df = Some out
      ∧ filter_dataframe (read_pdb Sample.met_phe) "atom_name"
          [CStr "N"; CStr "CA"] false = Ok out
      ∧ rows out = filter (λ a, keep "atom_name" [CStr "N"; CStr "CA"] false a)
                     (rows (read_pdb Sample.met_phe))
      ∧ (∀ a, keep "atom_name" [CStr "N"; CStr "CA"] false a = true ↔
              ∃ c, column "atom_name" a = Ok c
                   ∧ ((∃ v, v ∈ [CStr "N"; CStr "CA"] ∧ cell_eqb c v = true)
                      ↔ false = true))
      ∧ labels out = seq 0 (length out).
Proof.
  intros σ. split; [reflexivity|]. split; [reflexivity|].
  apply (filter_dataframe_pure σ 7 (read_pdb Sample.met_phe) "atom_name"
           [CStr "N"; CStr "CA"] false); reflexivity.
Defined.

End TableFacts.

(** ** Feature encoding *)

Module FeatureFacts.
Import Table Geometry Graph Group ResiAtoms Pin Props.

Section float64.
Context {F64 : Float64}.

Lemma length_lb_row classes_ y :
  3 ≤ length classes_ → length (lb_row classes_ y) = length classes_.
Proof.
  destruct classes_ as [|a [|b [|c l]]]; simpl; try lia.
  intros _. by rewrite length_fmap.
Qed.

Lemma length_lb_fit labels classes_ :
  NoDup labels → lb_fit labels = Ok classes_ →
  length classes_ = length labels.
Proof.
  intros Hnd. unfold lb_fit. destruct labels as [|a l]; [done|].
  intros [= <-].
  rewrite (Permutation_length (merge_sort_Permutation _ _)).
  apply Permutation_length, NoDup_Permutation;
    [apply (NoDup_remove_dups (a :: l))|done|].
  intros x. apply (elem_of_remove_dups (a :: l)).
Qed.

Lemma lb_fit_Ok labels : labels ≠ [] → ∃ classes_, lb_fit labels = Ok classes_.
Proof. destruct labels; [done|]. intros _. unfold lb_fit. eauto. Qed.

Lemma NoDup_BOND_TYPES : NoDup BOND_TYPES.
Proof. apply (bool_decide_unpack (NoDup BOND_TYPES)). by vm_compute. Qed.

(** Adding the rows of the binarised labels keeps the width. *)
Lemma fold_np_add n (bond_array : list (list Q)) (bonds : list Q) :
  length bonds = n → Forall (λ b, length b = n) bond_array →
  ∃ out, foldl (λ bonds b, bonds ← bonds; np_add bonds b) (Ok bonds) bond_array
         = Ok out ∧ length out = n.
Proof.
  intros Hb Hall. revert bonds Hb.
  induction Hall as [|b l Hlen _ IH]; intros bonds Hb; simpl; [eauto|].
  unfold np_add at 2. rewrite bool_decide_true by congruence.
  apply IH. rewrite length_zip_with. lia.
Qed.

(** [encode_bond_features] never raises and returns one cell per bond
    kind of the vocabulary. *)
Lemma encode_bond_features_total bond_set :
  ∃ bonds, encode_bond_features bond_set = Ok bonds
           ∧ length bonds = length BOND_TYPES.
Proof.
  unfold encode_bond_features.
  destruct (lb_fit_Ok BOND_TYPES) as [classes_ Hfit]; [done|].
  rewrite Hfit. rsimpl.
  pose proof (length_lb_fit _ _ NoDup_BOND_TYPES Hfit) as Hlen.
  case_bool_decide.
  - apply fold_np_add; [by rewrite length_replicate|].
    apply Forall_fmap, Forall_forall. intros y _. cbn [compose].
    rewrite length_lb_row; [done|]. rewrite Hlen. simpl. lia.
  - eexists. split; [done|]. by rewrite length_replicate.
Qed.

(** C9. [compute_edge_features] raises, with the graph as it was,
    whenever its argument is not a pair naming an edge of the graph,
    and returns normally otherwise; [feature_array] raises whenever
    its argument is neither "node" nor "edge". *)
Theorem feature_queries_usage (G : Graph.t) :
  (∀ edge, ¬ (∃ u v, edge = [u; v] ∧ has_edge G u v = true) →
     compute_edge_features edge G = Raised AssertionError G)
  ∧ (∀ u v, has_edge G u v = true →
       ∃ G', compute_edge_features [u; v] G = Done G')
  ∧ (∀ kind, kind ≠ "node" → kind ≠ "edge" →
       feature_array G kind = Raise AssertionError).
Proof.
  split_and!.
  - intros edge Hno. unfold compute_edge_features.
    destruct edge as [|u [|v [|w l]]]; try done.
    destruct (has_edge G u v) eqn:E; [|done].
    destruct Hno. eauto.
  - intros u v Hedge. unfold compute_edge_features. rewrite Hedge.
    unfold has_edge in Hedge. apply bool_decide_eq_true in Hedge as [d Hd].
    rewrite Hd.
    destruct (encode_bond_features_total (elements (kind d))) as (b & -> & _).
    simpl. eauto.
  - intros kind Hn He. unfold feature_array.
    rewrite bool_decide_false; [done|].
    rewrite !elem_of_cons, elem_of_nil. tauto.
Qed.

Lemma table_row_length T aa row :
  map_Forall (λ _ t, shape_1x1 t = true) T →
  table_row T aa = Ok row → length row = 1.
Proof.
  intros HT. unfold table_row.
  destruct (T !! aa) as [t|] eqn:E; [|done].
  apply HT in E. destruct t as [|[|x [|??]] [|??]]; try done.
  by intros [= <-].
Qed.

Lemma node_feature_vector_length K G node features :
  NoDup (RESI_NAMES K) →
  3 ≤ length (RESI_NAMES K) →
  map_Forall (λ _ t, shape_1x1 t = true) (ISOELECTRIC_POINTS_STD K) →
  map_Forall (λ _ t, shape_1x1 t = true) (MOLECULAR_WEIGHTS_STD K) →
  node_feature_vector K G node = Ok features →
  length features = length (RESI_NAMES K) + length BOND_TYPES + 4.
Proof.
  intros Hnd H3 Hpi Hmw. unfold node_feature_vector.
  destruct (node_data G node) as [d|]; [rsimpl|done].
  destruct (lb_fit (RESI_NAMES K)) as [classes_|] eqn:Hfit; [rsimpl|done].
  destruct (table_row (ISOELECTRIC_POINTS_STD K) _) as [pka|] eqn:E1;
    [rsimpl|done].
  destruct (table_row (MOLECULAR_WEIGHTS_STD K) _) as [mw|] eqn:E2;
    [rsimpl|done].
  destruct (node_coords G node) as [here|]; [rsimpl|done].
  destruct (collect _ _) as [dists|]; [rsimpl|done].
  destruct (encode_bond_features_total (elements
    (foldl (λ (bond_set : gset string) n2,
              match edges G !! ekey node n2 with
              | Some e => bond_set ∪ kind e
              | None => bond_set
              end) ∅ (neighbors G node)))) as (bonds & -> & Hb).
  rsimpl. intros [= <-].
  rewrite !length_app, !length_fmap.
  rewrite length_lb_row; rewrite (length_lb_fit _ _ Hnd Hfit); [|done].
  rewrite (table_row_length _ _ _ Hpi E1), (table_row_length _ _ _ Hmw E2).
  cbn [length]. rewrite ?length_fmap, Hb. lia.
Qed.

(** C6. When the residue alphabet has no repeated name and at least
    three names, and the two standardised tables hold one number per
    residue type, the vector that [compute_node_features] stores at a
    node is one row whose length is the size of the alphabet plus the
    size of the bond vocabulary plus four: the same number for every
    node. *)
Theorem node_feature_width (K : ResiAtoms.t) (G G' : Graph.t) (node : string) :
  NoDup (RESI_NAMES K) →
  3 ≤ length (RESI_NAMES K) →
  map_Forall (λ _ t, shape_1x1 t = true) (ISOELECTRIC_POINTS_STD K) →
  map_Forall (λ _ t, shape_1x1 t = true) (MOLECULAR_WEIGHTS_STD K) →
  compute_node_features K node G = Done G' →
  ∃ d features,
    nodes G' !! node = Some (Some d)
    ∧ n_features d = Some [features]
    ∧ length features = length (RESI_NAMES K) + length BOND_TYPES + 4.
Proof.
  intros Hnd H3 Hpi Hmw. unfold compute_node_features.
  destruct (has_node G node); [|done].
  destruct (node_feature_vector K G node) as [features|] eqn:Hf; [|done].
  simpl. intros [= <-].
  pose proof (node_feature_vector_length _ _ _ _ Hnd H3 Hpi Hmw Hf) as Hlen.
  unfold node_feature_vector in Hf.
  unfold node_data in Hf.
  destruct (nodes G !! node) as [[d|]|] eqn:Hn; try done.
  unfold set_node_features. cbn [nodes]. rewrite lookup_alter_eq, Hn.
  eexists _, features. split_and!; [reflexivity|reflexivity|done].
Qed.

End float64.

#[local] Existing Instance Sample.exact.

Lemma node_feature_width_witness :
  NoDup (RESI_NAMES Sample.tables)
  ∧ 3 ≤ length (RESI_NAMES Sample.tables)
  ∧ map_Forall (λ _ t, shape_1x1 t = true) (ISOELECTRIC_POINTS_STD Sample.tables)
  ∧ map_Forall (λ _ t, shape_1x1 t = true) (MOLECULAR_WEIGHTS_STD Sample.tables)
  ∧ compute_node_features Sample.tables "A1MET" (Sample.backbone_of Sample.met_phe)
    = Done (Sample.featured "A1MET" (Sample.backbone_of Sample.met_phe))
  ∧ ∃ d features,
      nodes (Sample.featured "A1MET" (Sample.backbone_of Sample.met_phe))
        !! "A1MET" = Some (Some d)
      ∧ n_features d = Some [features]
      ∧ length features
        = length (RESI_NAMES Sample.tables) + length BOND_TYPES + 4.
Proof.
  assert (NoDup (RESI_NAMES Sample.tables)) as H1
    by (apply (bool_decide_unpack _); vm_compute; exact I).
  assert (3 ≤ length (RESI_NAMES Sample.tables)) as H2 by (simpl; lia).
  assert (map_Forall (λ _ t, shape_1x1 t = true)
            (ISOELECTRIC_POINTS_STD Sample.tables)) as H3
    by (apply (bool_decide_unpack _); vm_compute; exact I).
  assert (map_Forall (λ _ t, shape_1x1 t = true)
            (MOLECULAR_WEIGHTS_STD Sample.tables)) as H4
    by (apply (bool_decide_unpack _); vm_compute; exact I).
  assert (compute_node_features Sample.tables "A1MET"
            (Sample.backbone_of Sample.met_phe)
          = Done (Sample.featured "A1MET" (Sample.backbone_of Sample.met_phe)))
    as H5 by (vm_compute; reflexivity).
  split_and!; try assumption.
  exact (node_feature_width Sample.tables _ _ "A1MET" H1 H2 H3 H4 H5).
Defined.

End FeatureFacts.

(** ** The graph primitives *)

Module GraphFacts.
Import Graph Props.

Lemma ekey_cases u v :
  (ekey u v = (u, v) ∧ (u ≤ v)%string) ∨ (ekey u v = (v, u) ∧ ¬ (u ≤ v)%string).
Proof. unfold ekey. case_bool_decide; auto. Qed.

Lemma ekey_comm u v : ekey u v = ekey v u.
Proof.
  unfold ekey. repeat case_bool_decide; try done.
  - f_equal; by apply (anti_symm String.le).
  - destruct (total String.le u v); done.
Qed.

Lemma ekey_idemp u v : ekey (ekey u v).1 (ekey u v).2 = ekey u v.
Proof.
  destruct (ekey_cases u v) as [[-> ?]|[-> ?]]; simpl.
  - unfold ekey. by rewrite bool_decide_true.
  - unfold ekey. rewrite bool_decide_true; [done|].
    destruct (total String.le u v); done.
Qed.

Lemma ekey_ne u v : u ≠ v → (ekey u v).1 ≠ (ekey u v).2.
Proof. destruct (ekey_cases u v) as [[-> ?]|[-> ?]]; simpl; congruence. Qed.

Lemma ekey_inj u v u' v' :
  ekey u v = ekey u' v' → (u = u' ∧ v = v') ∨ (u = v' ∧ v = u').
Proof.
  destruct (ekey_cases u v) as [[-> ?]|[-> ?]],
           (ekey_cases u' v') as [[-> ?]|[-> ?]]; intros [= -> ->]; auto.
Qed.

Lemma graph_eq G G' : nodes G = nodes G' → edges G = edges G' → G = G'.
Proof. destruct G, G'. simpl. by intros -> ->. Qed.

Lemma ekey_of_normal G k d :
  normal G → edges G !! k = Some d → ekey k.1 k.2 = k.
Proof. intros Hn Hk. by apply (Hn k d). Qed.

(** *** Loops *)

Lemma for_each_app {A} (l1 l2 : list A) body G :
  for_each (l1 ++ l2) body G = andthen (for_each l1 body G) (for_each l2 body).
Proof.
  revert G. induction l1 as [|x l1 IH]; intros G; simpl; [done|].
  destruct (body x G); simpl; [apply IH|done].
Qed.

(** An invariant of the loop body is an invariant of the loop. *)
Lemma for_each_inv {A} (P : Graph.t → Prop) (l : list A) body G G' :
  P G →
  (∀ x g g', x ∈ l → P g → body x g = Done g' → P g') →
  for_each l body G = Done G' → P G'.
Proof.
  revert G. induction l as [|x l IH]; intros G HP Hstep; simpl.
  - by intros [= <-].
  - destruct (body x G) as [g|] eqn:Hb; [simpl|done].
    apply IH.
    + eapply Hstep; [|done..]. apply elem_of_cons; auto.
    + intros y g1 g2 Hy. apply Hstep. apply elem_of_cons; auto.
Qed.

(** The same with the list of the elements already visited. *)
Lemma for_each_ind {A} (P : list A → Graph.t → Prop) (l : list A) body G G' :
  P [] G →
  (∀ pre x post g g', l = pre ++ x :: post → P pre g →
     body x g = Done g' → P (pre ++ [x]) g') →
  for_each l body G = Done G' → P l G'.
Proof.
  intros H0 Hstep.
  cut (∀ post pre g, l = pre ++ post → P pre g →
         for_each post body g = Done G' → P l G').
  { intros Hcut. by apply (Hcut l [] G). }
  induction post as [|x post IH]; intros pre g Hl HP; simpl.
  - intros [= <-]. by rewrite Hl, app_nil_r.
  - destruct (body x g) as [g1|] eqn:Hb; [simpl|done].
    apply (IH (pre ++ [x])).
    + by rewrite <-app_assoc.
    + by eapply Hstep.
Qed.

(** A loop whose body returns normally does so as well. *)
Lemma for_each_total {A} (P : Graph.t → Prop) (l : list A) body G :
  P G →
  (∀ x g, x ∈ l → P g → ∃ g', body x g = Done g' ∧ P g') →
  ∃ G', for_each l body G = Done G' ∧ P G'.
Proof.
  revert G. induction l as [|x l IH]; intros G HP Hstep; simpl; [eauto|].
  destruct (Hstep x G) as (g' & -> & HP'); [apply elem_of_cons; auto|done|].
  simpl. apply IH; [done|].
  intros y g Hy. apply Hstep. apply elem_of_cons; auto.
Qed.

(** *** Lookups after the primitives *)

Lemma edges_add_edge u v K G k :
  edges (add_edge u v K G) !! k =
    if decide (k = ekey u v) then
      Some (mkEdge K (default None (e_features <$> edges G !! ekey u v)))
    else edges G !! k.
Proof.
  unfold add_edge. cbn [edges]. case_decide as Hk.
  - subst k. rewrite lookup_insert_eq. by destruct (edges G !! ekey u v).
  - by rewrite lookup_insert_ne.
Qed.

Lemma edges_add_kind u v l G k :
  edges (add_kind u v l G) !! k =
    if decide (k = ekey u v) then
      (λ d, mkEdge ({[l]} ∪ kind d) (e_features d)) <$> edges G !! k
    else edges G !! k.
Proof.
  unfold add_kind. cbn [edges]. case_decide as Hk.
  - subst k. by rewrite lookup_alter_eq.
  - by rewrite lookup_alter_ne.
Qed.

Lemma edges_remove_kind u v l G k :
  edges (remove_kind u v l G) !! k =
    if decide (k = ekey u v) then
      (λ d, mkEdge (kind d ∖ {[l]}) (e_features d)) <$> edges G !! k
    else edges G !! k.
Proof.
  unfold remove_kind. cbn [edges]. case_decide as Hk.
  - subst k. by rewrite lookup_alter_eq.
  - by rewrite lookup_alter_ne.
Qed.

Lemma edges_remove_edge u v G k :
  edges (remove_edge u v G) !! k =
    if decide (k = ekey u v) then None else edges G !! k.
Proof.
  unfold remove_edge. cbn [edges]. case_decide as Hk.
  - subst k. by rewrite lookup_delete_eq.
  - by rewrite lookup_delete_ne.
Qed.

Lemma has_edge_true G u v :
  has_edge G u v = true ↔ ∃ d, edges G !! ekey u v = Some d.
Proof. unfold has_edge. rewrite bool_decide_eq_true. done. Qed.

Lemma has_edge_false G u v :
  has_edge G u v = false ↔ edges G !! ekey u v = None.
Proof.
  unfold has_edge. rewrite bool_decide_eq_false.
  rewrite <-eq_None_not_Some. done.
Qed.

(** *** Normal keys are preserved *)

Lemma normal_empty : normal Graph.empty.
Proof. unfold normal. cbn. apply map_Forall_empty. Qed.

Lemma normal_add_edge u v K G : normal G → normal (add_edge u v K G).
Proof.
  intros Hn k d. rewrite edges_add_edge. case_decide as Hk.
  - intros _. subst k. apply ekey_idemp.
  - apply Hn.
Qed.

Lemma normal_add_kind u v l G : normal G → normal (add_kind u v l G).
Proof.
  intros Hn k d. rewrite edges_add_kind. case_decide as Hk.
  - intros _. subst k. apply ekey_idemp.
  - apply Hn.
Qed.

Lemma normal_remove_kind u v l G : normal G → normal (remove_kind u v l G).
Proof.
  intros Hn k d. rewrite edges_remove_kind. case_decide as Hk.
  - intros _. subst k. apply ekey_idemp.
  - apply Hn.
Qed.

Lemma normal_remove_edge u v G : normal G → normal (remove_edge u v G).
Proof.
  intros Hn k d. rewrite edges_remove_edge. case_decide as Hk; [done|].
  apply Hn.
Qed.

Lemma normal_add_node n d G : normal G → normal (add_node n d G).
Proof. done. Qed.

End GraphFacts.

(** ** The commit loops *)

Module CommitFacts.
Import Table Geometry Graph Group ResiAtoms Pin Props GraphFacts.

Lemma label_edge_idemp L o : label_edge L (Some (label_edge L o)) = label_edge L o.
Proof. destruct o as [d|]; simpl; f_equal; set_solver. Qed.

Lemma same_data_refl G : same_data G G.
Proof. done. Qed.

Lemma same_data_trans G1 G2 G3 :
  same_data G1 G2 → same_data G2 G3 → same_data G1 G3.
Proof. intros H1 H2 n d. by rewrite (H1 n d). Qed.

Lemma same_data_sym G1 G2 : same_data G1 G2 → same_data G2 G1.
Proof. intros H n d. by rewrite (H n d). Qed.

Lemma touch_node_data n ns m d :
  touch_node n ns !! m = Some (Some d) ↔ ns !! m = Some (Some d).
Proof.
  unfold touch_node. destruct (ns !! n) eqn:E; [done|].
  destruct (decide (m = n)) as [->|Hne].
  - rewrite lookup_insert_eq, E. naive_solver.
  - by rewrite lookup_insert_ne.
Qed.

Lemma same_data_add_edge u v L G : same_data G (add_edge u v L G).
Proof. intros n d. unfold add_edge. cbn [nodes]. by rewrite !touch_node_data. Qed.

Lemma same_data_add_kind u v l G : same_data G (add_kind u v l G).
Proof. done. Qed.

Lemma fold_add_kind_nodes u v kind G :
  nodes (foldl (λ G k, add_kind u v k G) G kind) = nodes G.
Proof. revert G. induction kind as [|a kind IH]; intros G; simpl; [done|]. by rewrite IH. Qed.

Lemma fold_add_kind_edges u v kind G k :
  edges (foldl (λ G k, add_kind u v k G) G kind) !! k =
    if decide (k = ekey u v) then
      (λ d, mkEdge (list_to_set kind ∪ Graph.kind d) (e_features d))
        <$> edges G !! k
    else edges G !! k.
Proof.
  revert G. induction kind as [|a kind IH]; intros G; simpl.
  - case_decide; [|done]. destruct (edges G !! k) as [[]|]; simpl; [|done].
    do 2 f_equal. set_solver.
  - rewrite IH, edges_add_kind. case_decide; [|done].
    destruct (edges G !! k) as [[]|]; simpl; [|done].
    do 2 f_equal. set_solver.
Qed.

Lemma edges_add_labels u v kind G k :
  edges (add_labels u v kind G) !! k =
    if decide (k = ekey u v) then
      Some (label_edge (list_to_set kind) (edges G !! k))
    else edges G !! k.
Proof.
  unfold add_labels. destruct (has_edge G u v) eqn:E.
  - apply has_edge_true in E as [d Hd].
    rewrite fold_add_kind_edges. case_decide; [|done]. subst k.
    by rewrite Hd.
  - apply has_edge_false in E.
    rewrite edges_add_edge. case_decide; [|done]. subst k.
    by rewrite E.
Qed.

Lemma same_data_add_labels u v kind G : same_data G (add_labels u v kind G).
Proof.
  unfold add_labels. destruct (has_edge G u v).
  - intros n d. by rewrite fold_add_kind_nodes.
  - apply same_data_add_edge.
Qed.

Lemma normal_add_labels u v kind G : normal G → normal (add_labels u v kind G).
Proof.
  intros Hn k d. rewrite edges_add_labels. case_decide as Hk.
  - intros _. subst k. apply ekey_idemp.
  - apply Hn.
Qed.

(** Adding labels the edge already carries changes nothing. *)
Lemma add_labels_saturated u v kind G d :
  edges G !! ekey u v = Some d →
  (∀ l, l ∈ kind → l ∈ Graph.kind d) →
  add_labels u v kind G = G.
Proof.
  intros Hd Hsub. unfold add_labels.
  assert (has_edge G u v = true) as -> by (apply has_edge_true; eauto).
  apply graph_eq.
  - apply fold_add_kind_nodes.
  - apply map_eq. intros k.
    rewrite fold_add_kind_edges.
    case_decide; [|done]. subst k. rewrite Hd. simpl.
    destruct d as [kd fd]. do 2 f_equal. cbn in Hsub.
    apply set_eq. intros x. rewrite elem_of_union, elem_of_list_to_set.
    naive_solver.
Qed.

(** *** Graphs that differ by added labels *)

Lemma labelled_nil L G : labelled L [] G G.
Proof. split; [done|]. intros k. case_decide as H; [|done]. by apply elem_of_nil in H. Qed.

Lemma labelled_add_labels u v kind G :
  labelled (list_to_set kind) [ekey u v] G (add_labels u v kind G).
Proof.
  split; [apply same_data_add_labels|]. intros k.
  rewrite edges_add_labels.
  repeat case_decide; rewrite ?list_elem_of_singleton in *; done.
Qed.

Lemma labelled_trans L ks1 ks2 G1 G2 G3 :
  labelled L ks1 G1 G2 → labelled L ks2 G2 G3 → labelled L (ks1 ++ ks2) G1 G3.
Proof.
  intros [Hd1 He1] [Hd2 He2]. split; [by eapply same_data_trans|].
  intros k. rewrite He2, He1.
  destruct (decide (k ∈ ks1 ++ ks2)) as [Hin|Hnin];
    rewrite elem_of_app in *; repeat case_decide; try tauto; try done.
  by rewrite label_edge_idemp.
Qed.

Lemma labelled_frame L ks G G' k :
  labelled L ks G G' →
  edges G' !! k = edges G !! k
  ∨ edges G' !! k = Some (label_edge L (edges G !! k)).
Proof. intros [_ He]. rewrite He. case_decide; auto. Qed.

Lemma kind_label_edge L o : kind (label_edge L o) = L ∪ from_option kind ∅ o.
Proof. destruct o; simpl; [done|]. set_solver. Qed.

Lemma labelled_saturated L ks G G' : labelled L ks G G' → saturated L ks G'.
Proof.
  intros [_ He] k Hk. rewrite He, decide_True by done.
  eexists. split; [done|]. rewrite kind_label_edge. set_solver.
Qed.

Lemma labelled_mono L ks G G' k d :
  labelled L ks G G' → edges G !! k = Some d →
  ∃ d', edges G' !! k = Some d' ∧ kind d ⊆ kind d'.
Proof.
  intros [_ He] Hd. rewrite He, Hd. case_decide; eexists; (split; [done|]).
  - simpl. set_solver.
  - done.
Qed.

Lemma saturated_mono L ks G G' :
  saturated L ks G →
  (∀ k d, edges G !! k = Some d → ∃ d', edges G' !! k = Some d' ∧ kind d ⊆ kind d') →
  saturated L ks G'.
Proof.
  intros Hs Hm k Hk. destruct (Hs k Hk) as (d & Hd & HL).
  destruct (Hm k d Hd) as (d' & Hd' & Hsub). exists d'. split; [done|].
  set_solver.
Qed.

Lemma labelled_normal L ks G G' :
  labelled L ks G G' → normal G → (∀ k, k ∈ ks → ekey k.1 k.2 = k) → normal G'.
Proof.
  intros [_ He] Hn Hks k d. rewrite He. case_decide; [auto|apply Hn].
Qed.

Lemma labelled_edges_ok L ks G G' :
  labelled L ks G G' → edges_ok G →
  L ≠ ∅ → (∀ l, l ∈ L → l ∈ BOND_TYPES) → (∀ k, k ∈ ks → k.1 ≠ k.2) →
  edges_ok G'.
Proof.
  intros [_ He] Hok Hne Hvoc Hks k d. rewrite He. case_decide as Hk; [|apply Hok].
  intros [= <-]. split_and!; [by apply Hks| |].
  - rewrite kind_label_edge. set_solver.
  - intros l. rewrite kind_label_edge, elem_of_union. intros [?|Hl]; [auto|].
    destruct (edges G !! k) as [d|] eqn:E; simpl in Hl; [|set_solver].
    by apply (Hok k d E).
Qed.

(** *** Loops whose body commits a pair *)

Section loops.
Context {A : Type} (key_of : A → option (string * string))
  (kind : list string) (body : A → Graph.t → outcome).
Hypothesis body_Done :
  ∀ x g g', body x g = Done g' → g' = commit_step key_of kind x g.
Hypothesis body_stable :
  ∀ x g g' g2, body x g = Done g' → same_data g g2 →
    body x g2 = Done (commit_step key_of kind x g2).

Lemma same_data_commit_step x G : same_data G (commit_step key_of kind x G).
Proof.
  unfold commit_step. destruct (key_of x) as [[u v]|]; [|done].
  apply same_data_add_labels.
Qed.

Lemma commit_loop_labelled l G G' :
  for_each l body G = Done G' →
  labelled (list_to_set kind) (committed_keys key_of l) G G'.
Proof.
  revert G. induction l as [|x l IH]; intros G; simpl.
  - intros [= <-]. apply labelled_nil.
  - destruct (body x G) as [g|] eqn:Hb; [simpl|done]. intros Hl.
    apply IH in Hl. apply body_Done in Hb. subst g.
    unfold committed_keys. cbn [omap list_omap]. unfold commit_step in *.
    destruct (key_of x) as [[u v]|]; [|done].
    rewrite fmap_cons.
    apply (labelled_trans _ [ekey u v] _ _ _ _ (labelled_add_labels u v kind G) Hl).
Qed.

(** The loop does nothing on a graph that carries the labels already. *)
Lemma commit_loop_fixed l G G' G2 :
  for_each l body G = Done G' →
  same_data G G2 →
  saturated (list_to_set kind) (committed_keys key_of l) G2 →
  for_each l body G2 = Done G2.
Proof.
  revert G. induction l as [|x l IH]; intros G; simpl; [done|].
  destruct (body x G) as [g|] eqn:Hb; [simpl|done]. intros Hl Hsame Hsat.
  rewrite (body_stable _ _ _ _ Hb Hsame).
  assert (commit_step key_of kind x G2 = G2) as ->.
  { unfold commit_step. destruct (key_of x) as [[u v]|] eqn:Hk; [|done].
    destruct (Hsat (ekey u v)) as (d & Hd & Hsub).
    { unfold committed_keys. cbn [omap list_omap]. rewrite Hk, fmap_cons.
      apply elem_of_cons. auto. }
    eapply add_labels_saturated; [done|].
    intros l' Hl'. apply Hsub. by apply elem_of_list_to_set. }
  simpl. apply (IH g); [done| |].
  - apply body_Done in Hb. subst g.
    eapply same_data_trans; [|done].
    apply same_data_sym, same_data_commit_step.
  - intros k Hk. apply Hsat. unfold committed_keys in *.
    cbn [omap list_omap]. destruct (key_of x); [|done].
    rewrite fmap_cons. apply elem_of_cons. auto.
Qed.

End loops.

End CommitFacts.

(** ** The detectors that threshold distances between atoms *)

Module ThresholdFacts.
Import Table Geometry Graph Group ResiAtoms Pin Props GraphFacts CommitFacts.

Section float64.
Context {F64 : Float64}.

Lemma commit_pair_Done kind x g g' :
  (let '(i1, i2) := x in commit_pair kind i1 i2) g = Done g' →
  g' = commit_step pair_key kind x g.
Proof.
  destruct x as [i1 i2]. unfold commit_pair, commit_step, pair_key. simpl.
  case_bool_decide; by intros [= <-].
Qed.

Lemma commit_pair_stable kind x (g g' g2 : Graph.t) :
  (let '(i1, i2) := x in commit_pair kind i1 i2) g = Done g' →
  same_data g g2 →
  (let '(i1, i2) := x in commit_pair kind i1 i2) g2
    = Done (commit_step pair_key kind x g2).
Proof.
  destruct x as [i1 i2]. unfold commit_pair, commit_step, pair_key. simpl.
  by case_bool_decide.
Qed.

Lemma pair_keys_ok l k :
  k ∈ committed_keys pair_key l → k.1 ≠ k.2 ∧ ekey k.1 k.2 = k.
Proof.
  unfold committed_keys. intros ([u v] & -> & Hp)%list_elem_of_fmap.
  apply list_elem_of_omap in Hp as ([a b] & _ & Hk).
  unfold pair_key in Hk. simpl in Hk. case_bool_decide; [|done].
  injection Hk as -> ->. simpl. split; [by apply ekey_ne|apply ekey_idemp].
Qed.

(** A threshold detector that returns normally is a loop over a list
    of residue pairs that the table alone determines. *)
(** The order in which the pairs are visited does not matter. *)
Lemma commit_pairs_order kind l l' G G1 G2 :
  l ≡ₚ l' →
  for_each l (λ '(i1, i2), commit_pair kind i1 i2) G = Done G1 →
  for_each l' (λ '(i1, i2), commit_pair kind i1 i2) G = Done G2 →
  edges G1 = edges G2 ∧ same_data G1 G2.
Proof.
  intros Hp H1 H2.
  apply (commit_loop_labelled pair_key kind _ (commit_pair_Done kind)) in H1
    as [Hs1 He1].
  apply (commit_loop_labelled pair_key kind _ (commit_pair_Done kind)) in H2
    as [Hs2 He2].
  split.
  - apply map_eq. intros k. rewrite He1, He2.
    assert (k ∈ committed_keys pair_key l ↔ k ∈ committed_keys pair_key l')
      as Hk by (unfold committed_keys; by rewrite Hp).
    repeat case_decide; tauto.
  - eapply same_data_trans; [by apply same_data_sym|done].
Qed.

Lemma commit_within_loop df angstroms kind G G' :
  commit_within df angstroms kind G = Done G' →
  ∃ l, ∀ g, commit_within df angstroms kind g
            = for_each l (λ '(i1, i2), commit_pair kind i1 i2) g.
Proof.
  unfold commit_within, add_interacting_resis_, eval.
  destruct df as [df|]; [|done].
  destruct (compute_distmat atom_xyz df) as [distmat|]; [|done].
  destruct (forallb _ kind); [|done].
  destruct (collect _ _) as [resi1|]; [|done].
  destruct (collect _ _) as [resi2|]; [|done].
  intros _. by eexists.
Qed.

Lemma commit_within_labelled df angstroms kind G G' :
  commit_within df angstroms kind G = Done G' →
  ∃ ks, labelled (list_to_set kind) ks G G'
        ∧ ∀ k, k ∈ ks → k.1 ≠ k.2 ∧ ekey k.1 k.2 = k.
Proof.
  intros HG. destruct (commit_within_loop _ _ _ _ _ HG) as [l Hl].
  rewrite Hl in HG. exists (committed_keys pair_key l). split.
  - eapply commit_loop_labelled; [|done]. apply commit_pair_Done.
  - apply pair_keys_ok.
Qed.

(** Run again on a graph that kept the labels, it changes nothing. *)
Lemma commit_within_fixed df angstroms kind G G' G2 :
  commit_within df angstroms kind G = Done G' →
  same_data G G2 →
  (∀ k d, edges G' !! k = Some d →
          ∃ d', edges G2 !! k = Some d' ∧ Graph.kind d ⊆ Graph.kind d') →
  commit_within df angstroms kind G2 = Done G2.
Proof.
  intros HG Hsame Hmono. destruct (commit_within_loop _ _ _ _ _ HG) as [l Hl].
  rewrite Hl in HG. rewrite Hl.
  eapply (commit_loop_fixed pair_key kind); [apply commit_pair_Done
    |apply commit_pair_stable|done|done|].
  eapply saturated_mono; [|done].
  eapply labelled_saturated, commit_loop_labelled; [|done].
  apply commit_pair_Done.
Qed.

End float64.

End ThresholdFacts.

(** ** Distances *)

Module GeometryFacts.
Import Table Geometry.

Section float64.
Context {F64 : Float64}.

Lemma hits_spec cond (m : Matrix) i j :
  (i, j) ∈ hits cond m ↔
  ∃ row d, m !! i = Some row ∧ row !! j = Some d ∧ cond d = true.
Proof.
  unfold hits. rewrite list_elem_of_join. split.
  - intros (l & Hin & Hl). apply elem_of_lookup_imap in Hl as (i' & row & -> & Hrow).
    apply list_elem_of_join in Hin as (c & Hin & Hc).
    apply elem_of_lookup_imap in Hc as (j' & d & -> & Hd).
    destruct (cond d) eqn:E; [|by apply elem_of_nil in Hin].
    apply list_elem_of_singleton in Hin as [= -> ->]. eauto.
  - intros (row & d & Hrow & Hd & Hc).
    eexists. split; [|by apply elem_of_lookup_imap_2].
    apply list_elem_of_join. eexists. split; [|by apply elem_of_lookup_imap_2].
    rewrite Hc. by apply list_elem_of_singleton.
Qed.

Lemma zip_np_where cond m :
  zip (np_where cond m).1 (np_where cond m).2 = hits cond m.
Proof. apply zip_fst_snd. Qed.

(** The entry of the distance matrix for the rows [i] and [j]. *)
Lemma squareform_pdist_lookup pts i j row d :
  squareform_pdist pts !! i = Some row → row !! j = Some d →
  ∃ p q, pts !! i = Some p ∧ pts !! j = Some q
         ∧ d = if bool_decide (i = j) then Sqrt 0
               else if bool_decide (i < j) then pdist p q
               else pdist q p.
Proof.
  unfold squareform_pdist. rewrite list_lookup_imap.
  destruct (pts !! i) as [p|] eqn:Hp; [|done]. intros Hrow Hd.
  injection Hrow as <-. rewrite list_lookup_imap in Hd.
  destruct (pts !! j) as [q|] eqn:Hq; [|done]. injection Hd as <-.
  eauto.
Qed.

Lemma squareform_pdist_entry pts i j p q :
  pts !! i = Some p → pts !! j = Some q →
  ∃ row, squareform_pdist pts !! i = Some row
         ∧ row !! j = Some (if bool_decide (i = j) then Sqrt 0
                            else if bool_decide (i < j) then pdist p q
                            else pdist q p).
Proof.
  intros Hp Hq. unfold squareform_pdist. rewrite list_lookup_imap, Hp.
  eexists. split; [done|]. by rewrite list_lookup_imap, Hq.
Qed.

Lemma compute_distmat_Ok {A} (xyz : A → coords) (df : DataFrame A) m :
  compute_distmat xyz df = Ok m →
  m = squareform_pdist (xyz <$> rows df) ∧ df ≠ [].
Proof. unfold compute_distmat. destruct df; [done|]. by intros [= <-]. Qed.

Lemma radicand_pdist_sym p q :
  (radicand (pdist p q) == radicand (pdist q p))%Q.
Proof. apply pdist_sym. Qed.

Lemma Qle_bool_proper a b c d :
  (a == b)%Q → (c == d)%Q → Qle_bool a c = Qle_bool b d.
Proof.
  intros Hab Hcd.
  destruct (Qle_bool a c) eqn:E1, (Qle_bool b d) eqn:E2; try done.
  - apply Qle_bool_iff in E1. rewrite Hab, Hcd in E1.
    apply Qle_bool_iff in E1. congruence.
  - apply Qle_bool_iff in E2. rewrite <-Hab, <-Hcd in E2.
    apply Qle_bool_iff in E2. congruence.
Qed.

Lemma surd_le_sym p q t : surd_le (pdist p q) t = surd_le (pdist q p) t.
Proof.
  unfold surd_le. f_equal.
  apply Qle_bool_proper; [apply radicand_pdist_sym|reflexivity].
Qed.

Lemma surd_ge_sym p q t : surd_ge (pdist p q) t = surd_ge (pdist q p) t.
Proof.
  unfold surd_ge. f_equal.
  apply Qle_bool_proper; [reflexivity|apply radicand_pdist_sym].
Qed.

Lemma collect_Ok {A B} (f : A → result B) (g : A → B) l :
  (∀ x, x ∈ l → f x = Ok (g x)) → collect f l = Ok (g <$> l).
Proof.
  induction l as [|a l IH]; intros Hf; simpl; [done|].
  rewrite Hf by (apply elem_of_cons; auto). rsimpl.
  rewrite IH; [done|]. intros x Hx. apply Hf. apply elem_of_cons; auto.
Qed.

Lemma collect_inv {A B} (f : A → result B) l bs :
  collect f l = Ok bs →
  length bs = length l ∧ ∀ i a, l !! i = Some a → ∃ b, bs !! i = Some b ∧ f a = Ok b.
Proof.
  revert bs. induction l as [|a l IH]; intros bs; simpl.
  - intros [= <-]. split; [done|]. by intros i a.
  - destruct (f a) as [b|] eqn:E; [rsimpl|done].
    destruct (collect f l) as [bs'|]; [rsimpl|done]. intros [= <-].
    destruct (IH bs' eq_refl) as [Hlen Hi]. split; [simpl; by f_equal|].
    intros [|i] x; simpl; [intros [= <-]; eauto|apply Hi].
Qed.

End float64.

End GeometryFacts.

(** ** Decimal numerals and node identifiers *)

Module StringFacts.
Import Table.

Lemma app_cons c (s t : string) : String c s +:+ t = String c (s +:+ t).
Proof. done. Qed.

Lemma app_nil_l (t : string) : "" +:+ t = t.
Proof. done. Qed.

Lemma app_nil_r (s : string) : s +:+ "" = s.
Proof. induction s as [|c s IH]; [done|]. by rewrite app_cons, IH. Qed.

Lemma app_assoc (s1 s2 s3 : string) : (s1 +:+ s2) +:+ s3 = s1 +:+ s2 +:+ s3.
Proof. induction s1 as [|c s1 IH]; [done|]. by rewrite !app_cons, IH. Qed.

Lemma length_app (s1 s2 : string) :
  String.length (s1 +:+ s2) = String.length s1 + String.length s2.
Proof. induction s1 as [|c s1 IH]; [done|]. rewrite app_cons. simpl. by rewrite IH. Qed.

(** Two prefixes of one string: one is a prefix of the other. *)
Lemma app_eq_app (s1 s2 a b : string) :
  s1 +:+ a = s2 +:+ b → ∃ u, s1 = s2 +:+ u ∨ s2 = s1 +:+ u.
Proof.
  revert s2. induction s1 as [|c s1 IH]; intros s2 H.
  - exists s2. right. done.
  - destruct s2 as [|c2 s2].
    + exists (String c s1). left. done.
    + rewrite !app_cons in H. injection H as -> H.
      destruct (IH _ H) as [u [->| ->]]; exists u; rewrite app_cons; auto.
Qed.

(** Suffixes of equal length are equal. *)
Lemma app_inj_length (s1 s2 a b : string) :
  s1 +:+ a = s2 +:+ b → String.length a = String.length b → s1 = s2 ∧ a = b.
Proof.
  revert s2. induction s1 as [|c s1 IH]; intros s2 H Hlen.
  - destruct s2 as [|c2 s2]; [by rewrite !app_nil_l in H|].
    rewrite app_nil_l in H. subst a.
    rewrite length_app in Hlen. simpl in Hlen. lia.
  - destruct s2 as [|c2 s2].
    + rewrite app_nil_l in H. subst b.
      rewrite length_app in Hlen. simpl in Hlen. lia.
    + rewrite !app_cons in H. injection H as -> H.
      destruct (IH _ H Hlen) as [-> ->]. done.
Qed.

Lemma snoc_inv (u : string) :
  u ≠ "" → ∃ u' c, u = u' +:+ String c "".
Proof.
  induction u as [|c u IH]; [done|]. intros _.
  destruct u as [|c' u].
  - by exists "", c.
  - destruct IH as (u' & c'' & Hu); [done|]. exists (String c u'), c''.
    by rewrite app_cons, <-Hu.
Qed.

Lemma snoc_inj (s1 s2 : string) c1 c2 :
  s1 +:+ String c1 "" = s2 +:+ String c2 "" → s1 = s2 ∧ c1 = c2.
Proof.
  intros H. apply app_inj_length in H as [-> [= ->]]; done.
Qed.

(** The digits of a positive number. *)
Lemma go_app x s : pretty_N_go x s = pretty_N_go x "" +:+ s.
Proof.
  revert s. induction (N.lt_wf_0 x) as [x _ IH]; intros s.
  assert (x = 0 ∨ 0 < x)%N as [->|Hx] by lia; [by rewrite !pretty_N_go_0|].
  rewrite (pretty_N_go_step x s), (pretty_N_go_step x "") by done.
  assert (x `div` 10 < x)%N as Hlt by (by apply N.div_lt).
  rewrite (IH _ Hlt (String _ s)), (IH _ Hlt (String _ "")).
  by rewrite app_assoc.
Qed.

Lemma digits_step x :
  (0 < x)%N →
  pretty_N_go x "" =
    pretty_N_go (x `div` 10) "" +:+ String (pretty_N_char (x `mod` 10)) "".
Proof. intros Hx. rewrite pretty_N_go_step by done. apply go_app. Qed.

Lemma digits_nonempty x : (0 < x)%N → pretty_N_go x "" ≠ "".
Proof.
  intros Hx. rewrite digits_step by done.
  destruct (pretty_N_go _ ""); done.
Qed.

Lemma digits_inj x y :
  (0 < x)%N → (0 < y)%N → pretty_N_go x "" = pretty_N_go y "" → x = y.
Proof.
  intros Hx Hy H. apply (inj (pretty (A := N))).
  unfold pretty, pretty_N. rewrite !decide_False by lia. done.
Qed.

(** A numeral that properly extends another is at least ten times
    as large. *)
Lemma digits_prefix x y u :
  (0 < x)%N → u ≠ "" →
  pretty_N_go x "" +:+ u = pretty_N_go y "" → (10 * x ≤ y)%N.
Proof.
  revert u. induction (N.lt_wf_0 y) as [y _ IH]; intros u Hx Hu H.
  assert (y = 0 ∨ 0 < y)%N as [->|Hy] by lia.
  { rewrite pretty_N_go_0 in H. pose proof (digits_nonempty x Hx).
    destruct (pretty_N_go x ""); done. }
  rewrite (digits_step y) in H by done.
  destruct (snoc_inv u Hu) as (u' & c & ->).
  rewrite <-app_assoc in H. apply snoc_inj in H as [H _].
  pose proof (N.Div0.mul_div_le y 10).
  destruct (decide (u' = "")) as [->|Hu'].
  - rewrite app_nil_r in H.
    assert (0 < y `div` 10)%N.
    { destruct (N.eq_0_gt_0_cases (y `div` 10)) as [E|?]; [|done].
      rewrite E, pretty_N_go_0 in H. by apply digits_nonempty in H. }
    apply digits_inj in H; [lia|done..].
  - apply IH in H; [lia|by apply N.div_lt|done..].
Qed.

Lemma digits_head x :
  (0 < x)%N →
  ∃ c s, pretty_N_go x "" = String c s ∧ c ≠ "0"%char ∧ c ≠ "-"%char.
Proof.
  induction (N.lt_wf_0 x) as [x _ IH]; intros Hx.
  rewrite digits_step by done.
  destruct (N.eq_0_gt_0_cases (x `div` 10)) as [E|E].
  - rewrite E, pretty_N_go_0, app_nil_l. eexists _, _. split; [done|].
    assert (x `mod` 10 = x)%N as ->.
    { apply N.mod_small. apply N.div_small_iff in E; lia. }
    assert (x < 10)%N by (apply N.div_small_iff in E; lia).
    assert (x = 1 ∨ x = 2 ∨ x = 3 ∨ x = 4 ∨ x = 5 ∨ x = 6
            ∨ x = 7 ∨ x = 8 ∨ x = 9)%N by lia.
    naive_solver.
  - destruct (IH (x `div` 10)%N) as (c & s & -> & Hc); [by apply N.div_lt|lia|].
    rewrite app_cons. eauto.
Qed.

Lemma pretty_Z_pos (p : Z) : (0 < p)%Z → pretty p = pretty_N_go (Z.to_N p) "".
Proof. destruct p as [|x|x]; try lia. intros _. done. Qed.

Lemma pretty_Z_neg (p : Z) :
  (p < 0)%Z → pretty p = "-" +:+ pretty_N_go (Z.to_N (- p)) "".
Proof. destruct p as [|x|x]; try lia. intros _. done. Qed.

Lemma digits_succ_ne x a b :
  (0 < x)%N → pretty_N_go x "" +:+ a ≠ pretty_N_go (x + 1) "" +:+ b.
Proof.
  intros Hx H. apply app_eq_app in H as [u [H|H]].
  - destruct (decide (u = "")) as [->|Hu].
    + rewrite app_nil_r in H. apply digits_inj in H; lia.
    + symmetry in H. apply digits_prefix in H; [lia|lia|done].
  - destruct (decide (u = "")) as [->|Hu].
    + rewrite app_nil_r in H. apply digits_inj in H; lia.
    + symmetry in H. apply digits_prefix in H; [lia|lia|done].
Qed.

(** The numerals of two consecutive integers never start the same
    string. *)
Lemma pretty_succ_ne (p : Z) (a b : string) :
  pretty p +:+ a ≠ pretty (p + 1)%Z +:+ b.
Proof.
  assert (p < -1 ∨ p = -1 ∨ p = 0 ∨ 0 < p)%Z as [Hp|[->|[->|Hp]]] by lia.
  - rewrite !pretty_Z_neg by lia. simpl. intros [= H].
    symmetry in H. revert H.
    replace (Z.to_N (- p)) with (Z.to_N (- (p + 1)) + 1)%N by lia.
    apply digits_succ_ne. lia.
  - done.
  - done.
  - rewrite !pretty_Z_pos by lia.
    replace (Z.to_N (p + 1)) with (Z.to_N p + 1)%N by lia.
    apply digits_succ_ne. lia.
Qed.

(** A residue and the next residue of its chain have different node
    identifiers. *)
Lemma make_node_id_succ_ne chain pos aa aa' :
  make_node_id chain pos aa ≠ make_node_id chain (pos + 1) aa'.
Proof.
  unfold make_node_id. intros H. apply (inj _) in H.
  by apply pretty_succ_ne in H.
Qed.

Lemma make_node_id_pred_ne chain pos aa aa' :
  make_node_id chain pos aa ≠ make_node_id chain (pos - 1) aa'.
Proof.
  intros H. symmetry in H. revert H.
  replace pos with (pos - 1 + 1)%Z at 2 by lia.
  apply make_node_id_succ_ne.
Qed.

(** Residue names of equal length: equal identifiers, equal names. *)
Lemma make_node_id_residue c1 p1 a1 c2 p2 a2 :
  make_node_id c1 p1 a1 = make_node_id c2 p2 a2 →
  String.length a1 = String.length a2 → a1 = a2.
Proof.
  unfold make_node_id. rewrite <-!app_assoc. intros H Hlen.
  by apply app_inj_length in H as [_ ?].
Qed.

End StringFacts.

(** ** The detectors that look the node identifiers up in residue lists *)

Module TypedFacts.
Import Table Geometry Graph Group ResiAtoms Pin Props GraphFacts CommitFacts.

Section float64.
Context {F64 : Float64}.

Lemma commit_typed_pair_Done df first second label x g g' :
  (let '(a1, a2) := x in commit_typed_pair df first second label a1 a2) g
    = Done g' →
  g' = commit_step (typed_key df first second) [label] x g.
Proof.
  destruct x as [a1 a2].
  unfold commit_typed_pair, commit_step, typed_key, eval. simpl.
  destruct (loc df a1) as [r1|]; [rsimpl|done].
  destruct (loc df a2) as [r2|]; [rsimpl|done].
  destruct (_ && _); by intros [= <-].
Qed.

Lemma commit_typed_pair_stable df first second label x (g g' g2 : Graph.t) :
  (let '(a1, a2) := x in commit_typed_pair df first second label a1 a2) g
    = Done g' →
  same_data g g2 →
  (let '(a1, a2) := x in commit_typed_pair df first second label a1 a2) g2
    = Done (commit_step (typed_key df first second) [label] x g2).
Proof.
  destruct x as [a1 a2].
  unfold commit_typed_pair, commit_step, typed_key, eval. simpl.
  destruct (loc df a1) as [r1|]; [rsimpl|done].
  destruct (loc df a2) as [r2|]; [rsimpl|done].
  by destruct (_ && _).
Qed.

Lemma typed_keys_ok df first second l k :
  k ∈ committed_keys (typed_key df first second) l →
  k.1 ≠ k.2 ∧ ekey k.1 k.2 = k.
Proof.
  unfold committed_keys. intros ([u v] & -> & Hp)%list_elem_of_fmap.
  apply list_elem_of_omap in Hp as ([a b] & _ & Hk).
  unfold typed_key in Hk. simpl in Hk.
  destruct (loc df a) as [r1|]; [|done].
  destruct (loc df b) as [r2|]; [|done].
  destruct (_ || _); [|done]. simpl in Hk. case_bool_decide; [|done].
  injection Hk as <- <-. simpl. split; [by apply ekey_ne|apply ekey_idemp].
Qed.

Lemma commit_typed_labelled df ia first second label G G' :
  commit_typed df ia first second label G = Done G' →
  ∃ ks, labelled {[label]} ks G G'
        ∧ ∀ k, k ∈ ks → k.1 ≠ k.2 ∧ ekey k.1 k.2 = k.
Proof.
  unfold commit_typed. intros HG.
  exists (committed_keys (typed_key df first second) (zip ia.1 ia.2)). split.
  - replace ({[label]} : gset string) with (list_to_set [label] : gset string)
      by set_solver.
    eapply commit_loop_labelled; [|done]. apply commit_typed_pair_Done.
  - apply typed_keys_ok.
Qed.

Lemma commit_typed_fixed df ia first second label G G' G2 :
  commit_typed df ia first second label G = Done G' →
  same_data G G2 →
  (∀ k d, edges G' !! k = Some d →
          ∃ d', edges G2 !! k = Some d' ∧ kind d ⊆ kind d') →
  commit_typed df ia first second label G2 = Done G2.
Proof.
  unfold commit_typed. intros HG Hsame Hmono.
  eapply (commit_loop_fixed (typed_key df first second) [label]);
    [apply commit_typed_pair_Done|apply commit_typed_pair_stable|done|done|].
  eapply saturated_mono; [|done].
  eapply labelled_saturated, commit_loop_labelled; [|done].
  apply commit_typed_pair_Done.
Qed.

(** The detector runs the loop on arguments that the table alone
    determines. *)
Lemma aromatic_sulphur_loop rgroup_df G G' :
  add_aromatic_sulphur_interactions_ rgroup_df G = Done G' →
  ∃ df ia, ∀ g, add_aromatic_sulphur_interactions_ rgroup_df g
                = commit_typed df ia ["MET"; "CYS"] ["PHE"; "TYR"; "TRP"]
                    "aromatic_sulphur" g.
Proof.
  unfold add_aromatic_sulphur_interactions_, eval.
  destruct (filter_dataframe _ _ _ _) as [df|]; [|done].
  destruct (compute_distmat atom_xyz df) as [distmat|]; [|done].
  intros _. by eexists _, _.
Qed.

Lemma cation_pi_loop K rgroup_df G G' :
  add_cation_pi_interactions_ K rgroup_df G = Done G' →
  ∃ df ia, ∀ g, add_cation_pi_interactions_ K rgroup_df g
                = commit_typed df ia (CATION_RESIS K) (PI_RESIS K)
                    "cation_pi" g.
Proof.
  unfold add_cation_pi_interactions_, eval.
  destruct (filter_dataframe _ _ _ _) as [df|]; [|done].
  destruct (compute_distmat atom_xyz df) as [distmat|]; [|done].
  intros _. by eexists _, _.
Qed.

End float64.

End TypedFacts.

(** ** The aromatic-sulphur and cation-pi detectors on sample inputs *)

Module TypedExamples.
Import Table Geometry Graph Group ResiAtoms Pin Props Sample.

#[local] Existing Instance Sample.exact.

(** C1. On the table [met_phe] a methionine and a phenylalanine have
    side-chain atoms within 5.3 of each other, yet
    [add_aromatic_sulphur_interactions_] returns the graph unchanged:
    the edge between the two residues carries no "aromatic_sulphur"
    label.  The detector looks the node identifiers "A1MET" and
    "A2PHE", not the residue names, up in the residue lists. *)
Theorem aromatic_sulphur_met_phe :
  (∃ a1 a2,
     a1 ∈ rows (rgroup_of met_phe) ∧ a2 ∈ rows (rgroup_of met_phe)
     ∧ node_id a1 = "A1MET" ∧ node_id a2 = "A2PHE"
     ∧ residue_name a1 ∈ ["MET"; "CYS"]
     ∧ residue_name a2 ∈ ["PHE"; "TYR"; "TRP"]
     ∧ surd_le (pdist (atom_xyz a1) (atom_xyz a2)) float_5_3 = true)
  ∧ add_aromatic_sulphur_interactions_ (rgroup_of met_phe) (backbone_of met_phe)
    = Done (backbone_of met_phe)
  ∧ "aromatic_sulphur" ∉ kinds (backbone_of met_phe) "A1MET" "A2PHE".
Proof.
  split_and!.
  - exists (mkAtom "ATOM" "SD" "MET" "A" 1 1 0 0 "A1MET"),
           (mkAtom "ATOM" "CZ" "PHE" "A" 2 4 0 0 "A2PHE").
    split_and!;
      [vm_compute; repeat constructor..|reflexivity|reflexivity
      |apply (bool_decide_unpack _); vm_compute; exact I
      |apply (bool_decide_unpack _); vm_compute; exact I
      |vm_compute; reflexivity].
  - vm_compute. reflexivity.
  - apply (bool_decide_unpack _). vm_compute. exact I.
Qed.

(** C2. On the table [lys_phe], with lysine a cation residue and
    phenylalanine a pi residue, the two side chains are within 6 of
    each other, yet [add_cation_pi_interactions_] returns the graph
    unchanged: the edge between the two residues carries no
    "cation_pi" label. *)
Theorem cation_pi_lys_phe :
  (∃ a1 a2,
     a1 ∈ rows (rgroup_of lys_phe) ∧ a2 ∈ rows (rgroup_of lys_phe)
     ∧ node_id a1 = "A1LYS" ∧ node_id a2 = "A2PHE"
     ∧ residue_name a1 ∈ CATION_RESIS tables
     ∧ residue_name a2 ∈ PI_RESIS tables
     ∧ surd_le (pdist (atom_xyz a1) (atom_xyz a2)) 6 = true)
  ∧ add_cation_pi_interactions_ tables (rgroup_of lys_phe) (backbone_of lys_phe)
    = Done (backbone_of lys_phe)
  ∧ "cation_pi" ∉ kinds (backbone_of lys_phe) "A1LYS" "A2PHE".
Proof.
  split_and!.
  - exists (mkAtom "ATOM" "NZ" "LYS" "A" 1 1 0 0 "A1LYS"),
           (mkAtom "ATOM" "CZ" "PHE" "A" 2 4 0 0 "A2PHE").
    split_and!;
      [vm_compute; repeat constructor..|reflexivity|reflexivity
      |apply (bool_decide_unpack _); vm_compute; exact I
      |apply (bool_decide_unpack _); vm_compute; exact I
      |vm_compute; reflexivity].
  - vm_compute. reflexivity.
  - apply (bool_decide_unpack _). vm_compute. exact I.
Qed.

End TypedExamples.

(** ** Nodes and backbone edges *)

Module BackboneFacts.
Import Table Geometry Graph Group ResiAtoms Pin Props GraphFacts CommitFacts
  StringFacts TableFacts.

Lemma foldl_inv {A B} (P : A → Prop) (f : A → B → A) (l : list B) (a : A) :
  P a → (∀ a x, x ∈ l → P a → P (f a x)) → P (foldl f a l).
Proof.
  revert a. induction l as [|x l IH]; intros a Ha Hf; simpl; [done|].
  apply IH.
  - apply Hf; [apply elem_of_cons; auto|done].
  - intros b y Hy. apply Hf. apply elem_of_cons; auto.
Qed.

Lemma groupby_elem {A K} `{EqDecision K} (R : relation K) `{!RelDecision R}
    (key : A → K) (df : DataFrame A) k d :
  (k, d) ∈ groupby R key df →
  (∃ a, a ∈ rows df ∧ key a = k) ∧ d = filter (λ r, key r.2 = k) df.
Proof.
  unfold groupby. intros (k' & [= -> ->] & Hk)%list_elem_of_fmap.
  split; [|done].
  rewrite merge_sort_Permutation, elem_of_remove_dups in Hk.
  apply list_elem_of_fmap in Hk as (a & -> & Ha). eauto.
Qed.

Lemma read_pdb_derived records : derived_ids (read_pdb records).
Proof.
  intros a. unfold read_pdb. rewrite rows_range_index.
  intros (r & -> & _)%list_elem_of_fmap. done.
Qed.

Lemma rows_filter_subset {A} (P : nat * A → Prop) `{!∀ r, Decision (P r)}
    (df : DataFrame A) a :
  a ∈ rows (filter P df) → a ∈ rows df.
Proof.
  unfold rows. intros ([i b] & -> & Hin)%list_elem_of_fmap.
  apply list_elem_of_filter in Hin as [_ Hin].
  apply list_elem_of_fmap. by exists (i, b).
Qed.

Lemma filter_dataframe_subset df col vals b out a :
  filter_dataframe df col vals b = Ok out → a ∈ rows out → a ∈ rows df.
Proof.
  unfold filter_dataframe. destruct (is_column col); [|done]. intros [= <-].
  unfold reset_index. rewrite rows_range_index. apply rows_filter_subset.
Qed.

Lemma filter_dataframe_derived df col vals b out :
  derived_ids df → filter_dataframe df col vals b = Ok out → derived_ids out.
Proof. intros Hd Hf a Ha. apply Hd. by eapply filter_dataframe_subset. Qed.

(** Every entry of the mapping is a residue of the table. *)
Lemma mapping_in_table df chain pos aa :
  chain_map (compute_chain_pos_aa_mapping df) chain !! pos = Some aa →
  residue_in df chain pos aa.
Proof.
  unfold compute_chain_pos_aa_mapping. revert chain pos aa.
  apply (foldl_inv (λ m, ∀ chain pos aa,
           chain_map m chain !! pos = Some aa → residue_in df chain pos aa)).
  - intros chain pos aa. unfold chain_map. by rewrite lookup_empty.
  - intros m [[[c p] a] d] Hx IH chain pos aa. unfold chain_map.
    destruct (decide (chain = c)) as [->|Hc].
    + rewrite lookup_insert_eq. simpl.
      destruct (decide (pos = p)) as [->|Hp].
      * rewrite lookup_insert_eq. intros [= <-].
        apply groupby_elem in Hx as [(x & Hin & [= <- <- <-]) _].
        by exists x.
      * rewrite lookup_insert_ne by done. apply IH.
    + rewrite lookup_insert_ne by done. apply IH.
Qed.

Lemma groupby_key {A K} `{EqDecision K} (R : relation K) `{!RelDecision R}
    (key : A → K) (df : DataFrame A) a :
  a ∈ rows df → ∃ d, (key a, d) ∈ groupby R key df.
Proof.
  intros Ha. eexists. unfold groupby. apply list_elem_of_fmap.
  exists (key a). split; [done|].
  rewrite merge_sort_Permutation, elem_of_remove_dups.
  apply list_elem_of_fmap. by exists a.
Qed.

(** Every position of the table with a residue has an entry in the
    mapping. *)
Lemma mapping_complete df chain pos aa :
  residue_in df chain pos aa →
  is_Some (chain_map (compute_chain_pos_aa_mapping df) chain !! pos).
Proof.
  intros (x & Hx & <- & <- & <-). unfold compute_chain_pos_aa_mapping.
  destruct (groupby_key key3_le
              (λ a, (chain_id a, residue_number a, residue_name a)) df x Hx)
    as [d Hd].
  revert Hd. generalize (groupby key3_le
    (λ a, (chain_id a, residue_number a, residue_name a)) df).
  intros l Hd.
  cut (∀ m : gmap string (gmap Z string),
         is_Some (chain_map m (chain_id x) !! residue_number x)
         ∨ (chain_id x, residue_number x, residue_name x, d) ∈ l →
         is_Some (chain_map
           (foldl (λ chain_pos_aa '((chain, pos, aa), _),
                     <[chain := <[pos := aa]>
                                  (default ∅ (chain_pos_aa !! chain))]>
                       chain_pos_aa) m l)
           (chain_id x) !! residue_number x)).
  { intros Hcut. apply Hcut. by right. }
  clear Hd. induction l as [|[[[c p] a] d'] l IH]; intros m; simpl.
  - intros [H|H%elem_of_nil]; done.
  - intros H. apply IH.
    destruct H as [H|[[= <- <- <- <-]|H]%elem_of_cons]; [left|left|by right].
    + unfold chain_map in *.
      destruct (decide (chain_id x = c)) as [<-|Hc];
        [|by rewrite lookup_insert_ne].
      rewrite lookup_insert_eq. simpl.
      destruct (decide (residue_number x = p)) as [<-|Hp];
        [|by rewrite lookup_insert_ne].
      by rewrite lookup_insert_eq.
    + unfold chain_map. by rewrite lookup_insert_eq; simpl; rewrite lookup_insert_eq.
Qed.

(** The entry is the residue type of the position when there is one
    residue type only. *)
Lemma mapping_unique df chain pos aa :
  residue_in df chain pos aa →
  (∀ b, residue_in df chain pos b → b = aa) →
  chain_map (compute_chain_pos_aa_mapping df) chain !! pos = Some aa.
Proof.
  intros [b Hb]%mapping_complete Hu. rewrite Hb. f_equal.
  by apply Hu, mapping_in_table.
Qed.

Lemma node_data_Ok G n d : node_data G n = Ok d ↔ nodes G !! n = Some (Some d).
Proof.
  unfold node_data. destruct (nodes G !! n) as [[d'|]|]; naive_solver.
Qed.

Lemma node_data_same G G' n : same_data G G' → node_data G n = node_data G' n.
Proof.
  intros Hs. destruct (node_data G n) as [d|e] eqn:E.
  - symmetry. apply node_data_Ok, Hs. by apply node_data_Ok.
  - destruct (node_data G' n) as [d|e'] eqn:E'.
    + apply node_data_Ok, Hs, node_data_Ok in E'. congruence.
    + unfold node_data in *. repeat case_match; congruence.
Qed.

(** The first loop makes nodes and no edge, and every node it makes
    carries the attributes of a residue under its derived identifier. *)
Lemma add_residue_nodes_spec pdb_df G G' :
  derived_ids pdb_df →
  add_residue_nodes pdb_df G = Done G' →
  edges G' = edges G ∧ (nodes_of_table pdb_df G → nodes_of_table pdb_df G').
Proof.
  intros Hder. unfold add_residue_nodes.
  apply (for_each_inv (λ g, edges g = edges G
           ∧ (nodes_of_table pdb_df G → nodes_of_table pdb_df g))); [done|].
  intros [[[[nid c] num] name] d] g g' Hx [He Hn] Hb.
  apply groupby_elem in Hx as [(a & Ha & [= <- <- <- <-]) _].
  apply rows_filter_subset in Ha.
  unfold eval in Hb.
  destruct (ca_value x_coord d) as [x|]; [|done].
  destruct (ca_value y_coord d) as [y|]; [|done].
  destruct (ca_value z_coord d) as [z|]; [|done].
  injection Hb as <-. split; [done|].
  intros HG n d'. unfold add_node. cbn [nodes].
  destruct (decide (n = node_id a)) as [->|Hne].
  - rewrite lookup_insert_eq. intros [= <-]. simpl. split; [by apply Hder|].
    by exists a.
  - rewrite lookup_insert_ne by done. by apply Hn.
Qed.

Section backbone.
Variable K : ResiAtoms.t.
Variable chain_pos_aa : gmap string (gmap Z string).

Lemma link_backbone_same n chain aa pos' g :
  same_data g (link_backbone K chain_pos_aa n chain aa pos' g).
Proof.
  unfold link_backbone. cbv zeta. destruct (chain_map _ _ !! _); [|done].
  destruct (_ && _); [|done]. apply same_data_add_edge.
Qed.

Lemma link_backbone_normal n chain aa pos' g :
  normal g → normal (link_backbone K chain_pos_aa n chain aa pos' g).
Proof.
  unfold link_backbone. cbv zeta. destruct (chain_map _ _ !! _); [|done].
  destruct (_ && _); [|done]. apply normal_add_edge.
Qed.

Lemma link_backbone_edges n chain aa pos' g k e :
  edges (link_backbone K chain_pos_aa n chain aa pos' g) !! k = Some e →
  edges g !! k = Some e
  ∨ (kind e = {["backbone"]}
     ∧ ∃ aa', chain_map chain_pos_aa chain !! pos' = Some aa'
              ∧ k = ekey n (make_node_id chain pos' aa')).
Proof.
  unfold link_backbone. cbv zeta.
  destruct (chain_map _ _ !! _) as [aa'|] eqn:E; [|auto].
  destruct (_ && _); [|auto]. rewrite edges_add_edge.
  case_decide as Hk; [|auto]. intros [= <-]. right. eauto.
Qed.

Lemma link_backbone_keeps n chain aa pos' g k :
  has_label "backbone" g k →
  has_label "backbone" (link_backbone K chain_pos_aa n chain aa pos' g) k.
Proof.
  intros (e & He & Hl). unfold link_backbone, has_label. cbv zeta.
  destruct (chain_map _ _ !! _) as [aa'|] eqn:E; [|eauto].
  destruct (_ && _); [|eauto]. rewrite edges_add_edge.
  case_decide; [|eauto]. eexists. split; [done|]. simpl. set_solver.
Qed.

Lemma link_backbone_links n chain aa pos' aa' g :
  chain_map chain_pos_aa chain !! pos' = Some aa' →
  aa ∈ RESI_NAMES K → aa' ∈ RESI_NAMES K →
  has_label "backbone" (link_backbone K chain_pos_aa n chain aa pos' g)
    (ekey n (make_node_id chain pos' aa')).
Proof.
  intros Hm Ha Ha'. unfold link_backbone, has_label. rewrite Hm. cbv zeta.
  rewrite !bool_decide_true by done. cbn [andb]. rewrite edges_add_edge.
  rewrite decide_True by done. eexists. split; [done|]. simpl. set_solver.
Qed.

Lemma add_backbone_edges_spec G0 G :
  add_backbone_edges K chain_pos_aa G0 = Done G →
  same_data G0 G
  ∧ (normal G0 → normal G)
  ∧ (∀ k e, edges G !! k = Some e →
       edges G0 !! k = Some e
       ∨ (kind e = {["backbone"]} ∧ backbone_link chain_pos_aa G0 k))
  ∧ (∀ k, has_label "backbone" G0 k → has_label "backbone" G k)
  ∧ (∀ n, linked K chain_pos_aa G0 G n).
Proof.
  unfold add_backbone_edges. intros Hloop.
  cut (same_data G0 G
       ∧ (normal G0 → normal G)
       ∧ (∀ k e, edges G !! k = Some e →
            edges G0 !! k = Some e
            ∨ (kind e = {["backbone"]} ∧ backbone_link chain_pos_aa G0 k))
       ∧ (∀ k, has_label "backbone" G0 k → has_label "backbone" G k)
       ∧ (∀ n o, (n, o) ∈ node_list G0 → linked K chain_pos_aa G0 G n)).
  { intros (H1 & H2 & H3 & H4 & H5). split_and!; try done.
    intros n d pos' aa' Hd. eapply (H5 n (Some d)); [|done].
    by apply elem_of_map_to_list. }
  revert Hloop.
  apply (for_each_ind (λ pre g,
           same_data G0 g
           ∧ (normal G0 → normal g)
           ∧ (∀ k e, edges g !! k = Some e →
                edges G0 !! k = Some e
                ∨ (kind e = {["backbone"]} ∧ backbone_link chain_pos_aa G0 k))
           ∧ (∀ k, has_label "backbone" G0 k → has_label "backbone" g k)
           ∧ (∀ n o, (n, o) ∈ pre → linked K chain_pos_aa G0 g n))).
  - split_and!; try done; [auto|]. intros n o Hin. by apply elem_of_nil in Hin.
  - intros pre [n o] post g g' Hl (Hs & Hn & He & Hk & Hlink) Hb.
    unfold eval in Hb. destruct (node_data g n) as [d|] eqn:Hd; [|done].
    rewrite <-(node_data_same _ _ n Hs) in Hd. apply node_data_Ok in Hd.
    set (g1 := link_backbone K chain_pos_aa n (n_chain_id d) (n_residue_name d)
                 (n_residue_number d - 1) g) in *.
    set (g2 := link_backbone K chain_pos_aa n (n_chain_id d) (n_residue_name d)
                 (n_residue_number d + 1) g1) in *.
    case_bool_decide; [|done]. injection Hb as <-.
    split_and!.
    + eapply same_data_trans; [done|].
      eapply same_data_trans; apply link_backbone_same.
    + intros HG. by apply link_backbone_normal, link_backbone_normal, Hn.
    + intros k e Hke.
      apply link_backbone_edges in Hke as [Hke|(Hkind & aa' & Hm & ->)].
      * apply link_backbone_edges in Hke as [Hke|(Hkind & aa' & Hm & ->)]; [auto|].
        right. split; [done|]. exists n, d, (n_residue_number d - 1)%Z, aa'. auto.
      * right. split; [done|]. exists n, d, (n_residue_number d + 1)%Z, aa'. auto.
    + intros k Hk0. by apply link_backbone_keeps, link_backbone_keeps, Hk.
    + intros n' o' [Hin|Hin%list_elem_of_singleton]%elem_of_app.
      * intros d' pos' aa' H1 H2 H3 H4 H5.
        apply link_backbone_keeps, link_backbone_keeps.
        by eapply Hlink.
      * injection Hin as -> ->.
        intros d' pos' aa' H1 H2 H3 H4 H5.
        rewrite Hd in H1. injection H1 as <-.
        destruct H2 as [-> | ->].
        -- apply link_backbone_keeps. by apply link_backbone_links.
        -- by apply link_backbone_links.
Qed.

End backbone.

Lemma nodes_of_table_same df G G' :
  same_data G G' → nodes_of_table df G → nodes_of_table df G'.
Proof. intros Hs Hn n d Hd. apply Hn. by apply Hs. Qed.

(** The backbone graph: its nodes are residues of the table, its edges
    are backbone links and carry the label "backbone" alone, and every
    node is linked. *)
Lemma backbone_graph_spec K pdb_df chain_pos_aa G :
  derived_ids pdb_df →
  backbone_graph K pdb_df chain_pos_aa = Done G →
  normal G
  ∧ nodes_of_table pdb_df G
  ∧ (∀ k e, edges G !! k = Some e →
       kind e = {["backbone"]} ∧ backbone_link chain_pos_aa G k)
  ∧ (∀ n, linked K chain_pos_aa G G n).
Proof.
  intros Hder. unfold backbone_graph.
  destruct (add_residue_nodes pdb_df Graph.empty) as [G0|] eqn:H0; [simpl|done].
  intros HG. apply add_residue_nodes_spec in H0 as [He0 Hn0]; [|done].
  apply add_backbone_edges_spec in HG as (Hs & Hn & He & _ & Hl).
  assert (normal G0) as HnG0.
  { unfold normal. rewrite He0. apply normal_empty. }
  split_and!.
  - by apply Hn.
  - eapply nodes_of_table_same; [done|]. apply Hn0. intros n d. cbn.
    by rewrite lookup_empty.
  - intros k e Hke. apply He in Hke as [Hke|[Hk (n & d & pos' & aa' & Hd & Hb)]].
    + rewrite He0 in Hke. cbn in Hke. by rewrite lookup_empty in Hke.
    + split; [done|]. exists n, d, pos', aa'. split; [by apply Hs|done].
  - intros n d pos' aa' Hd. apply Hl. by apply Hs.
Qed.

Lemma backbone_link_ne chain_pos_aa pdb_df G k :
  nodes_of_table pdb_df G → backbone_link chain_pos_aa G k → k.1 ≠ k.2.
Proof.
  intros Hn (n & d & pos' & aa' & Hd & Hpos & Hm & ->).
  apply ekey_ne. destruct (Hn n d Hd) as [-> _].
  destruct Hpos as [-> | ->];
    [apply make_node_id_pred_ne|apply make_node_id_succ_ne].
Qed.

Lemma backbone_link_adjacent pdb_df G k :
  nodes_of_table pdb_df G →
  backbone_link (compute_chain_pos_aa_mapping pdb_df) G k →
  adjacent_residues pdb_df k.1 k.2.
Proof.
  intros Hn (n & d & pos' & aa' & Hd & Hpos & Hm & ->).
  destruct (Hn n d Hd) as [Hid Hres]. apply mapping_in_table in Hm.
  destruct Hpos as [-> | ->].
  - exists (n_chain_id d), (n_residue_number d - 1)%Z, aa', (n_residue_name d).
    replace (n_residue_number d - 1 + 1)%Z with (n_residue_number d) by lia.
    split_and!; [done..|].
    destruct (ekey_cases n (make_node_id (n_chain_id d) (n_residue_number d - 1) aa'))
      as [[-> _]|[-> _]]; simpl; rewrite <-Hid; auto.
  - exists (n_chain_id d), (n_residue_number d), (n_residue_name d), aa'.
    split_and!; [done..|].
    destruct (ekey_cases n (make_node_id (n_chain_id d) (n_residue_number d + 1) aa'))
      as [[-> _]|[-> _]]; simpl; rewrite <-Hid; auto.
Qed.

Lemma backbone_graph_edges_ok K pdb_df chain_pos_aa G :
  derived_ids pdb_df →
  backbone_graph K pdb_df chain_pos_aa = Done G → edges_ok G.
Proof.
  intros Hder HG.
  destruct (backbone_graph_spec _ _ _ _ Hder HG) as (_ & Hn & He & _).
  intros k e Hke. destruct (He k e Hke) as [Hk Hb]. split_and!.
  - by eapply backbone_link_ne.
  - rewrite Hk. set_solver.
  - intros l. rewrite Hk. intros ->%elem_of_singleton.
    apply (bool_decide_unpack _). by vm_compute.
Qed.

End BackboneFacts.

(** ** Node identifiers in the residue lists *)

Module TypedCommits.
Import Table Geometry Graph Group ResiAtoms Pin Props GraphFacts CommitFacts
  StringFacts TableFacts TypedFacts BackboneFacts.

Section float64.
Context {F64 : Float64}.

Lemma is_digit_char x : is_digit (pretty_N_char x) = true.
Proof. unfold pretty_N_char. repeat case_match; done. Qed.

Lemma has_digit_app s t : has_digit (s +:+ t) = has_digit s || has_digit t.
Proof.
  induction s as [|c s IH]; [done|]. rewrite app_cons. simpl.
  by rewrite IH, orb_assoc.
Qed.

Lemma has_digit_digits x : (0 < x)%N → has_digit (pretty_N_go x "") = true.
Proof.
  intros Hx. rewrite digits_step by done. rewrite has_digit_app. simpl.
  rewrite is_digit_char. simpl. apply orb_true_r.
Qed.

Lemma has_digit_pretty (p : Z) : has_digit (pretty p) = true.
Proof.
  destruct (Z.lt_trichotomy p 0) as [H|[->|H]].
  - rewrite pretty_Z_neg by done. rewrite has_digit_app.
    rewrite has_digit_digits by lia. apply orb_true_r.
  - done.
  - rewrite pretty_Z_pos by done. apply has_digit_digits. lia.
Qed.

(** A node identifier has a digit: the residue number. *)
Lemma has_digit_node_id c p a : has_digit (make_node_id c p a) = true.
Proof.
  unfold make_node_id. rewrite !has_digit_app, has_digit_pretty.
  by rewrite orb_true_r.
Qed.

Lemma loc_elem {A} (df : DataFrame A) i a : loc df i = Ok a → a ∈ rows df.
Proof.
  unfold loc. destruct (list_find _ df) as [[j [k b]]|] eqn:Hf; [|done].
  intros [= <-]. apply list_find_Some in Hf as (Hj & _).
  apply list_elem_of_fmap. exists (k, b). split; [done|].
  by eapply list_elem_of_lookup_2.
Qed.

(** No pair of node identifiers passes a test against lists of names
    without digits. *)
Lemma typed_key_None df first second a :
  derived_ids df →
  (∀ s, s ∈ first → has_digit s = false) →
  (∀ s, s ∈ second → has_digit s = false) →
  typed_key df first second a = None.
Proof.
  intros Hder H1 H2. unfold typed_key.
  destruct (loc df a.1) as [r1|] eqn:E1; [|done].
  destruct (loc df a.2) as [r2|] eqn:E2; [|done]. cbv zeta.
  apply loc_elem in E1. apply Hder in E1.
  assert (node_id r1 ∉ first) as N1.
  { intros Hin%H1. by rewrite E1, has_digit_node_id in Hin. }
  assert (node_id r1 ∉ second) as N2.
  { intros Hin%H2. by rewrite E1, has_digit_node_id in Hin. }
  by rewrite (bool_decide_eq_false_2 _ N1), (bool_decide_eq_false_2 _ N2).
Qed.

Lemma commit_typed_nothing df ia first second label G G' :
  derived_ids df →
  (∀ s, s ∈ first → has_digit s = false) →
  (∀ s, s ∈ second → has_digit s = false) →
  commit_typed df ia first second label G = Done G' → G' = G.
Proof.
  intros Hder H1 H2. unfold commit_typed.
  apply (for_each_inv (λ g, g = G)); [done|].
  intros x g g' _ -> Hb%commit_typed_pair_Done.
  unfold commit_step in Hb. by rewrite typed_key_None in Hb.
Qed.

(** On a table with the node identifiers of [read_pdb], the
    aromatic-sulphur detector returns the graph as it was. *)
Lemma aromatic_sulphur_commits_nothing rgroup_df G G' :
  derived_ids rgroup_df →
  add_aromatic_sulphur_interactions_ rgroup_df G = Done G' → G' = G.
Proof.
  intros Hder. unfold add_aromatic_sulphur_interactions_, eval. cbv zeta.
  destruct (filter_dataframe _ _ _ _) as [df|] eqn:Hf; [|done].
  destruct (compute_distmat atom_xyz df) as [distmat|]; [|done].
  apply commit_typed_nothing.
  - by eapply filter_dataframe_derived.
  - intros s Hs. by repeat (apply elem_of_cons in Hs as [->|Hs]; [done|]);
      apply elem_of_nil in Hs.
  - intros s Hs. by repeat (apply elem_of_cons in Hs as [->|Hs]; [done|]);
      apply elem_of_nil in Hs.
Qed.

(** So does the cation-pi detector, when the names of the cation and
    of the pi residues have no digit. *)
Lemma cation_pi_commits_nothing K rgroup_df G G' :
  derived_ids rgroup_df →
  (∀ s, s ∈ CATION_RESIS K → has_digit s = false) →
  (∀ s, s ∈ PI_RESIS K → has_digit s = false) →
  add_cation_pi_interactions_ K rgroup_df G = Done G' → G' = G.
Proof.
  intros Hder H1 H2. unfold add_cation_pi_interactions_, eval.
  destruct (filter_dataframe _ _ _ _) as [df|] eqn:Hf; [|done].
  destruct (compute_distmat atom_xyz df) as [distmat|]; [|done].
  apply commit_typed_nothing; [|done..]. by eapply filter_dataframe_derived.
Qed.

End float64.

End TypedCommits.

(** ** The aromatic detector *)

Module AromaticFacts.
Import Table Geometry Graph Group ResiAtoms Pin Props GraphFacts CommitFacts
  StringFacts TableFacts GeometryFacts BackboneFacts.

Section float64.
Context {F64 : Float64}.

Lemma isin_strs l s : isin (strs l) (CStr s) = true ↔ s ∈ l.
Proof.
  rewrite isin_spec. unfold strs. split.
  - intros (v & (t & -> & Ht)%list_elem_of_fmap & Heq). simpl in Heq.
    by apply bool_decide_eq_true in Heq as ->.
  - intros Hs. exists (CStr s). split; [by apply list_elem_of_fmap_2|].
    simpl. by apply bool_decide_eq_true.
Qed.

Lemma keep_residue_name l a :
  keep "residue_name" (strs l) true a = true ↔ residue_name a ∈ l.
Proof.
  rewrite keep_spec. change (column "residue_name" a) with (Ok (CStr (residue_name a))).
  rewrite <-isin_strs. naive_solver.
Qed.

Lemma keep_atom_name l a :
  keep "atom_name" (strs l) true a = true ↔ atom_name a ∈ l.
Proof.
  rewrite keep_spec. change (column "atom_name" a) with (Ok (CStr (atom_name a))).
  rewrite <-isin_strs. naive_solver.
Qed.

Lemma filter_dataframe_residue_name df l out :
  filter_dataframe df "residue_name" (strs l) true = Ok out →
  rows out = filter (λ a, residue_name a ∈ l) (rows df).
Proof.
  intros [-> _]%filter_dataframe_rows. apply list_filter_iff.
  intros a. rewrite <-keep_residue_name. apply Is_true_true.
Qed.

Lemma filter_dataframe_atom_name df l out :
  filter_dataframe df "atom_name" (strs l) true = Ok out →
  rows out = filter (λ a, atom_name a ∈ l) (rows df).
Proof.
  intros [-> _]%filter_dataframe_rows. apply list_filter_iff.
  intros a. rewrite <-keep_atom_name. apply Is_true_true.
Qed.

Section aromatic.
Variable K : ResiAtoms.t.

Lemma get_ring_atoms_rows df aa out :
  get_ring_atoms_ K df aa = Ok out →
  is_Some (AA_RING_ATOMS K !! aa)
  ∧ rows out =
      filter (λ a, atom_name a ∈ default [] (AA_RING_ATOMS K !! aa))
        (filter (λ a, residue_name a = aa) (rows df)).
Proof.
  unfold get_ring_atoms_.
  destruct (filter_dataframe df _ _ _) as [mid|] eqn:H1; [rsimpl|done].
  destruct (AA_RING_ATOMS K !! aa) as [ring|]; [rsimpl|done].
  intros H2. split; [done|].
  apply filter_dataframe_atom_name in H2 as ->.
  apply filter_dataframe_residue_name in H1 as ->. simpl. f_equal.
  apply list_filter_iff. intros a. apply list_elem_of_singleton.
Qed.

Lemma rows_get_ring_centroids ring_atom_df :
  rows (get_ring_centroids_ ring_atom_df) =
    (λ n, centroid_of n (filter (λ a, node_id a = n) (rows ring_atom_df)))
      <$> merge_sort String.le (remove_dups (node_id <$> rows ring_atom_df)).
Proof.
  unfold get_ring_centroids_. rewrite rows_range_index. unfold groupby.
  rewrite <-list_fmap_compose. apply list_fmap_ext. intros i n _.
  unfold centroid_of, compose.
  assert (rows (filter (λ r : nat * Atom, node_id r.2 = n) ring_atom_df)
          = filter (λ a, node_id a = n) (rows ring_atom_df)) as ->; [|done].
  apply (rows_filter_prop (λ a, node_id a = n)
           (dec := λ a, decide_rel (=) (node_id a) n)).
Qed.

Lemma ids_get_ring_centroids ring_atom_df :
  c_node_id <$> rows (get_ring_centroids_ ring_atom_df)
  = merge_sort String.le (remove_dups (node_id <$> rows ring_atom_df)).
Proof.
  rewrite rows_get_ring_centroids, <-list_fmap_compose.
  rewrite (list_fmap_ext _ id); [apply list_fmap_id|done].
Qed.

Lemma collect_Forall2 {A B} (f : A → result B) l bs :
  collect f l = Ok bs → Forall2 (λ a b, f a = Ok b) l bs.
Proof.
  revert bs. induction l as [|a l IH]; intros bs; simpl.
  - intros [= <-]. constructor.
  - destruct (f a) as [b|] eqn:E; [rsimpl|done].
    destruct (collect f l) as [bs'|]; [rsimpl|done]. intros [= <-].
    constructor; auto.
Qed.

(** The centroids of one residue type: one row per residue, which is
    the centroid of the ring atoms of that residue. *)
Lemma ring_centroids_rows df aa cdf :
  derived_ids df →
  ring_centroids K df aa = Ok cdf →
  NoDup (c_node_id <$> rows cdf)
  ∧ ∀ c, c ∈ rows cdf →
      c = centroid_of (c_node_id c) (ring_atoms_of K df aa (c_node_id c))
      ∧ ring_atoms_of K df aa (c_node_id c) ≠ []
      ∧ ∃ chain pos, c_node_id c = make_node_id chain pos aa.
Proof.
  intros Hder. unfold ring_centroids.
  destruct (get_ring_atoms_ K df aa) as [rr|] eqn:Hrr; [rsimpl|done].
  intros [= <-]. apply get_ring_atoms_rows in Hrr as [_ Hrows]. split.
  - rewrite ids_get_ring_centroids, merge_sort_Permutation.
    apply NoDup_remove_dups.
  - intros c. rewrite rows_get_ring_centroids.
    intros (n & -> & Hn)%list_elem_of_fmap. simpl.
    rewrite merge_sort_Permutation, elem_of_remove_dups in Hn.
    apply list_elem_of_fmap in Hn as (a & -> & Ha).
    split_and!.
    + unfold ring_atoms_of. by rewrite Hrows.
    + unfold ring_atoms_of. rewrite <-Hrows. intros Hnil.
      assert (a ∈ filter (λ b, node_id b = node_id a) (rows rr)) as Hin
        by (by apply list_elem_of_filter).
      rewrite Hnil in Hin. by apply elem_of_nil in Hin.
    + rewrite Hrows in Ha.
      apply list_elem_of_filter in Ha as [_ Ha].
      apply list_elem_of_filter in Ha as [<- Ha].
      rewrite (Hder a Ha). eauto.
Qed.

Lemma rows_concat {A} (dfs : list (DataFrame A)) :
  rows (List.concat dfs) = List.concat (rows <$> dfs).
Proof.
  unfold rows. induction dfs as [|d dfs IH]; [done|].
  simpl. by rewrite fmap_app, IH.
Qed.

Lemma centroid_rows_collect df l dfs :
  derived_ids df →
  NoDup l → (∀ aa, aa ∈ l → String.length aa = 3) →
  collect (ring_centroids K df) l = Ok dfs →
  NoDup (c_node_id <$> List.concat (rows <$> dfs))
  ∧ ∀ c, c ∈ List.concat (rows <$> dfs) →
      ∃ aa chain pos,
        aa ∈ l
        ∧ c = centroid_of (c_node_id c) (ring_atoms_of K df aa (c_node_id c))
        ∧ ring_atoms_of K df aa (c_node_id c) ≠ []
        ∧ c_node_id c = make_node_id chain pos aa.
Proof.
  intros Hder Hnd Hlen Hc. apply collect_Forall2 in Hc.
  induction Hc as [|aa cdf l dfs Haa _ IH]; simpl.
  { split; [constructor|]. intros c Hc. by apply elem_of_nil in Hc. }
  apply NoDup_cons in Hnd as [Hnotin Hnd].
  destruct IH as [IH1 IH2]; [done|intros; apply Hlen, elem_of_cons; auto|].
  destruct (ring_centroids_rows _ _ _ Hder Haa) as [H1 H2].
  split.
  - rewrite fmap_app. apply NoDup_app. split_and!; [done| |done].
    intros n (c & -> & Hc)%list_elem_of_fmap (c' & Heq & Hc')%list_elem_of_fmap.
    destruct (H2 c Hc) as (_ & _ & ch & pos & Hid).
    destruct (IH2 c' Hc') as (aa' & ch' & pos' & Hin & _ & _ & Hid').
    rewrite Hid, Hid' in Heq. apply make_node_id_residue in Heq.
    + by subst aa'.
    + rewrite !Hlen; [done|apply elem_of_cons; auto..].
  - intros c [Hc|Hc]%elem_of_app.
    + destruct (H2 c Hc) as (Hc1 & Hne & ch & pos & Hid).
      exists aa, ch, pos. split_and!; [apply elem_of_cons; auto|done..].
    + destruct (IH2 c Hc) as (aa' & ch & pos & Hin & ? & ? & ?).
      exists aa', ch, pos. split_and!; [apply elem_of_cons; auto|done..].
Qed.

(** The table of centroids: one row per aromatic residue with ring
    atoms, labelled from 0. *)
Lemma aromatic_centroids_spec df aromatic_df :
  derived_ids df →
  aromatic_centroids K df = Ok aromatic_df →
  aromatic_df = range_index (rows aromatic_df)
  ∧ NoDup (c_node_id <$> rows aromatic_df)
  ∧ ∀ c, c ∈ rows aromatic_df →
      ∃ aa, aa ∈ AROMATIC_RESIS
            ∧ c = centroid_of (c_node_id c)
                    (ring_atoms_of K df aa (c_node_id c))
            ∧ ring_atoms_of K df aa (c_node_id c) ≠ [].
Proof.
  intros Hder. unfold aromatic_centroids.
  destruct (collect _ _) as [dfs|] eqn:Hc; [rsimpl|done]. intros [= <-].
  apply centroid_rows_collect in Hc as [H1 H2]; [|done|..].
  - unfold reset_index. rewrite rows_range_index.
    assert (rows (sort_by_node_id (List.concat dfs))
            ≡ₚ List.concat (rows <$> dfs)) as Hperm.
    { rewrite <-rows_concat. unfold sort_by_node_id, rows.
      by rewrite merge_sort_Permutation. }
    split_and!; [done|by rewrite Hperm|].
    intros c Hin. rewrite Hperm in Hin.
    destruct (H2 c Hin) as (aa & _ & _ & ? & ? & ? & _). eauto.
  - apply (bool_decide_unpack _). by vm_compute.
  - intros aa Haa. unfold AROMATIC_RESIS in Haa.
    repeat (apply elem_of_cons in Haa as [->|Haa]; [done|]).
    by apply elem_of_nil in Haa.
Qed.


Lemma collect_elem {A B} (f : A → result B) l bs b :
  collect f l = Ok bs → (b ∈ bs ↔ ∃ a, a ∈ l ∧ f a = Ok b).
Proof.
  intros Hc%collect_Forall2. induction Hc as [|a b' l bs Hab _ IH].
  - split; [by intros ?%elem_of_nil|]. by intros (a & ?%elem_of_nil & _).
  - rewrite elem_of_cons, IH. split.
    + intros [->|(a' & Ha' & Hf)].
      * exists a. split; [apply elem_of_cons; auto|done].
      * exists a'. split; [apply elem_of_cons; auto|done].
    + intros (a' & [->|Ha']%elem_of_cons & Hf); [left; congruence|eauto].
Qed.

Lemma sq_45_pos : Qle_bool (sq (45 # 10)) 0 = false.
Proof. reflexivity. Qed.

Lemma in_range_pos d : in_aromatic_range d = true → surd_pos d = true.
Proof.
  unfold in_aromatic_range, surd_ge, surd_pos.
  intros [H1 _]%andb_true_iff. apply negb_true_iff.
  destruct (Qle_bool (radicand d) 0) eqn:E; [|done].
  apply Qle_bool_iff in H1, E.
  assert (sq (45 # 10) <= 0)%Q as H by (by eapply Qle_trans).
  apply Qle_bool_iff in H. by rewrite sq_45_pos in H.
Qed.

Lemma clip_pos d :
  surd_pos (if surd_ge d (45 # 10) && surd_le d 7 then d else Sqrt 0)
  = in_aromatic_range d.
Proof.
  fold (in_aromatic_range d).
  destruct (in_aromatic_range d) eqn:E; [by apply in_range_pos|done].
Qed.

Lemma in_range_sym p q :
  in_aromatic_range (pdist p q) = in_aromatic_range (pdist q p).
Proof. unfold in_aromatic_range. by rewrite surd_ge_sym, surd_le_sym. Qed.

Lemma in_range_self p : in_aromatic_range (pdist p p) = false.
Proof.
  unfold in_aromatic_range, surd_ge. apply andb_false_iff. left.
  change (Qle_bool (sq (45 # 10)) (radicand (pdist p p)) = false).
  rewrite <-sq_45_pos. apply Qle_bool_proper; [reflexivity|apply pdist_self].
Qed.

(** The positions the aromatic detector selects in the clipped matrix. *)
Lemma aromatic_hits (cs : list Centroid) r c :
  (r, c) ∈ hits surd_pos (clip_aromatic (squareform_pdist (centroid_xyz <$> cs)))
  ↔ ∃ cr cc, cs !! r = Some cr ∧ cs !! c = Some cc ∧ r ≠ c
             ∧ in_aromatic_range
                 (pdist (centroid_xyz cr) (centroid_xyz cc)) = true.
Proof.
  rewrite hits_spec. unfold clip_aromatic. split.
  - intros (row & d & Hrow & Hd & Hpos).
    rewrite list_lookup_fmap in Hrow.
    destruct (squareform_pdist _ !! r) as [row0|] eqn:Hrow0; [|done].
    injection Hrow as <-. rewrite list_lookup_fmap in Hd.
    destruct (row0 !! c) as [d0|] eqn:Hd0; [|done]. injection Hd as <-.
    rewrite clip_pos in Hpos.
    destruct (squareform_pdist_lookup _ _ _ _ _ Hrow0 Hd0)
      as (p & q & Hp & Hq & ->).
    rewrite list_lookup_fmap in Hp, Hq.
    destruct (cs !! r) as [cr|]; [|done]. destruct (cs !! c) as [cc|]; [|done].
    injection Hp as <-. injection Hq as <-. exists cr, cc.
    case_bool_decide as Hrc; [done|]. split_and!; [done..|].
    case_bool_decide; [done|]. by rewrite in_range_sym.
  - intros (cr & cc & Hr & Hc & Hne & Hin).
    destruct (squareform_pdist_entry (centroid_xyz <$> cs) r c
                (centroid_xyz cr) (centroid_xyz cc)) as (row & Hrow & Hd).
    { by rewrite list_lookup_fmap, Hr. }
    { by rewrite list_lookup_fmap, Hc. }
    eexists _, _. split_and!.
    + by rewrite list_lookup_fmap, Hrow.
    + by rewrite list_lookup_fmap, Hd.
    + rewrite clip_pos. repeat case_bool_decide; try done.
      by rewrite in_range_sym.
Qed.

Lemma index_at_Ok (cs : list Centroid) r n :
  index_at (range_index cs) r = Ok n ↔ ∃ c, cs !! r = Some c ∧ c_node_id c = n.
Proof.
  unfold index_at. rewrite range_index_lookup.
  destruct (cs !! r) as [c|]; simpl; naive_solver.
Qed.

(** The aromatic detector that returns normally is a loop over the pairs
    of distinct rows of the centroid table whose distance is in range. *)
Lemma aromatic_loop df G G' :
  derived_ids df →
  add_aromatic_interactions_ K df G = Done G' →
  ∃ aromatic_df l,
    aromatic_centroids K df = Ok aromatic_df
    ∧ (∀ g, add_aromatic_interactions_ K df g
            = for_each l (λ '(n1, n2), commit_aromatic n1 n2) g)
    ∧ (∀ n1 n2, (n1, n2) ∈ l ↔
         ∃ cr cc, cr ∈ rows aromatic_df ∧ cc ∈ rows aromatic_df
                  ∧ c_node_id cr = n1 ∧ c_node_id cc = n2
                  ∧ in_aromatic_range
                      (pdist (centroid_xyz cr) (centroid_xyz cc)) = true)
    ∧ (∀ n1 n2, (n1, n2) ∈ l → n1 ≠ n2).
Proof.
  intros Hder. unfold add_aromatic_interactions_, eval.
  destruct (aromatic_centroids K df) as [adf|] eqn:Hadf; [|done].
  destruct (aromatic_centroids_spec _ _ Hder Hadf) as (Hrange & Hnd & _).
  destruct (compute_distmat centroid_xyz adf) as [distmat|] eqn:Hm; [|done].
  cbv zeta. rewrite zip_np_where.
  destruct (collect _ _) as [l|] eqn:Hl; [|done]. intros _.
  exists adf, l. split_and!; [done|done| |].
  - apply compute_distmat_Ok in Hm as [-> _].
    intros n1 n2. rewrite (collect_elem _ _ _ _ Hl). split.
    + intros ([r c] & Hin & Hf). apply aromatic_hits in Hin
        as (cr & cc & Hr & Hc & Hne & Hrange').
      rewrite Hrange in Hf.
      destruct (index_at (range_index (rows adf)) r) as [m1|] eqn:E1; [rsimpl|done].
      destruct (index_at (range_index (rows adf)) c) as [m2|] eqn:E2; [rsimpl|done].
      injection Hf as <- <-.
      apply index_at_Ok in E1 as (cr' & Hr' & <-).
      apply index_at_Ok in E2 as (cc' & Hc' & <-).
      rewrite Hr in Hr'. rewrite Hc in Hc'. injection Hr' as <-. injection Hc' as <-.
      exists cr, cc. split_and!; try done; apply list_elem_of_lookup; eauto.
    + intros (cr & cc & [r Hr]%list_elem_of_lookup & [c Hc]%list_elem_of_lookup
              & <- & <- & Hin).
      exists (r, c). split.
      * apply aromatic_hits. exists cr, cc. split_and!; try done.
        intros ->. rewrite Hr in Hc. injection Hc as <-.
        by rewrite in_range_self in Hin.
      * rewrite Hrange.
        assert (index_at (range_index (rows adf)) r = Ok (c_node_id cr)) as ->
          by (apply index_at_Ok; eauto).
        assert (index_at (range_index (rows adf)) c = Ok (c_node_id cc)) as ->
          by (apply index_at_Ok; eauto).
        done.
  - apply compute_distmat_Ok in Hm as [-> _].
    intros n1 n2 Hin. apply (collect_elem _ _ _ _ Hl) in Hin as ([r c] & Hin & Hf).
    apply aromatic_hits in Hin as (cr & cc & Hr & Hc & Hne & _).
    rewrite Hrange in Hf.
    destruct (index_at (range_index (rows adf)) r) as [m1|] eqn:E1; [rsimpl|done].
    destruct (index_at (range_index (rows adf)) c) as [m2|] eqn:E2; [rsimpl|done].
    injection Hf as <- <-.
    apply index_at_Ok in E1 as (cr' & Hr' & <-).
    apply index_at_Ok in E2 as (cc' & Hc' & <-).
    intros Heq. apply Hne.
    eapply (NoDup_lookup _ _ _ _ Hnd); rewrite list_lookup_fmap.
    + by rewrite Hr'.
    + rewrite Hc'. simpl. by rewrite Heq.
Qed.

Lemma commit_aromatic_inv n1 n2 g g' :
  commit_aromatic n1 n2 g = Done g' →
  g' = add_labels n1 n2 ["aromatic"] g
  ∧ ∃ d1 d2, nodes g !! n1 = Some (Some d1) ∧ nodes g !! n2 = Some (Some d2)
             ∧ n_residue_name d1 ∈ AROMATIC_RESIS
             ∧ n_residue_name d2 ∈ AROMATIC_RESIS.
Proof.
  unfold commit_aromatic, eval.
  destruct (node_data g n1) as [d1|] eqn:E1; [|done].
  case_bool_decide; [|done].
  destruct (node_data g n2) as [d2|] eqn:E2; [|done].
  case_bool_decide; [|done]. intros [= <-]. split; [done|].
  apply node_data_Ok in E1, E2. eauto 10.
Qed.

Lemma commit_aromatic_Done x g g' :
  (let '(n1, n2) := x in commit_aromatic n1 n2) g = Done g' →
  g' = commit_step aromatic_key ["aromatic"] x g.
Proof. destruct x as [n1 n2]. by intros [-> _]%commit_aromatic_inv. Qed.

Lemma commit_aromatic_stable x (g g' g2 : Graph.t) :
  (let '(n1, n2) := x in commit_aromatic n1 n2) g = Done g' →
  same_data g g2 →
  (let '(n1, n2) := x in commit_aromatic n1 n2) g2
    = Done (commit_step aromatic_key ["aromatic"] x g2).
Proof.
  destruct x as [n1 n2].
  intros (_ & d1 & d2 & H1 & H2 & Ha1 & Ha2)%commit_aromatic_inv Hs.
  apply Hs, node_data_Ok in H1, H2.
  unfold commit_aromatic, eval. rewrite H1, H2.
  by rewrite !bool_decide_true by done.
Qed.

Lemma aromatic_labelled df G G' :
  derived_ids df →
  add_aromatic_interactions_ K df G = Done G' →
  ∃ ks, labelled {["aromatic"]} ks G G'
        ∧ ∀ k, k ∈ ks → k.1 ≠ k.2 ∧ ekey k.1 k.2 = k.
Proof.
  intros Hder HG.
  destruct (aromatic_loop _ _ _ Hder HG) as (adf & l & _ & Hl & _ & Hne).
  rewrite Hl in HG. exists (committed_keys aromatic_key l). split.
  - replace ({["aromatic"]} : gset string)
      with (list_to_set ["aromatic"] : gset string) by set_solver.
    eapply commit_loop_labelled; [|done]. apply commit_aromatic_Done.
  - unfold committed_keys. intros k ([u v] & -> & Hp)%list_elem_of_fmap.
    apply list_elem_of_omap in Hp as ([a b] & Hin & [= -> ->]). simpl.
    split; [apply ekey_ne; by eapply Hne|apply ekey_idemp].
Qed.

Lemma aromatic_fixed df G G' G2 :
  derived_ids df →
  add_aromatic_interactions_ K df G = Done G' →
  same_data G G2 →
  (∀ k d, edges G' !! k = Some d →
          ∃ d', edges G2 !! k = Some d' ∧ kind d ⊆ kind d') →
  add_aromatic_interactions_ K df G2 = Done G2.
Proof.
  intros Hder HG Hsame Hmono.
  destruct (aromatic_loop _ _ _ Hder HG) as (adf & l & _ & Hl & _).
  rewrite Hl in HG. rewrite Hl.
  eapply (commit_loop_fixed aromatic_key ["aromatic"]);
    [apply commit_aromatic_Done|apply commit_aromatic_stable|done|done|].
  eapply saturated_mono; [|done].
  eapply labelled_saturated, commit_loop_labelled; [|done].
  apply commit_aromatic_Done.
Qed.

End aromatic.

End float64.

End AromaticFacts.

(** ** Residues with atoms within a threshold *)

Module CloseFacts.
Import Table Geometry Graph Group ResiAtoms Pin Props GraphFacts CommitFacts
  TableFacts GeometryFacts ThresholdFacts.

Section float64.
Context {F64 : Float64}.

Lemma close_residues_sym df t u v :
  close_residues df t u v → close_residues df t v u.
Proof.
  intros (a & b & Ha & Hb & Hu & Hv & Hne & Hle). exists b, a.
  split_and!; try done. by rewrite surd_le_sym.
Qed.

(** The positions a threshold detector selects. *)
Lemma threshold_hits (pts : list coords) t i j p q :
  pts !! i = Some p → pts !! j = Some q → i ≠ j →
  surd_le (pdist p q) t = true →
  (i, j) ∈ hits (λ d, surd_le d t) (squareform_pdist pts).
Proof.
  intros Hp Hq Hne Hle. apply hits_spec.
  destruct (squareform_pdist_entry pts i j p q Hp Hq) as (row & Hrow & Hd).
  exists row. eexists. split_and!; [done..|]. cbn beta.
  repeat case_bool_decide; try done. by rewrite surd_le_sym.
Qed.

(** A threshold detector that returns normally is a loop over a list of
    residue pairs which holds every pair of distinct residues with atoms
    within the threshold. *)
Lemma commit_within_close d angstroms kind G G' :
  d = range_index (rows d) →
  commit_within (Ok d) angstroms kind G = Done G' →
  ∃ l, (∀ g, commit_within (Ok d) angstroms kind g
             = for_each l (λ '(i1, i2), commit_pair kind i1 i2) g)
       ∧ ∀ u v, close_residues d angstroms u v → (u, v) ∈ l.
Proof.
  intros Hrange. unfold commit_within, add_interacting_resis_, eval.
  destruct (compute_distmat atom_xyz d) as [distmat|] eqn:Hm; [|done].
  destruct (forallb _ kind); [|done].
  unfold get_interacting_atoms_, np_where. cbn [fst snd].
  destruct (collect _ (hits _ distmat).*1) as [resi1|] eqn:H1; [|done].
  destruct (collect _ (hits _ distmat).*2) as [resi2|] eqn:H2; [|done].
  intros _. eexists. split; [intros g; reflexivity|].
  intros u v (a & b & [i Hi]%list_elem_of_lookup & [j Hj]%list_elem_of_lookup
              & Hu & Hv & Hne & Hle).
  apply compute_distmat_Ok in Hm as [-> _].
  assert (i ≠ j) as Hij by (intros ->; congruence).
  assert ((i, j) ∈ hits (λ d0, surd_le d0 angstroms)
            (squareform_pdist (atom_xyz <$> rows d))) as Hhit.
  { eapply threshold_hits; [| |done..]; by rewrite list_lookup_fmap, ?Hi, ?Hj. }
  apply list_elem_of_lookup in Hhit as [n Hn].
  apply elem_of_remove_dups. apply list_elem_of_lookup. exists n.
  apply lookup_zip_with_Some. exists u, v. split; [done|].
  apply collect_inv in H1 as [_ H1]. apply collect_inv in H2 as [_ H2].
  destruct (H1 n i) as (r1 & Hr1 & Hf1); [by rewrite list_lookup_fmap, Hn|].
  destruct (H2 n j) as (r2 & Hr2 & Hf2); [by rewrite list_lookup_fmap, Hn|].
  rewrite Hrange, loc_range_index in Hf1, Hf2. rewrite Hi in Hf1. rewrite Hj in Hf2.
  rsimpl. injection Hf1 as <-. injection Hf2 as <-. by subst.
Qed.

Lemma close_committed l df t u v :
  (∀ u v, close_residues df t u v → (u, v) ∈ l) →
  close_residues df t u v → ekey u v ∈ committed_keys pair_key l.
Proof.
  intros Hl Hc. unfold committed_keys.
  apply list_elem_of_fmap. exists (u, v). split; [done|].
  apply list_elem_of_omap. exists (u, v). split; [by apply Hl|].
  unfold pair_key. simpl. rewrite bool_decide_true; [done|].
  by destruct Hc as (_ & _ & _ & _ & _ & _ & ? & _).
Qed.

End float64.

End CloseFacts.

(** ** The ionic detector *)

Module IonicFacts.
Import Table Geometry Graph Group ResiAtoms Pin Props GraphFacts CommitFacts
  StringFacts TableFacts GeometryFacts BackboneFacts ThresholdFacts CloseFacts.

Section float64.
Context {F64 : Float64}.

Lemma residue_of_same G G' n : same_data G G' → residue_of G n = residue_of G' n.
Proof.
  intros Hs. unfold residue_of.
  destruct (nodes G !! n) as [[d|]|] eqn:E.
  - apply Hs in E. by rewrite E.
  - destruct (nodes G' !! n) as [[d'|]|] eqn:E'; [|done..].
    apply Hs in E'. congruence.
  - destruct (nodes G' !! n) as [[d'|]|] eqn:E'; [|done..].
    apply Hs in E'. congruence.
Qed.

Lemma residue_of_node_data G n d :
  node_data G n = Ok d → residue_of G n = Some (n_residue_name d).
Proof. intros H%node_data_Ok. unfold residue_of. by rewrite H. Qed.

Section ionic.
Variable K : ResiAtoms.t.

Lemma is_ionic_same G G' k : same_data G G' → is_ionic K G k = is_ionic K G' k.
Proof. intros Hs. unfold is_ionic. by rewrite !(residue_of_same G G'). Qed.

Lemma charges_ok_sym a b : charges_ok K a b = charges_ok K b a.
Proof. unfold charges_ok. apply orb_comm. Qed.

Lemma is_ionic_opposite G u v :
  is_ionic K G (u, v) = true ↔ opposite_charges K G u v.
Proof.
  unfold is_ionic, opposite_charges, charges_ok. simpl. split.
  - destruct (residue_of G u) as [a|]; [|done].
    destruct (residue_of G v) as [b|]; [|done].
    intros H. exists a, b. split_and!; [done..|].
    apply orb_true_iff in H as [H|H]; apply andb_true_iff in H as [H1 H2];
      apply bool_decide_eq_true in H1, H2; auto.
  - intros (a & b & -> & -> & H). apply orb_true_iff.
    destruct H as [[??]|[??]]; [left|right];
      apply andb_true_iff; split; by apply bool_decide_eq_true.
Qed.

Lemma opposite_charges_sym G u v :
  opposite_charges K G u v → opposite_charges K G v u.
Proof. intros (a & b & ? & ? & H). exists b, a. split_and!; [done..|tauto]. Qed.

Lemma is_ionic_ekey G u v :
  is_ionic K G (ekey u v) = true ↔ opposite_charges K G u v.
Proof.
  destruct (ekey_cases u v) as [[-> _]|[-> _]]; rewrite is_ionic_opposite;
    [done|]. split; apply opposite_charges_sym.
Qed.

(** One step of the charge check on an edge that carries the label. *)
Lemma check_ionic_spec r1 r2 g g' d :
  ekey r1 r2 = (r1, r2) →
  edges g !! (r1, r2) = Some d → "ionic" ∈ kind d →
  check_ionic K r1 r2 g = Done g' →
  nodes g' = nodes g ∧ has_data g (r1, r2)
  ∧ ∀ k, edges g' !! k =
           if decide (k = (r1, r2)) then strip_invalid K g k (edges g !! k)
           else edges g !! k.
Proof.
  intros Hk Hd Hion. unfold check_ionic, eval.
  destruct (node_data g r1) as [d1|] eqn:E1; [|done].
  destruct (node_data g r2) as [d2|] eqn:E2; [|done].
  apply residue_of_node_data in E1, E2.
  assert (is_ionic K g (r1, r2)
          = charges_ok K (n_residue_name d1) (n_residue_name d2)) as Hval.
  { unfold is_ionic. simpl. by rewrite E1, E2. }
  fold (charges_ok K (n_residue_name d1) (n_residue_name d2)).
  rewrite <-Hval.
  assert (has_data g (r1, r2)) as Hdata.
  { split; simpl; [by rewrite E1|by rewrite E2]. }
  destruct (is_ionic K g (r1, r2)) eqn:Hi; simpl.
  - intros [= <-]. split_and!; [done..|]. intros k. case_decide as Hkk; [|done].
    subst k. rewrite Hd. simpl. by rewrite Hi, andb_false_r.
  - unfold kind_remove. rewrite Hk, Hd. rewrite bool_decide_true by done.
    cbn [andthen negb].
    rewrite edges_remove_kind, Hk, decide_True, Hd by done.
    cbn [fmap option_fmap option_map kind].
    case_bool_decide as Hsz.
    + intros [= <-]. split_and!; [done..|]. intros k.
      rewrite edges_remove_edge, edges_remove_kind, Hk.
      case_decide as Hkk; [|done]. subst k. rewrite Hd. simpl.
      rewrite Hi, bool_decide_true by done. simpl. unfold strip_edge.
      rewrite decide_True; [done|]. by apply size_empty_inv in Hsz as ->%leibniz_equiv.
    + intros [= <-]. split_and!; [done..|]. intros k.
      rewrite edges_remove_kind, Hk.
      case_decide as Hkk; [|done]. subst k. rewrite Hd. simpl.
      rewrite Hi, bool_decide_true by done. simpl. unfold strip_edge.
      rewrite decide_False; [done|]. intros Hemp. apply Hsz.
      rewrite Hemp. apply size_empty.
Qed.

Lemma check_ionic_total r1 r2 g d :
  ekey r1 r2 = (r1, r2) →
  edges g !! (r1, r2) = Some d → "ionic" ∈ kind d → has_data g (r1, r2) →
  ∃ g', check_ionic K r1 r2 g = Done g'.
Proof.
  intros Hk Hd Hion [H1 H2]. unfold check_ionic, eval. simpl in H1, H2.
  unfold residue_of in H1, H2. unfold node_data.
  destruct (nodes g !! r1) as [[d1|]|]; try by destruct H1.
  destruct (nodes g !! r2) as [[d2|]|]; try by destruct H2.
  destruct (negb _); [|eauto].
  unfold kind_remove. rewrite Hk, Hd. rewrite bool_decide_true by done.
  cbn [andthen].
  rewrite edges_remove_kind, Hk, decide_True, Hd by done. cbn [fmap option_fmap option_map].
  case_bool_decide; eauto.
Qed.

Lemma edges_by_type_elem G b r1 r2 :
  (r1, r2) ∈ get_edges_by_bond_type G b ↔
  ∃ d, edges G !! (r1, r2) = Some d ∧ b ∈ kind d.
Proof.
  unfold get_edges_by_bond_type, edge_list. rewrite list_elem_of_omap. split.
  - intros ([[n1 n2] d] & Hin & Hf). apply elem_of_map_to_list in Hin.
    case_bool_decide; [|done]. injection Hf as -> ->. eauto.
  - intros (d & Hd & Hb). exists ((r1, r2), d).
    split; [by apply elem_of_map_to_list|]. by rewrite bool_decide_true.
Qed.

Lemma NoDup_omap_fst {A B} (f : A * B → option A) (l : list (A * B)) :
  (∀ x y, f x = Some y → y = x.1) → NoDup (l.*1) → NoDup (omap f l).
Proof.
  intros Hf. induction l as [|x l IH]; [constructor|].
  rewrite fmap_cons. intros [Hx Hl]%NoDup_cons. cbn [omap list_omap].
  destruct (f x) as [y|] eqn:E; [|auto].
  apply NoDup_cons. split; [|auto].
  apply Hf in E as ->. intros (z & Hz & Hfz)%list_elem_of_omap.
  apply Hf in Hfz. apply Hx. rewrite Hfz. by apply list_elem_of_fmap_2.
Qed.

Lemma edges_by_type_NoDup G b : NoDup (get_edges_by_bond_type G b).
Proof.
  unfold get_edges_by_bond_type, edge_list. apply NoDup_omap_fst.
  - intros [[n1 n2] d] y. case_bool_decide; [|done]. by intros [= <-].
  - apply NoDup_fst_map_to_list.
Qed.

Lemma is_ionic_nodes g g' k : nodes g' = nodes g → is_ionic K g' k = is_ionic K g k.
Proof. intros H. unfold is_ionic, residue_of. by rewrite H. Qed.

Lemma has_data_nodes g g' k : nodes g' = nodes g → has_data g' k ↔ has_data g k.
Proof. intros H. unfold has_data, residue_of. by rewrite H. Qed.

Lemma strip_invalid_nodes g g' k o :
  nodes g' = nodes g → strip_invalid K g' k o = strip_invalid K g k o.
Proof. intros H. unfold strip_invalid. by rewrite (is_ionic_nodes _ _ _ H). Qed.

(** The loop of charge checks, on a list of distinct labelled edges. *)
Lemma strip_loop l g g' :
  NoDup l →
  (∀ x, x ∈ l → ekey x.1 x.2 = x ∧ has_label "ionic" g x) →
  for_each l (λ '(r1, r2), check_ionic K r1 r2) g = Done g' →
  nodes g' = nodes g
  ∧ (∀ x, x ∈ l → has_data g x)
  ∧ ∀ k, edges g' !! k =
           if decide (k ∈ l) then strip_invalid K g k (edges g !! k)
           else edges g !! k.
Proof.
  revert g. induction l as [|[r1 r2] l IH]; intros g Hnd Hpre; simpl.
  - intros [= <-]. split_and!; [done|intros x Hx; by apply elem_of_nil in Hx|].
    intros k. destruct (decide (k ∈ [])) as [H|]; [by apply elem_of_nil in H|done].
  - apply NoDup_cons in Hnd as [Hx Hnd].
    destruct (Hpre (r1, r2)) as [Hk (d & Hd & Hion)]; [apply elem_of_cons; auto|].
    simpl in Hk.
    destruct (check_ionic K r1 r2 g) as [g1|] eqn:Hb; [simpl|done].
    destruct (check_ionic_spec _ _ _ _ _ Hk Hd Hion Hb) as (Hn1 & Hdata & He1).
    intros Hloop. apply IH in Hloop as (Hn & Hdatas & He); [|done|].
    + split_and!.
      * by rewrite Hn.
      * intros x [->|Hin]%elem_of_cons; [done|].
        apply (has_data_nodes g g1); [done|auto].
      * intros k. rewrite He, He1.
        destruct (decide (k = (r1, r2))) as [->|Hne].
        -- rewrite decide_False by done.
           rewrite decide_True by (apply elem_of_cons; auto). done.
        -- destruct (decide (k ∈ l)) as [Hin|Hnin].
           ++ rewrite decide_True by (apply elem_of_cons; auto).
              by apply strip_invalid_nodes.
           ++ rewrite decide_False; [done|]. rewrite elem_of_cons. tauto.
    + intros x Hin. destruct (Hpre x) as [Hkx (dx & Hdx & Hix)];
        [apply elem_of_cons; auto|]. split; [done|].
      exists dx. split; [|done]. rewrite He1, decide_False; [done|].
      intros ->. done.
Qed.

Lemma strip_loop_total l g :
  NoDup l →
  (∀ x, x ∈ l → ekey x.1 x.2 = x ∧ has_label "ionic" g x ∧ has_data g x) →
  ∃ g', for_each l (λ '(r1, r2), check_ionic K r1 r2) g = Done g'.
Proof.
  revert g. induction l as [|[r1 r2] l IH]; intros g Hnd Hpre; simpl; [eauto|].
  apply NoDup_cons in Hnd as [Hx Hnd].
  destruct (Hpre (r1, r2)) as (Hk & (d & Hd & Hion) & Hdata);
    [apply elem_of_cons; auto|].
  simpl in Hk.
  destruct (check_ionic_total _ _ _ _ Hk Hd Hion Hdata) as [g1 Hb].
  rewrite Hb. simpl.
  destruct (check_ionic_spec _ _ _ _ _ Hk Hd Hion Hb) as (Hn1 & _ & He1).
  apply IH; [done|]. intros x Hin.
  destruct (Hpre x) as (Hkx & (dx & Hdx & Hix) & Hdx');
    [apply elem_of_cons; auto|].
  split_and!; [done| |by apply (has_data_nodes g g1)].
  exists dx. split; [|done]. rewrite He1, decide_False; [done|].
  intros ->. done.
Qed.

(** After the loop over all labelled edges, every edge has been checked. *)
Lemma strip_all g g' :
  normal g →
  for_each (get_edges_by_bond_type g "ionic") (λ '(r1, r2), check_ionic K r1 r2) g
    = Done g' →
  nodes g' = nodes g
  ∧ (∀ k, has_label "ionic" g k → has_data g k)
  ∧ ∀ k, edges g' !! k = strip_invalid K g k (edges g !! k).
Proof.
  intros Hn Hloop. apply strip_loop in Hloop as (Hnodes & Hdata & He).
  - split_and!; [done| |].
    + intros [r1 r2] (d & Hd & Hi). apply Hdata, edges_by_type_elem. eauto.
    + intros k. rewrite He. case_decide as Hin; [done|].
      destruct (edges g !! k) as [d|] eqn:Hd; [|done]. simpl.
      rewrite bool_decide_false; [done|]. intros Hi. apply Hin.
      destruct k as [r1 r2]. apply edges_by_type_elem. eauto.
  - apply edges_by_type_NoDup.
  - intros [r1 r2] (d & Hd & Hi)%edges_by_type_elem. split.
    + by apply (Hn _ d).
    + by exists d.
Qed.

Lemma strip_all_total g :
  normal g →
  (∀ k, has_label "ionic" g k → has_data g k) →
  ∃ g', for_each (get_edges_by_bond_type g "ionic")
          (λ '(r1, r2), check_ionic K r1 r2) g = Done g'.
Proof.
  intros Hn Hdata. apply strip_loop_total; [apply edges_by_type_NoDup|].
  intros [r1 r2] (d & Hd & Hi)%edges_by_type_elem. split_and!.
  - by apply (Hn _ d).
  - by exists d.
  - apply Hdata. by exists d.
Qed.

Lemma strip_edge_label o :
  strip_edge (label_edge {["ionic"]} o) = o ≫= strip_edge.
Proof.
  destruct o as [d|]; simpl; unfold strip_edge; simpl.
  - assert (({["ionic"]} ∪ kind d) ∖ {["ionic"]} = kind d ∖ {["ionic"]})
      as -> by set_solver. done.
  - rewrite decide_True by set_solver. done.
Qed.

Lemma strip_edge_no_label d d' : strip_edge d = Some d' → "ionic" ∉ kind d'.
Proof. unfold strip_edge. case_decide; [done|]. intros [= <-]. simpl. set_solver. Qed.

Lemma strip_edge_twice d d' : strip_edge d = Some d' → strip_edge d' = Some d'.
Proof.
  unfold strip_edge. case_decide as H; [done|]. intros [= <-]. simpl.
  assert (kind d ∖ {["ionic"]} ∖ {["ionic"]} = kind d ∖ {["ionic"]}) as ->
    by set_solver.
  by rewrite decide_False.
Qed.

Lemma strip_invalid_valid G k o :
  is_ionic K G k = true → strip_invalid K G k o = o.
Proof.
  intros H. unfold strip_invalid. destruct o as [d|]; [|done].
  by rewrite H, andb_false_r.
Qed.

Lemma strip_invalid_label G k d :
  is_ionic K G k = false → "ionic" ∈ kind d →
  strip_invalid K G k (Some d) = strip_edge d.
Proof.
  intros H Hi. unfold strip_invalid. by rewrite H, bool_decide_true.
Qed.

Lemma strip_invalid_no_label G k d :
  "ionic" ∉ kind d → strip_invalid K G k (Some d) = Some d.
Proof. intros Hi. unfold strip_invalid. by rewrite bool_decide_false. Qed.

Lemma ionic_edge_idemp G ks k o :
  ionic_edge K G ks k (ionic_edge K G ks k o) = ionic_edge K G ks k o.
Proof.
  unfold ionic_edge.
  destruct (is_ionic K G k) eqn:Hv.
  - rewrite !strip_invalid_valid by done.
    case_decide; [|done]. by rewrite label_edge_idemp.
  - case_decide as Hc.
    + rewrite (strip_invalid_label _ _ (label_edge _ o))
        by (done || rewrite kind_label_edge; set_solver).
      rewrite strip_edge_label.
      rewrite strip_invalid_label
        by (done || rewrite kind_label_edge; set_solver).
      rewrite strip_edge_label.
      destruct o as [d|]; [|done]. simpl.
      destruct (strip_edge d) as [d'|] eqn:E; [|done]. simpl.
      by apply strip_edge_twice in E.
    + destruct o as [d|]; [|done].
      destruct (decide ("ionic" ∈ kind d)) as [Hi|Hi].
      * rewrite strip_invalid_label by done.
        destruct (strip_edge d) as [d'|] eqn:E; [|done].
        apply strip_invalid_no_label. by eapply strip_edge_no_label.
      * by rewrite !strip_invalid_no_label.
Qed.

Lemma strip_invalid_Some G k o d :
  strip_invalid K G k o = Some d → ∃ d0, o = Some d0.
Proof. destruct o; [eauto|done]. Qed.

Lemma commit_pairs_total kind l g :
  ∃ g', for_each l (λ '(i1, i2), commit_pair kind i1 i2) g = Done g'.
Proof.
  revert g. induction l as [|[i1 i2] l IH]; intros g; simpl; [eauto|].
  unfold commit_pair at 1. case_bool_decide; simpl; apply IH.
Qed.

(** The ionic detector, edge by edge. *)
Lemma ionic_spec rgroup_df G G2 :
  normal G →
  add_ionic_interactions_ K rgroup_df G = Done G2 →
  ∃ l,
    (∀ g, commit_within
            (filter_dataframe rgroup_df "residue_name" (strs IONIC_RESIS) true)
            6 ["ionic"] g
          = for_each l (λ '(i1, i2), commit_pair ["ionic"] i1 i2) g)
    ∧ same_data G G2
    ∧ normal G2
    ∧ (∀ k, k ∈ committed_keys pair_key l ∨ has_label "ionic" G k →
            has_data G k)
    ∧ (∀ k, edges G2 !! k
            = ionic_edge K G (committed_keys pair_key l) k (edges G !! k))
    ∧ (∀ ionic_df u v,
         filter_dataframe rgroup_df "residue_name" (strs IONIC_RESIS) true
           = Ok ionic_df →
         close_residues ionic_df 6 u v →
         ekey u v ∈ committed_keys pair_key l).
Proof.
  intros Hn. unfold add_ionic_interactions_.
  destruct (commit_within _ _ _ G) as [G1|] eqn:H1; [cbn [andthen]|done].
  intros H2.
  destruct (filter_dataframe rgroup_df "residue_name" (strs IONIC_RESIS) true)
    as [ionic_df|] eqn:Hf; [|done].
  destruct (commit_within_close _ _ _ _ _ (filter_dataframe_range _ _ _ _ _ Hf) H1)
    as (l & Hl & Hclose).
  exists l. rewrite Hl in H1.
  assert (labelled {["ionic"]} (committed_keys pair_key l) G G1) as [Hs He].
  { replace ({["ionic"]} : gset string)
      with (list_to_set ["ionic"] : gset string) by set_solver.
    eapply commit_loop_labelled; [|done]. apply commit_pair_Done. }
  assert (normal G1) as Hn1.
  { intros k d. rewrite He. case_decide as Hk; [|apply Hn].
    intros _. by apply pair_keys_ok in Hk as [_ ?]. }
  apply strip_all in H2 as (Hnodes & Hdata & He2); [|done].
  assert (same_data G G2) as Hs2.
  { intros n d. rewrite (Hs n d). by rewrite Hnodes. }
  assert (∀ k, edges G2 !! k
               = ionic_edge K G (committed_keys pair_key l) k (edges G !! k))
    as Hpt.
  { intros k. rewrite He2, He. unfold ionic_edge, strip_invalid.
    by rewrite (is_ionic_same G G1). }
  split_and!; [exact Hl|exact Hs2| | |exact Hpt|].
  - intros k d. rewrite Hpt. unfold ionic_edge.
    intros [d0 Hd0]%strip_invalid_Some. case_decide as Hk.
    + by apply pair_keys_ok in Hk as [_ ?].
    + by apply (Hn k d0).
  - intros k Hk.
    assert (has_label "ionic" G1 k) as Hl1.
    { unfold has_label. rewrite He. destruct Hk as [Hk|(d & Hd & Hi)].
      - rewrite decide_True by done. eexists. split; [done|].
        rewrite kind_label_edge. set_solver.
      - case_decide; [|eauto]. eexists. split; [done|].
        rewrite kind_label_edge. set_solver. }
    apply Hdata in Hl1. unfold has_data in *.
    by rewrite !(residue_of_same G G1).
  - intros df' u v [= <-] Hc. by eapply close_committed.
Qed.

(** Run a second time, the ionic detector returns the same edges. *)
Lemma ionic_idem rgroup_df G G2 :
  normal G →
  add_ionic_interactions_ K rgroup_df G = Done G2 →
  ∃ G4, add_ionic_interactions_ K rgroup_df G2 = Done G4
        ∧ edges G4 = edges G2 ∧ same_data G2 G4.
Proof.
  intros Hn HG. destruct (ionic_spec _ _ _ Hn HG) as (l & Hl & Hs & Hn2 & Hdata & Hpt & _).
  unfold add_ionic_interactions_. rewrite Hl.
  destruct (commit_pairs_total ["ionic"] l G2) as [G3 H3]. rewrite H3. simpl.
  assert (labelled {["ionic"]} (committed_keys pair_key l) G2 G3) as [Hs3 He3].
  { replace ({["ionic"]} : gset string)
      with (list_to_set ["ionic"] : gset string) by set_solver.
    eapply commit_loop_labelled; [|done]. apply commit_pair_Done. }
  assert (normal G3) as Hn3.
  { intros k d. rewrite He3. case_decide as Hk; [|apply Hn2].
    intros _. by apply pair_keys_ok in Hk as [_ ?]. }
  destruct (strip_all_total G3) as [G4 H4]; [done| |].
  { intros k (d & Hd & Hi). rewrite He3 in Hd.
    assert (has_data G k) as Hk.
    { apply Hdata. case_decide as Hc; [auto|]. right.
      rewrite Hpt in Hd. unfold ionic_edge in Hd.
      rewrite decide_False in Hd by done.
      destruct (edges G !! k) as [d0|] eqn:E0; [|done]. exists d0. split; [done|].
      destruct (decide ("ionic" ∈ kind d0)); [done|].
      rewrite strip_invalid_no_label in Hd by done. congruence. }
    unfold has_data in *.
    by rewrite <-!(residue_of_same G2 G3), <-!(residue_of_same G G2). }
  exists G4. split; [done|].
  apply strip_all in H4 as (Hnodes4 & _ & He4); [|done].
  split.
  - apply map_eq. intros k. rewrite He4, He3.
    transitivity (ionic_edge K G (committed_keys pair_key l) k (edges G2 !! k)).
    + unfold ionic_edge, strip_invalid.
      by rewrite <-(is_ionic_same G2 G3), <-(is_ionic_same G G2).
    + rewrite Hpt. apply ionic_edge_idemp.
  - intros n d. rewrite (Hs3 n d). by rewrite Hnodes4.
Qed.

End ionic.

End float64.

End IonicFacts.

(** ** Detectors as steps, and the graphs they reach *)

Module StepFacts.
Import Table Geometry Graph Group ResiAtoms Pin Props GraphFacts CommitFacts
  StringFacts TableFacts GeometryFacts BackboneFacts ThresholdFacts TypedFacts
  AromaticFacts IonicFacts.

Section float64.
Context {F64 : Float64}.

Lemma labelled_step l ks G G' :
  labelled {[l]} ks G G' →
  (∀ k, k ∈ ks → k.1 ≠ k.2 ∧ ekey k.1 k.2 = k) →
  detector_step l G G'.
Proof.
  intros [Hs He] Hks. split; [done|]. intros k. rewrite He.
  case_decide as Hk; [|auto]. right. left.
  destruct (Hks k Hk). auto.
Qed.

Lemma ionic_valid_after K rgroup_df G G2 :
  normal G → add_ionic_interactions_ K rgroup_df G = Done G2 → ionic_valid K G2.
Proof.
  intros Hn HG. destruct (ionic_spec _ _ _ _ Hn HG) as (l & _ & Hs & _ & _ & Hpt & _).
  intros k (d & Hd & Hi). rewrite <-(is_ionic_same K G G2) by done.
  rewrite Hpt in Hd. unfold ionic_edge in Hd.
  destruct (is_ionic K G k) eqn:Hv; [done|]. exfalso.
  destruct (if decide (k ∈ committed_keys pair_key l)
            then Some (label_edge {["ionic"]} (edges G !! k))
            else edges G !! k) as [d1|]; [|done].
  destruct (decide ("ionic" ∈ kind d1)) as [Hi1|Hi1].
  - rewrite strip_invalid_label in Hd by done.
    by apply strip_edge_no_label in Hd.
  - rewrite strip_invalid_no_label in Hd by done. congruence.
Qed.

Lemma ionic_step K rgroup_df G G2 :
  normal G → add_ionic_interactions_ K rgroup_df G = Done G2 →
  detector_step "ionic" G G2.
Proof.
  intros Hn HG. destruct (ionic_spec _ _ _ _ Hn HG) as (l & _ & Hs & _ & _ & Hpt & _).
  split; [done|]. intros k. rewrite Hpt. unfold ionic_edge.
  destruct (is_ionic K G k) eqn:Hv.
  - rewrite strip_invalid_valid by done. case_decide as Hk; [|auto].
    right. left. apply pair_keys_ok in Hk as [??]. auto.
  - case_decide as Hk.
    + right. right. split; [done|].
      rewrite strip_invalid_label
        by (done || rewrite kind_label_edge; set_solver).
      apply strip_edge_label.
    + destruct (edges G !! k) as [d|] eqn:E; [|auto].
      destruct (decide ("ionic" ∈ kind d)).
      * right. right. split; [done|]. by rewrite strip_invalid_label.
      * left. by rewrite strip_invalid_no_label.
Qed.

Lemma hbond_labelled rgroup_df G G' :
  add_hydrogen_bond_interactions_ rgroup_df G = Done G' →
  ∃ ks, labelled {["hbond"]} ks G G'
        ∧ ∀ k, k ∈ ks → k.1 ≠ k.2 ∧ ekey k.1 k.2 = k.
Proof.
  unfold add_hydrogen_bond_interactions_.
  destruct (commit_within _ _ _ G) as [G1|] eqn:H1; [cbn [andthen]|done].
  intros H2.
  apply commit_within_labelled in H1 as (ks1 & L1 & K1).
  apply commit_within_labelled in H2 as (ks2 & L2 & K2).
  exists (ks1 ++ ks2). split.
  - replace ({["hbond"]} : gset string)
      with (list_to_set ["hbond"] : gset string) by set_solver.
    by eapply labelled_trans.
  - intros k [?|?]%elem_of_app; auto.
Qed.

Lemma singleton_list_to_set (l : string) :
  (list_to_set [l] : gset string) = {[l]}.
Proof. set_solver. Qed.

(** Every detector is a step with its own label. *)
Lemma run_detector_step K pdb_df rgroup_df func G G' :
  derived_ids pdb_df → normal G →
  run_detector K pdb_df rgroup_df func G = Done G' →
  detector_step (label func) G G'.
Proof.
  intros Hder Hn. destruct func; cbn [run_detector label]; intros HG.
  - apply commit_within_labelled in HG as (ks & L & Hks).
    rewrite singleton_list_to_set in L. by eapply labelled_step.
  - apply commit_within_labelled in HG as (ks & L & Hks).
    rewrite singleton_list_to_set in L. by eapply labelled_step.
  - apply hbond_labelled in HG as (ks & L & Hks). by eapply labelled_step.
  - by eapply ionic_step.
  - apply aromatic_labelled in HG as (ks & L & Hks); [|done].
    by eapply labelled_step.
  - destruct (aromatic_sulphur_loop _ _ _ HG) as (df & ia & Hl).
    rewrite Hl in HG. apply commit_typed_labelled in HG as (ks & L & Hks).
    by eapply labelled_step.
  - destruct (cation_pi_loop _ _ _ _ HG) as (df & ia & Hl).
    rewrite Hl in HG. apply commit_typed_labelled in HG as (ks & L & Hks).
    by eapply labelled_step.
Qed.

(** *** What a step preserves *)

Lemma step_normal l G G' : detector_step l G G' → normal G → normal G'.
Proof.
  intros [_ He] Hn k d Hd. destruct (He k) as [H|[(_ & H & _)|[_ H]]].
  - rewrite H in Hd. by apply (Hn k d).
  - done.
  - rewrite H in Hd. destruct (edges G !! k) as [d0|] eqn:E; [|done].
    by apply (Hn k d0).
Qed.

Lemma label_in_vocabulary func : label func ∈ BOND_TYPES.
Proof. destruct func; apply (bool_decide_unpack _); by vm_compute. Qed.

Lemma step_edges_ok l G G' :
  detector_step l G G' → l ∈ BOND_TYPES → edges_ok G → edges_ok G'.
Proof.
  intros [_ He] Hl Hok k d Hd. destruct (He k) as [H|[(Hne & _ & H)|[_ H]]].
  - rewrite H in Hd. by apply (Hok k d).
  - rewrite H in Hd. injection Hd as <-. split_and!; [done| |].
    + rewrite kind_label_edge. set_solver.
    + intros x. rewrite kind_label_edge, elem_of_union, elem_of_singleton.
      intros [->|Hx]; [done|].
      destruct (edges G !! k) as [d0|] eqn:E; simpl in Hx; [|set_solver].
      by apply (Hok k d0 E).
  - rewrite H in Hd. destruct (edges G !! k) as [d0|] eqn:E; [|done].
    simpl in Hd. destruct (Hok k d0 E) as (Hne & _ & Hvoc).
    unfold strip_edge in Hd. case_decide as Hemp; [done|]. injection Hd as <-.
    split_and!; [done|done|]. simpl. intros x Hx. apply Hvoc. set_solver.
Qed.

(** A label other than the detector's is on the same edges before and
    after the step. *)
Lemma step_other_label l l' G G' k :
  detector_step l G G' → l' ≠ l → l' ≠ "ionic" →
  has_label l' G' k ↔ has_label l' G k.
Proof.
  intros [_ He] Hne Hni. unfold has_label.
  destruct (He k) as [H|[(_ & _ & H)|[_ H]]]; rewrite H.
  - done.
  - split.
    + intros (d & [= <-] & Hl). rewrite kind_label_edge in Hl.
      destruct (edges G !! k) as [d0|]; simpl in Hl; [|set_solver].
      exists d0. split; [done|]. set_solver.
    + intros (d & -> & Hl). eexists. split; [done|]. simpl. set_solver.
  - destruct (edges G !! k) as [d0|]; simpl; [|done].
    unfold strip_edge. split.
    + intros (d & Hd & Hl). case_decide; [done|]. injection Hd as <-.
      exists d0. split; [done|]. simpl in Hl. set_solver.
    + intros (d & [= <-] & Hl). rewrite decide_False by set_solver.
      eexists. split; [done|]. simpl. set_solver.
Qed.

Lemma step_ionic_back l G G' k :
  detector_step l G G' → l ≠ "ionic" →
  has_label "ionic" G' k → has_label "ionic" G k.
Proof.
  intros [_ He] Hne. unfold has_label.
  destruct (He k) as [H|[(_ & _ & H)|[? _]]]; [by rewrite H| |done].
  rewrite H. intros (d & [= <-] & Hl). rewrite kind_label_edge in Hl.
  destruct (edges G !! k) as [d0|]; simpl in Hl; [|set_solver].
  exists d0. split; [done|]. set_solver.
Qed.

End float64.

End StepFacts.

(** ** The graphs the construction goes through *)

Module ReachFacts.
Import Table Geometry Graph Group ResiAtoms Pin Props GraphFacts CommitFacts
  StringFacts TableFacts GeometryFacts BackboneFacts IonicFacts StepFacts.

Section float64.
Context {F64 : Float64}.

Lemma backbone_not_label func : "backbone" ≠ label func.
Proof. by destruct func. Qed.

(** What holds of every graph the construction goes through. *)
Lemma reachable_inv K pdb_df rgroup_df G :
  derived_ids pdb_df → reachable K pdb_df rgroup_df G →
  normal G ∧ edges_ok G ∧ nodes_of_table pdb_df G ∧ ionic_valid K G
  ∧ (∀ k, has_label "backbone" G k → adjacent_residues pdb_df k.1 k.2)
  ∧ (∀ n, linked K (compute_chain_pos_aa_mapping pdb_df) G G n).
Proof.
  intros Hder. induction 1 as [G HG|G G' func Hr IH HG].
  - destruct (backbone_graph_spec _ _ _ _ Hder HG) as (Hn & Hnt & He & Hl).
    split_and!; [done|by eapply backbone_graph_edges_ok|done| | |done].
    + intros k (d & Hd & Hi). destruct (He k d Hd) as [Hk _].
      rewrite Hk in Hi. by apply elem_of_singleton in Hi.
    + intros k (d & Hd & _). apply backbone_link_adjacent with G; [done|].
      by destruct (He k d Hd).
  - destruct IH as (Hn & Hok & Hnt & Hiv & Hadj & Hl).
    pose proof (run_detector_step _ _ _ _ _ _ Hder Hn HG) as Hstep.
    pose proof Hstep as [Hs _].
    split_and!.
    + by eapply step_normal.
    + eapply step_edges_ok; [done|apply label_in_vocabulary|done].
    + by eapply nodes_of_table_same.
    + destruct (decide (label func = "ionic")) as [Hf|Hf].
      * destruct func; try done. by eapply ionic_valid_after.
      * intros k Hk. rewrite <-(is_ionic_same K G G') by done.
        apply Hiv. by eapply step_ionic_back.
    + intros k Hk. apply Hadj.
      by apply (step_other_label _ _ _ _ _ Hstep (backbone_not_label func)).
    + intros n d pos' aa' Hd Hpos Hm Ha Ha'.
      apply (step_other_label _ _ _ _ _ Hstep (backbone_not_label func));
        [done|].
      apply (Hl n d); [by apply Hs|done..].
Qed.

(** The graph [compute_interaction_graph] returns is one of them. *)
Lemma detectors_reachable K pdb_df rgroup_df l G G' :
  reachable K pdb_df rgroup_df G →
  for_each l (run_detector K pdb_df rgroup_df) G = Done G' →
  reachable K pdb_df rgroup_df G'.
Proof.
  revert G. induction l as [|func l IH]; intros G Hr; simpl.
  - by intros [= <-].
  - destruct (run_detector K pdb_df rgroup_df func G) as [G1|] eqn:H1; [|done].
    simpl. apply IH. by eapply reach_detector.
Qed.

Lemma compute_interaction_graph_reachable K pdb_df rgroup_df G :
  compute_interaction_graph K pdb_df rgroup_df
    (compute_chain_pos_aa_mapping pdb_df) = Done G →
  reachable K pdb_df rgroup_df G.
Proof.
  unfold compute_interaction_graph.
  destruct (backbone_graph _ _ _) as [G0|] eqn:H0; [cbn [andthen]|done].
  apply detectors_reachable. by apply reach_backbone.
Qed.

Lemma kinds_has_label l G u v :
  l ∈ kinds G u v ↔ has_label l G (ekey u v).
Proof.
  unfold kinds, has_label. destruct (edges G !! ekey u v) as [d|].
  - split; [eauto|]. by intros (e & [= <-] & ?).
  - split; [set_solver|]. by intros (e & ? & _).
Qed.

(** C8. At every point after the backbone construction and after every
    detector has returned, the graph has no self-loop, and on every edge
    the set of labels [kind] is a non-empty subset of the bond vocabulary
    (backbone, hydrophobic, disulfide, hbond, ionic, aromatic,
    aromatic_sulphur, cation_pi, delaunay). *)
Theorem global_edge_invariant K records rgroup_df G :
  reachable K (read_pdb records) rgroup_df G →
  (∀ n, has_edge G n n = false)
  ∧ (∀ u v d, edges G !! (u, v) = Some d →
       u ≠ v ∧ kind d ≠ ∅ ∧ ∀ l, l ∈ kind d → l ∈ BOND_TYPES)
  ∧ (∀ u v, has_edge G u v = true →
       u ≠ v ∧ kinds G u v ≠ ∅ ∧ ∀ l, l ∈ kinds G u v → l ∈ BOND_TYPES)
  ∧ BOND_TYPES = ["backbone"; "hydrophobic"; "disulfide"; "hbond"; "ionic";
                  "aromatic"; "aromatic_sulphur"; "cation_pi"; "delaunay"].
Proof.
  intros Hr.
  destruct (reachable_inv _ _ _ _ (read_pdb_derived records) Hr)
    as (Hn & Hok & _).
  assert (∀ u v, has_edge G u v = true →
            u ≠ v ∧ kinds G u v ≠ ∅ ∧ ∀ l, l ∈ kinds G u v → l ∈ BOND_TYPES)
    as Hedge.
  { intros u v [d Hd]%has_edge_true. unfold kinds. rewrite Hd.
    destruct (Hok _ _ Hd) as (Hne & ? & ?). split; [|done].
    intros ->. apply Hne. by destruct (ekey_cases v v) as [[-> _]|[-> _]]. }
  split_and!; [| |done|done].
  - intros n. destruct (has_edge G n n) eqn:E; [|done].
    by destruct (Hedge n n E).
  - intros u v d Hd. apply (Hok _ _ Hd).
Qed.

Lemma adjacent_residues_sym df u v :
  adjacent_residues df u v → adjacent_residues df v u.
Proof.
  intros (chain & pos & aa & aa' & H1 & H2 & H).
  exists chain, pos, aa, aa'. split_and!; [done..|tauto].
Qed.

Lemma adjacent_residues_ekey df u v :
  adjacent_residues df (ekey u v).1 (ekey u v).2 → adjacent_residues df u v.
Proof.
  destruct (ekey_cases u v) as [[-> _]|[-> _]]; simpl; [done|].
  apply adjacent_residues_sym.
Qed.

(** C7 (amended). After the backbone construction and after every
    detector: every node, of chain [c], position [p] and residue type
    [a], is joined by an edge labelled "backbone" to the node of the
    residue type [a'] that the mapping of chain, position and residue
    type records at position [p - 1], and at position [p + 1], of [c],
    when [a] and [a'] are both in the alphabet RESI_NAMES; that recorded
    residue is a residue of the table, and it is the residue of the
    position when the table has one residue type only at that position;
    and every edge labelled "backbone" joins two residues of the table
    at consecutive positions of one chain. *)
Theorem backbone_connectivity K records rgroup_df G :
  reachable K (read_pdb records) rgroup_df G →
  (∀ n d pos' aa',
     nodes G !! n = Some (Some d) →
     (pos' = n_residue_number d - 1 ∨ pos' = n_residue_number d + 1)%Z →
     chain_map (compute_chain_pos_aa_mapping (read_pdb records))
       (n_chain_id d) !! pos' = Some aa' →
     n_residue_name d ∈ RESI_NAMES K → aa' ∈ RESI_NAMES K →
     n = make_node_id (n_chain_id d) (n_residue_number d) (n_residue_name d)
     ∧ residue_in (read_pdb records) (n_chain_id d) pos' aa'
     ∧ "backbone" ∈ kinds G n (make_node_id (n_chain_id d) pos' aa'))
  ∧ (∀ n d pos' aa',
       nodes G !! n = Some (Some d) →
       (pos' = n_residue_number d - 1 ∨ pos' = n_residue_number d + 1)%Z →
       residue_in (read_pdb records) (n_chain_id d) pos' aa' →
       (∀ b, residue_in (read_pdb records) (n_chain_id d) pos' b → b = aa') →
       n_residue_name d ∈ RESI_NAMES K → aa' ∈ RESI_NAMES K →
       "backbone" ∈ kinds G n (make_node_id (n_chain_id d) pos' aa'))
  ∧ (∀ u v, "backbone" ∈ kinds G u v →
       adjacent_residues (read_pdb records) u v).
Proof.
  intros Hr.
  destruct (reachable_inv _ _ _ _ (read_pdb_derived records) Hr)
    as (_ & _ & Hnt & _ & Hadj & Hl).
  split_and!.
  - intros n d pos' aa' Hd Hpos Hm Ha Ha'. split_and!.
    + by destruct (Hnt n d Hd).
    + by apply mapping_in_table.
    + apply kinds_has_label. by apply (Hl n d).
  - intros n d pos' aa' Hd Hpos Hres Hu Ha Ha'.
    apply kinds_has_label, (Hl n d); [done..| |done|done].
    by apply mapping_unique.
  - intros u v Hk%kinds_has_label. by apply adjacent_residues_ekey, Hadj.
Qed.

End float64.

#[local] Existing Instance Sample.exact.

Lemma global_edge_invariant_witness :
  let G := Sample.after Hydrophobic Sample.met_phe
             (Sample.backbone_of Sample.met_phe) in
  reachable Sample.tables (read_pdb Sample.met_phe)
    (Sample.rgroup_of Sample.met_phe) G
  ∧ has_edge G "A1MET" "A2PHE" = true
  ∧ kinds G "A1MET" "A2PHE" = {["backbone"; "hydrophobic"]}
  ∧ (∀ n, has_edge G n n = false)
  ∧ (∀ u v, has_edge G u v = true →
       u ≠ v ∧ kinds G u v ≠ ∅ ∧ ∀ l, l ∈ kinds G u v → l ∈ BOND_TYPES).
Proof.
  intros G.
  assert (reachable Sample.tables (read_pdb Sample.met_phe)
            (Sample.rgroup_of Sample.met_phe) G) as Hr.
  { apply reach_detector
      with (G := Sample.backbone_of Sample.met_phe) (func := Hydrophobic).
    - apply reach_backbone. vm_compute. reflexivity.
    - vm_compute. reflexivity. }
  split; [exact Hr|]. split; [vm_compute; reflexivity|].
  split; [vm_compute; reflexivity|].
  destruct (global_edge_invariant Sample.tables Sample.met_phe
              (Sample.rgroup_of Sample.met_phe) G Hr) as (H1 & _ & H3 & _).
  split; [exact H1|exact H3].
Defined.

(** C7, as stated, fails on a table in which a position carries two
    residue types: the mapping keeps one residue type for every position,
    so the alanine at position 1 is joined to the threonine at position 2
    and not to the serine, in the backbone graph and in the graph that
    [compute_interaction_graph] returns. *)
Lemma backbone_connectivity_counterexample :
  backbone_graph Sample.tables (read_pdb Sample.mixed)
    (compute_chain_pos_aa_mapping (read_pdb Sample.mixed))
  = Done (Sample.backbone_of Sample.mixed)
  ∧ compute_interaction_graph Sample.tables (read_pdb Sample.mixed)
      (Sample.rgroup_of Sample.mixed)
      (compute_chain_pos_aa_mapping (read_pdb Sample.mixed))
    = Done (Sample.graph_of Sample.mixed)
  ∧ residue_in (read_pdb Sample.mixed) "A" 1 "ALA"
  ∧ residue_in (read_pdb Sample.mixed) "A" 2 "SER"
  ∧ "ALA" ∈ RESI_NAMES Sample.tables
  ∧ "SER" ∈ RESI_NAMES Sample.tables
  ∧ has_edge (Sample.backbone_of Sample.mixed) "A1ALA" "A2SER" = false
  ∧ has_edge (Sample.graph_of Sample.mixed) "A1ALA" "A2SER" = false
  ∧ ¬ backbone_complete Sample.tables (read_pdb Sample.mixed)
        (Sample.backbone_of Sample.mixed)
  ∧ ¬ backbone_complete Sample.tables (read_pdb Sample.mixed)
        (Sample.graph_of Sample.mixed).
Proof.
  assert (residue_in (read_pdb Sample.mixed) "A" 1 "ALA") as H1.
  { exists (with_node_id (mkRaw "ATOM" "CA" "ALA" "A" 1 0 0 0)).
    split_and!; [|reflexivity..]. vm_compute. repeat constructor. }
  assert (residue_in (read_pdb Sample.mixed) "A" (1 + 1) "SER") as H2.
  { exists (with_node_id (mkRaw "ATOM" "CA" "SER" "A" 2 3 0 0)).
    split_and!; [|reflexivity..]. vm_compute. repeat constructor. }
  assert ("ALA" ∈ RESI_NAMES Sample.tables) as H3
    by (apply (bool_decide_unpack _); vm_compute; exact I).
  assert ("SER" ∈ RESI_NAMES Sample.tables) as H4
    by (apply (bool_decide_unpack _); vm_compute; exact I).
  split_and!; try done; try (vm_compute; reflexivity).
  - intros H. specialize (H "A" 1%Z "ALA" "SER" H1 H2 H3 H4).
    assert (kinds (Sample.backbone_of Sample.mixed) (make_node_id "A" 1 "ALA")
              (make_node_id "A" (1 + 1) "SER") = ∅) as E
      by (vm_compute; reflexivity).
    rewrite E in H. by apply (not_elem_of_empty (C := gset string)) in H.
  - intros H. specialize (H "A" 1%Z "ALA" "SER" H1 H2 H3 H4).
    assert (kinds (Sample.graph_of Sample.mixed) (make_node_id "A" 1 "ALA")
              (make_node_id "A" (1 + 1) "SER") = ∅) as E
      by (vm_compute; reflexivity).
    rewrite E in H. by apply (not_elem_of_empty (C := gset string)) in H.
Qed.

Lemma backbone_connectivity_witness :
  let G := Sample.graph_of Sample.mixed in
  reachable Sample.tables (read_pdb Sample.mixed)
    (Sample.rgroup_of Sample.mixed) G
  ∧ "backbone" ∈ kinds G "A1ALA" (make_node_id "A" 2 "THR")
  ∧ (∀ u v, "backbone" ∈ kinds G u v →
       adjacent_residues (read_pdb Sample.mixed) u v).
Proof.
  intros G.
  assert (reachable Sample.tables (read_pdb Sample.mixed)
            (Sample.rgroup_of Sample.mixed) G) as Hr.
  { apply compute_interaction_graph_reachable. vm_compute. reflexivity. }
  split; [exact Hr|].
  destruct (backbone_connectivity Sample.tables Sample.mixed
              (Sample.rgroup_of Sample.mixed) G Hr) as (H1 & _ & H2).
  split; [|exact H2].
  apply (H1 "A1ALA" (mkNode "A" 1 "ALA" 0 0 0 None) 2%Z "THR").
  - vm_compute. reflexivity.
  - right. reflexivity.
  - vm_compute. reflexivity.
  - apply (bool_decide_unpack _). vm_compute. exact I.
  - apply (bool_decide_unpack _). vm_compute. exact I.
Defined.

End ReachFacts.

(** ** The ionic detector and the charges *)

Module IonicInvariant.
Import Table Geometry Graph Group ResiAtoms Pin Props GraphFacts CommitFacts
  StringFacts TableFacts GeometryFacts BackboneFacts ThresholdFacts CloseFacts
  IonicFacts StepFacts ReachFacts.

Section float64.
Context {F64 : Float64}.

(** C3. After [add_ionic_interactions_] has returned: every edge whose
    labels contain "ionic" joins a residue of the positive set POS_AA and
    a residue of the negative set NEG_AA; for two distinct residues of
    the ionic table with atoms within 6 of each other whose charges are
    not opposite, the label "ionic" is not on the edge, the other labels
    of the edge are as before, and the edge is not in the graph when no
    other label is left; when the charges are opposite the edge carries
    the label. *)
Theorem ionic_invariant K rgroup_df ionic_df G G' :
  normal G →
  filter_dataframe rgroup_df "residue_name" (strs IONIC_RESIS) true
    = Ok ionic_df →
  add_ionic_interactions_ K rgroup_df G = Done G' →
  (∀ u v, "ionic" ∈ kinds G' u v → opposite_charges K G' u v)
  ∧ (∀ u v, close_residues ionic_df 6 u v → ¬ opposite_charges K G' u v →
       ("ionic" ∉ kinds G' u v)
       ∧ kinds G' u v = kinds G u v ∖ {["ionic"]}
       ∧ (kinds G u v ∖ {["ionic"]} = ∅ → has_edge G' u v = false)
       ∧ (kinds G u v ∖ {["ionic"]} ≠ ∅ → has_edge G' u v = true))
  ∧ (∀ u v, close_residues ionic_df 6 u v → opposite_charges K G' u v →
       "ionic" ∈ kinds G' u v).
Proof.
  intros Hn Hf HG.
  destruct (ionic_spec K _ _ _ Hn HG) as (l & _ & Hs & _ & _ & Hpt & Hclose).
  split_and!.
  - intros u v Hi%kinds_has_label. apply is_ionic_ekey.
    by apply (ionic_valid_after K rgroup_df G G' Hn HG).
  - intros u v Hc Hno.
    assert (ekey u v ∈ committed_keys pair_key l) as Hk by eauto.
    assert (is_ionic K G (ekey u v) = false) as E.
    { rewrite (is_ionic_same K G G') by done.
      destruct (is_ionic K G' (ekey u v)) eqn:E; [|done].
      by apply is_ionic_ekey in E. }
    assert (edges G' !! ekey u v = edges G !! ekey u v ≫= strip_edge) as He.
    { rewrite Hpt. unfold ionic_edge. rewrite decide_True by done.
      rewrite strip_invalid_label; [apply strip_edge_label|done|].
      rewrite kind_label_edge. set_solver. }
    assert (kinds G' u v = kinds G u v ∖ {["ionic"]}) as Hkinds.
    { unfold kinds. rewrite He.
      destruct (edges G !! ekey u v) as [d|]; simpl; [|set_solver].
      unfold strip_edge. case_decide as Hemp; [by rewrite Hemp|done]. }
    split_and!; [rewrite Hkinds; set_solver|done| |].
    + intros Hemp. apply has_edge_false. rewrite He.
      unfold kinds in Hemp.
      destruct (edges G !! ekey u v) as [d|]; simpl; [|done].
      unfold strip_edge. by rewrite decide_True.
    + intros Hemp. apply has_edge_true. rewrite He.
      unfold kinds in Hemp.
      destruct (edges G !! ekey u v) as [d|]; simpl; [|set_solver].
      unfold strip_edge. rewrite decide_False by done. eauto.
  - intros u v Hc Hop.
    assert (ekey u v ∈ committed_keys pair_key l) as Hk by eauto.
    assert (is_ionic K G (ekey u v) = true) as E.
    { rewrite (is_ionic_same K G G') by done. by apply is_ionic_ekey. }
    unfold kinds. rewrite Hpt. unfold ionic_edge.
    rewrite decide_True by done. rewrite strip_invalid_valid by done.
    rewrite kind_label_edge. set_solver.
Qed.

End float64.

#[local] Existing Instance Sample.exact.

Lemma ionic_invariant_witness :
  let G := Sample.backbone_of Sample.charged in
  let G' := Sample.after Ionic Sample.charged G in
  normal G
  ∧ add_ionic_interactions_ Sample.tables (Sample.rgroup_of Sample.charged) G
    = Done G'
  ∧ (∀ u v, "ionic" ∈ kinds G' u v → opposite_charges Sample.tables G' u v)
  ∧ "ionic" ∈ kinds G' "A1LYS" "A2ASP"
  ∧ close_residues (Sample.ionic_of Sample.charged) 6 "A1LYS" "A3ARG"
  ∧ has_edge G' "A1LYS" "A3ARG" = false.
Proof.
  intros G G'.
  assert (normal G) as Hn
    by (apply (bool_decide_unpack _); vm_compute; exact I).
  assert (filter_dataframe (Sample.rgroup_of Sample.charged) "residue_name"
            (strs IONIC_RESIS) true = Ok (Sample.ionic_of Sample.charged))
    as Hf by (vm_compute; reflexivity).
  assert (add_ionic_interactions_ Sample.tables
            (Sample.rgroup_of Sample.charged) G = Done G') as HG
    by (vm_compute; reflexivity).
  assert (close_residues (Sample.ionic_of Sample.charged) 6 "A1LYS" "A3ARG")
    as Hc.
  { exists (with_node_id (mkRaw "ATOM" "NZ" "LYS" "A" 1 1 0 0)),
      (with_node_id (mkRaw "ATOM" "NH1" "ARG" "A" 3 7 0 0)).
    split_and!; [vm_compute; repeat constructor..|reflexivity|reflexivity
                 |done|reflexivity]. }
  destruct (ionic_invariant Sample.tables _ _ G G' Hn Hf HG)
    as (H1 & H2 & H3).
  split_and!; [exact Hn|exact HG|exact H1|vm_compute; reflexivity|exact Hc|].
  destruct (H2 "A1LYS" "A3ARG" Hc) as (_ & _ & H & _).
  - intros H%is_ionic_opposite. vm_compute in H. discriminate.
  - apply H. vm_compute. reflexivity.
Defined.

End IonicInvariant.

(** ** The aromatic detector and the ring centroids *)

Module AromaticInvariant.
Import Table Geometry Graph Group ResiAtoms Pin Props GraphFacts CommitFacts
  StringFacts TableFacts GeometryFacts BackboneFacts AromaticFacts IonicFacts
  StepFacts ReachFacts.

Section float64.
Context {F64 : Float64}.









End float64.

#[local] Existing Instance Sample.exact.


End AromaticInvariant.

(** ** Running a detector a second time *)

Module Idempotence.
Import Table Geometry Graph Group ResiAtoms Pin Props GraphFacts CommitFacts
  StringFacts TableFacts GeometryFacts BackboneFacts ThresholdFacts TypedFacts
  AromaticFacts IonicFacts StepFacts ReachFacts.

Section float64.
Context {F64 : Float64}.

Lemma ionic_or_not func : func = Ionic ∨ func ≠ Ionic.
Proof. destruct func; auto. Qed.

Lemma mono_refl (G : Graph.t) :
  ∀ k d, edges G !! k = Some d →
         ∃ d', edges G !! k = Some d' ∧ kind d ⊆ kind d'.
Proof. intros k d Hd. by exists d. Qed.

Lemma commit_within_again df angstroms l G G1 :
  commit_within df angstroms [l] G = Done G1 →
  commit_within df angstroms [l] G1 = Done G1
  ∧ ∃ ks, labelled {[l]} ks G G1.
Proof.
  intros HG.
  destruct (commit_within_labelled _ _ _ _ _ HG) as (ks & L & _).
  rewrite singleton_list_to_set in L. split; [|by exists ks].
  eapply commit_within_fixed; [done|apply L|apply mono_refl].
Qed.

Lemma commit_typed_again df ia first second l G G1 :
  commit_typed df ia first second l G = Done G1 →
  commit_typed df ia first second l G1 = Done G1
  ∧ ∃ ks, labelled {[l]} ks G G1.
Proof.
  intros HG.
  destruct (commit_typed_labelled _ _ _ _ _ _ _ HG) as (ks & L & _).
  split; [|by exists ks].
  eapply commit_typed_fixed; [done|apply L|apply mono_refl].
Qed.

(** A detector other than the ionic one, run on the graph it returned,
    returns this graph. *)
Lemma run_detector_fixed K pdb_df rgroup_df func G G1 :
  derived_ids pdb_df → func ≠ Ionic →
  run_detector K pdb_df rgroup_df func G = Done G1 →
  run_detector K pdb_df rgroup_df func G1 = Done G1
  ∧ ∃ ks, labelled {[label func]} ks G G1.
Proof.
  intros Hder Hf. destruct func; [| | |done| | |]; clear Hf;
    cbn [run_detector label]; intros HG.
  - by apply commit_within_again.
  - by apply commit_within_again.
  - pose proof (hbond_labelled _ _ _ HG) as (ks & L & _).
    split; [|by exists ks]. revert HG.
    unfold add_hydrogen_bond_interactions_.
    destruct (commit_within _ _ _ G) as [Ga|] eqn:H1; [cbn [andthen]|done].
    intros H2.
    destruct (commit_within_labelled _ _ _ _ _ H1) as (ks1 & L1 & _).
    destruct (commit_within_labelled _ _ _ _ _ H2) as (ks2 & L2 & _).
    assert (commit_within
              (filter_dataframe rgroup_df "atom_name" (strs HBOND_ATOMS) true)
              (35 # 10) ["hbond"] G1 = Done G1) as ->.
    { eapply commit_within_fixed; [exact H1|apply L|].
      intros k d Hd. by eapply labelled_mono. }
    cbn [andthen].
    eapply commit_within_fixed; [exact H2|apply L2|apply mono_refl].
  - pose proof (aromatic_labelled K _ _ _ Hder HG) as (ks & L & _).
    split; [|by exists ks].
    eapply aromatic_fixed; [done|done|apply L|apply mono_refl].
  - destruct (aromatic_sulphur_loop _ _ _ HG) as (df & ia & Hl).
    rewrite Hl in HG. rewrite Hl. by apply commit_typed_again.
  - destruct (cation_pi_loop _ _ _ _ HG) as (df & ia & Hl).
    rewrite Hl in HG. rewrite Hl. by apply commit_typed_again.
Qed.

Lemma strip_edge_unlabelled d :
  "ionic" ∉ kind d → kind d ≠ ∅ → strip_edge d = Some d.
Proof.
  intros Hi Hne. unfold strip_edge.
  assert (kind d ∖ {["ionic"]} = kind d) as -> by set_solver.
  rewrite decide_False by done. by destruct d.
Qed.

(** On a graph whose ionic labels are valid, the ionic detector leaves
    an edge as it is or adds its label to it. *)
Lemma ionic_frame K rgroup_df G G1 k :
  normal G → edges_ok G → ionic_valid K G →
  add_ionic_interactions_ K rgroup_df G = Done G1 →
  edges G1 !! k = edges G !! k
  ∨ edges G1 !! k = Some (label_edge {["ionic"]} (edges G !! k)).
Proof.
  intros Hn Hok Hv HG.
  destruct (ionic_spec K _ _ _ Hn HG) as (l & _ & _ & _ & _ & Hpt & _).
  rewrite Hpt. unfold ionic_edge.
  destruct (is_ionic K G k) eqn:E.
  - rewrite strip_invalid_valid by done. case_decide; auto.
  - left.
    assert (edges G !! k ≫= strip_edge = edges G !! k) as Hstrip.
    { destruct (edges G !! k) as [d|] eqn:Hd; [simpl|done].
      destruct (Hok k d Hd) as (_ & Hne & _).
      apply strip_edge_unlabelled; [|done]. intros Hi.
      rewrite Hv in E; [done|]. by exists d. }
    case_decide.
    + rewrite strip_invalid_label;
        [|done|rewrite kind_label_edge; set_solver].
      by rewrite strip_edge_label.
    + destruct (edges G !! k) as [d|] eqn:Hd; [|done].
      apply strip_invalid_no_label. intros Hi.
      rewrite Hv in E; [done|]. by exists d.
Qed.

(** C5. For every detector and every graph the construction goes
    through: the detector, run again on the graph it has returned,
    returns a graph with the same edges carrying the same labels, and
    the same node attributes; and the first run leaves every edge as it
    was, or adds the label of the detector to it (making the edge when it
    did not exist), so that an edge without this label is as before. *)
Theorem detector_idempotent K records rgroup_df func G G1 :
  reachable K (read_pdb records) rgroup_df G →
  run_detector K (read_pdb records) rgroup_df func G = Done G1 →
  (∃ G2, run_detector K (read_pdb records) rgroup_df func G1 = Done G2
         ∧ edges G2 = edges G1 ∧ same_data G1 G2
         ∧ ∀ u v, has_edge G2 u v = has_edge G1 u v
                  ∧ kinds G2 u v = kinds G1 u v)
  ∧ (∀ k, edges G1 !! k = edges G !! k
          ∨ edges G1 !! k = Some (label_edge {[label func]} (edges G !! k)))
  ∧ (∀ u v, label func ∉ kinds G1 u v →
       edges G1 !! ekey u v = edges G !! ekey u v).
Proof.
  intros Hr HG. pose proof (read_pdb_derived records) as Hder.
  destruct (reachable_inv _ _ _ _ Hder Hr) as (Hn & Hok & _ & Hv & _).
  assert (∀ k, edges G1 !! k = edges G !! k
               ∨ edges G1 !! k = Some (label_edge {[label func]} (edges G !! k)))
    as Hframe.
  { intros k. destruct (ionic_or_not func) as [->|Hf].
    - by eapply ionic_frame.
    - destruct (run_detector_fixed _ _ _ _ _ _ Hder Hf HG) as (_ & ks & L).
      by eapply labelled_frame. }
  split_and!; [|done|].
  - assert (∃ G2, run_detector K (read_pdb records) rgroup_df func G1 = Done G2
                  ∧ edges G2 = edges G1 ∧ same_data G1 G2)
      as (G2 & H2 & He & Hs).
    { destruct (ionic_or_not func) as [->|Hf].
      - by apply (ionic_idem K rgroup_df G).
      - destruct (run_detector_fixed _ _ _ _ _ _ Hder Hf HG) as (H2 & _).
        by exists G1. }
    exists G2. split_and!; [done..|].
    intros u v. unfold has_edge, kinds. by rewrite He.
  - intros u v Hl. destruct (Hframe (ekey u v)) as [H|H]; [done|].
    exfalso. apply Hl. unfold kinds. rewrite H, kind_label_edge. set_solver.
Qed.

End float64.

#[local] Existing Instance Sample.exact.

Lemma detector_idempotent_witness :
  let G := Sample.backbone_of Sample.charged in
  let G1 := Sample.after Ionic Sample.charged G in
  reachable Sample.tables (read_pdb Sample.charged)
    (Sample.rgroup_of Sample.charged) G
  ∧ run_detector Sample.tables (read_pdb Sample.charged)
      (Sample.rgroup_of Sample.charged) Ionic G = Done G1
  ∧ kinds G1 "A1LYS" "A2ASP" = {["backbone"; "ionic"]}
  ∧ ∃ G2, run_detector Sample.tables (read_pdb Sample.charged)
            (Sample.rgroup_of Sample.charged) Ionic G1 = Done G2
          ∧ edges G2 = edges G1.
Proof.
  intros G G1.
  assert (reachable Sample.tables (read_pdb Sample.charged)
            (Sample.rgroup_of Sample.charged) G) as Hr
    by (apply reach_backbone; vm_compute; reflexivity).
  assert (run_detector Sample.tables (read_pdb Sample.charged)
            (Sample.rgroup_of Sample.charged) Ionic G = Done G1) as HG
    by (vm_compute; reflexivity).
  split_and!; [exact Hr|exact HG|vm_compute; reflexivity|].
  destruct (detector_idempotent Sample.tables Sample.charged
              (Sample.rgroup_of Sample.charged) Ionic G G1 Hr HG)
    as ((G2 & H2 & He & _) & _).
  exists G2. split; [exact H2|exact He].
Defined.

End Idempotence.

(** * Further properties of the code *)

(** ** Node identifiers *)

Module IdentifierFacts.
Import Table Geometry Graph Group ResiAtoms Pin Props StringFacts BackboneFacts.

Lemma app_inj_prefix (c1 c2 x y : string) :
  String.length c1 = String.length c2 → c1 +:+ x = c2 +:+ y → c1 = c2 ∧ x = y.
Proof.
  revert c2. induction c1 as [|a c1 IH]; intros [|b c2]; try done.
  rewrite !app_cons. intros [= Hlen] [= -> H]. destruct (IH c2 Hlen H) as [-> ->].
  done.
Qed.

(** X1. The node identifier that [read_pdb] derives, chain followed by
    residue number followed by residue name, names one residue when
    the chain identifiers have one length and the residue names have one
    length: two identifiers are then equal only for the same chain, the
    same number and the same name.  Without the condition on the lengths
    two residues can share an identifier.  The identifiers of two
    residues at consecutive positions of a chain always differ. *)
Theorem node_id_injective :
  (∀ c1 p1 a1 c2 p2 a2,
     String.length c1 = String.length c2 →
     String.length a1 = String.length a2 →
     make_node_id c1 p1 a1 = make_node_id c2 p2 a2 →
     c1 = c2 ∧ p1 = p2 ∧ a1 = a2)
  ∧ (∀ r1 r2,
       String.length (raw_chain_id r1) = String.length (raw_chain_id r2) →
       String.length (raw_residue_name r1) = String.length (raw_residue_name r2) →
       node_id (with_node_id r1) = node_id (with_node_id r2) →
       raw_chain_id r1 = raw_chain_id r2
       ∧ raw_residue_number r1 = raw_residue_number r2
       ∧ raw_residue_name r1 = raw_residue_name r2)
  ∧ make_node_id "A" 11 "ALA" = make_node_id "A1" 1 "ALA"
  ∧ (∀ c p a a', make_node_id c p a ≠ make_node_id c (p + 1) a').
Proof.
  assert (∀ c1 p1 a1 c2 p2 a2,
     String.length c1 = String.length c2 →
     String.length a1 = String.length a2 →
     make_node_id c1 p1 a1 = make_node_id c2 p2 a2 →
     c1 = c2 ∧ p1 = p2 ∧ a1 = a2) as H.
  { intros c1 p1 a1 c2 p2 a2 Hc Ha. unfold make_node_id.
    intros [-> H]%app_inj_prefix; [|done].
    apply app_inj_length in H as [Hp ->]; [|done].
    by apply (inj pretty) in Hp as ->. }
  split_and!; [done| |done|apply make_node_id_succ_ne].
  intros r1 r2 Hc Ha. simpl. by apply H.
Qed.

End IdentifierFacts.

(** ** The mapping of chain, position and residue type *)

Module MappingFacts.
Import Table Geometry Graph Group ResiAtoms Pin Props StringFacts BackboneFacts.

#[local] Instance lex_le_trans {A B} (RA : relation A) (RB : relation B)
  `{!PartialOrder RA, !Transitive RB} : Transitive (lex_le RA RB).
Proof.
  intros x y z [[Hxy Rxy]|[Hxy Rxy]] [[Hyz Ryz]|[Hyz Ryz]]; unfold lex_le.
  - left. split; [|by etrans]. intros Heq. rewrite Heq in Rxy.
    apply Hxy. rewrite Heq. by apply (anti_symm RA).
  - left. by rewrite <-Hyz.
  - left. by rewrite Hxy.
  - right. split; [congruence|by etrans].
Qed.

#[local] Instance lex_le_total {A B} `{EqDecision A} (RA : relation A)
  (RB : relation B) `{!Total RA, !Total RB} : Total (lex_le RA RB).
Proof.
  intros x y. unfold lex_le. destruct (decide (x.1 = y.1)) as [He|Hne].
  - destruct (total RB x.2 y.2); [left|right]; right; auto.
  - destruct (total RA x.1 y.1); [left|right]; left; auto.
Qed.

#[local] Instance lex_le_po {A B} (RA : relation A) (RB : relation B)
  `{!PartialOrder RA, !PartialOrder RB} : PartialOrder (lex_le RA RB).
Proof.
  split; [split|].
  - intros x. right. done.
  - apply _.
  - intros [x1 x2] [y1 y2] [[H1 R1]|[H1 R1]] [[H2 R2]|[H2 R2]]; simpl in *.
    + destruct H1. by apply (anti_symm RA).
    + by destruct H1.
    + by destruct H2.
    + f_equal; [done|]. by apply (anti_symm RB).
Qed.

Lemma foldl_ext {A B} (f g : A → B → A) (l : list B) (a : A) :
  (∀ a b, f a b = g a b) → foldl f a l = foldl g a l.
Proof.
  intros H. revert a. induction l as [|b l IH]; intros a; simpl; [done|].
  by rewrite H, IH.
Qed.

Lemma key3_sorted (l : list key3) : StronglySorted key3_le (merge_sort key3_le l).
Proof. unfold key3_le. apply StronglySorted_merge_sort; apply _. Qed.

(** The mapping after the groups [l] have been visited in order. *)
Lemma mapping_fold (l : list key3) chain pos aa :
  StronglySorted key3_le l →
  chain_map
    (foldl (λ (m : gmap string (gmap Z string)) (k : key3),
              <[k.1.1 := <[k.1.2 := k.2]> (default ∅ (m !! k.1.1))]> m) ∅ l)
    chain !! pos = Some aa
  ↔ (chain, pos, aa) ∈ l ∧ ∀ b, (chain, pos, b) ∈ l → (b ≤ aa)%string.
Proof.
  revert aa. induction l as [|[[c p] a] l IH] using rev_ind; intros aa Hs.
  - simpl. unfold chain_map. rewrite lookup_empty. simpl. rewrite lookup_empty.
    split; [done|]. by intros [?%elem_of_nil _].
  - rewrite foldl_snoc. cbn [fst snd].
    apply StronglySorted_app in Hs as (Hle & Hs & _).
    specialize (IH aa Hs). unfold chain_map in *.
    destruct (decide ((chain, pos) = (c, p))) as [[= -> ->]|Hne].
    + rewrite lookup_insert_eq. simpl. rewrite lookup_insert_eq. split.
      * intros [= ->]. split; [apply elem_of_app; right; by constructor|].
        intros b [Hb|Hb%list_elem_of_singleton]%elem_of_app.
        -- specialize (Hle (c, p, b) (c, p, aa) Hb).
           destruct Hle as [[Hn _]|[_ H]]; [by constructor|done|done].
        -- by injection Hb as ->.
      * intros [Hin Hmax]. f_equal. apply (anti_symm String.le).
        -- apply Hmax. apply elem_of_app. right. by constructor.
        -- apply elem_of_app in Hin as [Hin|Hin%list_elem_of_singleton].
           ++ specialize (Hle (c, p, aa) (c, p, a) Hin).
              destruct Hle as [[Hn _]|[_ H]]; [by constructor|done|done].
           ++ by injection Hin as ->.
    + assert (default ∅ (<[c := <[p := a]>
                (default ∅ (foldl (λ (m : gmap string (gmap Z string)) (k : key3),
                   <[k.1.1 := <[k.1.2 := k.2]> (default ∅ (m !! k.1.1))]> m) ∅ l
                   !! c))]>
                (foldl (λ (m : gmap string (gmap Z string)) (k : key3),
                   <[k.1.1 := <[k.1.2 := k.2]> (default ∅ (m !! k.1.1))]> m) ∅ l)
                !! chain) !! pos
              = default ∅ (foldl (λ (m : gmap string (gmap Z string)) (k : key3),
                   <[k.1.1 := <[k.1.2 := k.2]> (default ∅ (m !! k.1.1))]> m) ∅ l
                   !! chain) !! pos) as ->.
      { destruct (decide (chain = c)) as [->|Hc].
        - rewrite lookup_insert_eq. simpl. rewrite lookup_insert_ne; [done|].
          congruence.
        - by rewrite lookup_insert_ne. }
      rewrite IH. 
      assert (∀ b, (chain, pos, b) ∈ l ++ [(c, p, a)] ↔ (chain, pos, b) ∈ l)
        as Hmem.
      { intros b. rewrite elem_of_app, list_elem_of_singleton.
        split; [|auto]. intros [?|?]; [done|congruence]. }
      rewrite Hmem. by setoid_rewrite Hmem.
Qed.

(** X2. [compute_chain_pos_aa_mapping] records a residue type at a
    position of a chain exactly when the table has a residue of that
    type at that position and no residue type of the table at that
    position comes after it in the order of strings: of several residue
    types at one position the mapping keeps the greatest. *)
Theorem mapping_records_greatest df chain pos aa :
  chain_map (compute_chain_pos_aa_mapping df) chain !! pos = Some aa
  ↔ residue_in df chain pos aa
    ∧ ∀ b, residue_in df chain pos b → (b ≤ aa)%string.
Proof.
  unfold compute_chain_pos_aa_mapping, groupby. rewrite foldl_fmap.
  set (keys := merge_sort key3_le _).
  assert (∀ c p a, (c, p, a) ∈ keys ↔ residue_in df c p a) as Hkeys.
  { intros c p a. unfold keys.
    rewrite merge_sort_Permutation, elem_of_remove_dups, list_elem_of_fmap.
    unfold residue_in. split.
    - intros (x & [= -> -> ->] & Hx). by exists x.
    - intros (x & Hx & <- & <- & <-). by exists x. }
  rewrite (foldl_ext _
    (λ (m : gmap string (gmap Z string)) (k : key3),
       <[k.1.1 := <[k.1.2 := k.2]> (default ∅ (m !! k.1.1))]> m))
    by (by intros m [[c p] a]).
  rewrite mapping_fold by apply key3_sorted.
  rewrite Hkeys. by setoid_rewrite Hkeys.
Qed.

End MappingFacts.

(** ** The distance matrix *)

Module DistanceFacts.
Import Table Geometry Graph Group ResiAtoms Pin Props TableFacts GeometryFacts
  CloseFacts.

Section float64.
Context {F64 : Float64}.

Lemma length_squareform_pdist pts : length (squareform_pdist pts) = length pts.
Proof. unfold squareform_pdist. by rewrite length_imap. Qed.

Lemma squareform_pdist_row pts i row :
  squareform_pdist pts !! i = Some row → length row = length pts.
Proof.
  unfold squareform_pdist. rewrite list_lookup_imap.
  destruct (pts !! i); [|done]. intros [= <-]. by rewrite length_imap.
Qed.

(** X3. [compute_distmat] raises on a table without rows.  On a table
    of n rows it returns n rows of n distances: zero on the diagonal,
    off the diagonal the distance [pdist] computes for the two rows,
    the same at (i, j) and at (j, i). *)
Theorem compute_distmat_square {A} (xyz : A → coords) (df : DataFrame A) :
  (df = [] → compute_distmat xyz df = Raise ValueError)
  ∧ (df ≠ [] →
     ∃ m, compute_distmat xyz df = Ok m
          ∧ length m = length df
          ∧ (∀ i row, m !! i = Some row → length row = length df)
          ∧ (∀ i j a b, rows df !! i = Some a → rows df !! j = Some b →
               ∃ ri rj d,
                 m !! i = Some ri ∧ ri !! j = Some d
                 ∧ m !! j = Some rj ∧ rj !! i = Some d
                 ∧ (i = j → d = Sqrt 0)
                 ∧ (i ≠ j →
                    ∀ t, surd_le d t = surd_le (pdist (xyz a) (xyz b)) t))).
Proof.
  split; [by intros ->|]. intros Hne. unfold compute_distmat.
  destruct df as [|r df]; [done|]. eexists. split; [done|].
  set (d := r :: df). set (pts := xyz <$> rows d).
  assert (length pts = length d) as Hlen
    by (unfold pts, rows; by rewrite !length_fmap).
  split_and!.
  - by rewrite length_squareform_pdist.
  - intros i row Hrow%squareform_pdist_row. congruence.
  - intros i j a b Ha Hb.
    assert (pts !! i = Some (xyz a)) as Hi
      by (unfold pts; by rewrite list_lookup_fmap, Ha).
    assert (pts !! j = Some (xyz b)) as Hj
      by (unfold pts; by rewrite list_lookup_fmap, Hb).
    destruct (squareform_pdist_entry pts i j _ _ Hi Hj) as (ri & Hri & Hd).
    destruct (squareform_pdist_entry pts j i _ _ Hj Hi) as (rj & Hrj & Hd').
    exists ri, rj. eexists. split_and!; [done|done|done| | |].
    + rewrite Hd'. f_equal. repeat case_bool_decide; try done; lia.
    + intros ->. by rewrite bool_decide_true.
    + intros Hij t. rewrite bool_decide_false by done.
      destruct (bool_decide (i < j)); [done|apply surd_le_sym].
Qed.

Lemma sq_nonneg t : Qle_bool 0 (sq t) = true.
Proof.
  apply Qle_bool_iff. unfold Qle, sq. simpl. rewrite Z.mul_1_r.
  apply Z.square_nonneg.
Qed.

Lemma surd_le_zero t : surd_le (Sqrt 0) t = Qle_bool 0 t.
Proof. unfold surd_le. cbn [radicand]. by rewrite sq_nonneg, andb_true_r. Qed.

Lemma surd_le_nonneg d t : surd_le d t = true → Qle_bool 0 t = true.
Proof. unfold surd_le. by intros [? _]%andb_true_iff. Qed.

(** The positions [get_interacting_atoms_] selects. *)
Lemma hits_within (pts : list coords) t i j :
  (i, j) ∈ hits (λ d, surd_le d t) (squareform_pdist pts) ↔
  ∃ p q, pts !! i = Some p ∧ pts !! j = Some q
         ∧ ((i = j ∧ Qle_bool 0 t = true)
            ∨ (i ≠ j ∧ surd_le (pdist p q) t = true)).
Proof.
  rewrite hits_spec. split.
  - intros (row & d & Hrow & Hd & Hc).
    destruct (squareform_pdist_lookup _ _ _ _ _ Hrow Hd) as (p & q & Hp & Hq & ->).
    exists p, q. split_and!; [done..|].
    case_bool_decide as Hij; [left; by rewrite <-surd_le_zero|right].
    split; [done|]. case_bool_decide; [done|]. by rewrite surd_le_sym.
  - intros (p & q & Hp & Hq & Hc).
    destruct (squareform_pdist_entry pts i j p q Hp Hq) as (row & Hrow & Hd).
    exists row. eexists. split_and!; [done..|]. cbn beta.
    destruct Hc as [[Hij H0]|[Hij Hc]].
    + rewrite bool_decide_true by done. by rewrite surd_le_zero.
    + rewrite bool_decide_false by done.
      destruct (bool_decide (i < j)); [done|]. by rewrite surd_le_sym.
Qed.

(** X4. On the matrix of [compute_distmat], [get_interacting_atoms_]
    returns two arrays of one length that list the positions (i, j) of
    the table whose entry is at most the threshold: the positions of
    two different rows whose distance, as [pdist] computes it, is at
    most the threshold, and, for a threshold that is not negative,
    every position paired with itself; (j, i) is listed whenever (i, j)
    is, and nothing is listed for a negative threshold. *)
Theorem interacting_atoms_spec (df : DataFrame Atom) (angstroms : Q) m :
  compute_distmat atom_xyz df = Ok m →
  let interacting_atoms := get_interacting_atoms_ angstroms m in
  length interacting_atoms.1 = length interacting_atoms.2
  ∧ (∀ i j, (i, j) ∈ zip interacting_atoms.1 interacting_atoms.2 ↔
       ∃ a b, rows df !! i = Some a ∧ rows df !! j = Some b
              ∧ ((i = j ∧ (0 <= angstroms)%Q)
                 ∨ (i ≠ j
                    ∧ surd_le (pdist (atom_xyz a) (atom_xyz b)) angstroms
                      = true)))
  ∧ ((0 <= angstroms)%Q →
     ∀ i, i < length df → (i, i) ∈ zip interacting_atoms.1 interacting_atoms.2)
  ∧ (∀ i j, (i, j) ∈ zip interacting_atoms.1 interacting_atoms.2 →
       (j, i) ∈ zip interacting_atoms.1 interacting_atoms.2)
  ∧ (¬ (0 <= angstroms)%Q →
     zip interacting_atoms.1 interacting_atoms.2 = []).
Proof.
  intros [-> Hne]%compute_distmat_Ok. cbv zeta.
  unfold get_interacting_atoms_. rewrite zip_np_where. unfold np_where.
  cbn [fst snd].
  assert (∀ i j, (i, j) ∈ hits (λ d, surd_le d angstroms)
                   (squareform_pdist (atom_xyz <$> rows df)) ↔
       ∃ a b, rows df !! i = Some a ∧ rows df !! j = Some b
              ∧ ((i = j ∧ (0 <= angstroms)%Q)
                 ∨ (i ≠ j
                    ∧ surd_le (pdist (atom_xyz a) (atom_xyz b)) angstroms
                      = true))) as Hspec.
  { intros i j. rewrite hits_within. setoid_rewrite Qle_bool_iff. split.
    - intros (p & q & Hp & Hq & Hc). rewrite list_lookup_fmap in Hp, Hq.
      destruct (rows df !! i) as [a|]; [|done].
      destruct (rows df !! j) as [b|]; [|done].
      injection Hp as <-. injection Hq as <-. by exists a, b.
    - intros (a & b & Ha & Hb & Hc). exists (atom_xyz a), (atom_xyz b).
      by rewrite !list_lookup_fmap, Ha, Hb. }
  split_and!.
  - by rewrite !length_fmap.
  - done.
  - intros H0 i Hi. apply Hspec.
    destruct (lookup_lt_is_Some_2 (rows df) i) as [a Ha];
      [unfold rows; by rewrite length_fmap|].
    exists a, a. auto.
  - intros i j (a & b & Ha & Hb & Hc)%Hspec. apply Hspec.
    exists b, a. split_and!; [done..|].
    destruct Hc as [[-> H0]|[Hij Hc]]; [auto|]. right.
    split; [done|]. by rewrite surd_le_sym.
  - intros Hneg. apply elem_of_nil_inv.
    intros [i j] (a & b & _ & _ & [[_ H0]|[_ Hc]])%Hspec; [done|].
    by apply surd_le_nonneg, Qle_bool_iff in Hc.
Qed.

(** The residues paired by [get_interacting_atoms_] are the residues
    with atoms within the threshold. *)
Lemma paired_close (df : DataFrame Atom) t u v :
  u ≠ v
  ∧ residues_paired
      (get_interacting_atoms_ t (squareform_pdist (atom_xyz <$> rows df)))
      df u v
  ↔ close_residues df t u v.
Proof.
  unfold residues_paired, close_residues, get_interacting_atoms_, np_where.
  cbn [fst snd]. split.
  - intros (Hne & n & i & j & a & b & Hi & Hj & Ha & Hb & Hu & Hv).
    assert ((i, j) ∈ hits (λ d, surd_le d t)
              (squareform_pdist (atom_xyz <$> rows df))) as Hh.
    { apply list_elem_of_lookup. exists n. rewrite !list_lookup_fmap in Hi, Hj.
      destruct (hits _ _ !! n) as [[i' j']|]; simplify_eq/=. done. }
    apply hits_within in Hh as (p & q & Hp & Hq & Hc).
    rewrite list_lookup_fmap in Hp, Hq. rewrite Ha in Hp. rewrite Hb in Hq.
    simplify_eq/=.
    exists a, b. split_and!; try done; try by eapply list_elem_of_lookup_2.
    destruct Hc as [[-> _]|[_ Hc]]; [|done]. congruence.
  - intros (a & b & [i Hi]%list_elem_of_lookup & [j Hj]%list_elem_of_lookup
            & Hu & Hv & Hne & Hle). split; [done|].
    assert ((i, j) ∈ hits (λ d, surd_le d t)
              (squareform_pdist (atom_xyz <$> rows df))) as Hh.
    { apply hits_within. exists (atom_xyz a), (atom_xyz b).
      rewrite !list_lookup_fmap, Hi, Hj. split_and!; [done..|]. right.
      split; [|done]. intros ->. congruence. }
    apply list_elem_of_lookup in Hh as [n Hn].
    exists n, i, j, a, b. rewrite !list_lookup_fmap, Hn. done.
Qed.

End float64.

#[local] Existing Instance Sample.exact.

Lemma interacting_atoms_spec_witness :
  let df := read_pdb Sample.met_phe in
  let m := squareform_pdist (atom_xyz <$> rows df) in
  compute_distmat atom_xyz df = Ok m
  ∧ length (get_interacting_atoms_ 5 m).1 = length (get_interacting_atoms_ 5 m).2
  ∧ (∀ i j, (i, j) ∈ zip (get_interacting_atoms_ 5 m).1
                       (get_interacting_atoms_ 5 m).2 →
       (j, i) ∈ zip (get_interacting_atoms_ 5 m).1
                    (get_interacting_atoms_ 5 m).2).
Proof.
  intros df m.
  assert (compute_distmat atom_xyz df = Ok m) as Hm by reflexivity.
  destruct (interacting_atoms_spec df 5 m Hm) as (H1 & _ & _ & H4 & _).
  split_and!; [exact Hm|exact H1|exact H4].
Defined.

End DistanceFacts.

(** ** Committing residue pairs *)

Module PairFacts.
Import Table Geometry Graph Group ResiAtoms Pin Props GraphFacts CommitFacts
  TableFacts GeometryFacts ThresholdFacts CloseFacts AromaticFacts IonicFacts
  ReachFacts DistanceFacts.

Section float64.
Context {F64 : Float64}.

Lemma collect_total {A B} (f : A → result B) (l : list A) :
  (∀ x, x ∈ l → ∃ b, f x = Ok b) → ∃ bs, collect f l = Ok bs.
Proof.
  induction l as [|a l IH]; intros H; simpl; [eauto|].
  destruct (H a) as [b ->]; [by constructor|]. rsimpl.
  destruct IH as [bs ->]; [|rsimpl; eauto].
  intros x Hx. apply H. by constructor.
Qed.

Lemma collect_lookup {A B} (f : A → result B) l bs n b :
  collect f l = Ok bs →
  bs !! n = Some b ↔ ∃ a, l !! n = Some a ∧ f a = Ok b.
Proof.
  intros [Hlen H]%collect_inv. split.
  - intros Hb. destruct (lookup_lt_is_Some_2 l n) as [a Ha].
    { rewrite <-Hlen. by eapply lookup_lt_Some. }
    exists a. split; [done|]. destruct (H n a Ha) as (b' & Hb' & ?). congruence.
  - intros (a & Ha & Hf). destruct (H n a Ha) as (b' & Hb' & ?). congruence.
Qed.

Lemma committed_pair l u v :
  ekey u v ∈ committed_keys pair_key l ↔ u ≠ v ∧ ((u, v) ∈ l ∨ (v, u) ∈ l).
Proof.
  unfold committed_keys. rewrite list_elem_of_fmap. split.
  - intros ([a b] & Hk & Hp).
    apply list_elem_of_omap in Hp as ([a' b'] & Hp & Hkey).
    unfold pair_key in Hkey. simpl in Hkey. case_bool_decide as Hne; [|done].
    injection Hkey as -> ->. simpl in Hk.
    apply ekey_inj in Hk as [[-> ->]|[-> ->]]; split; auto.
  - intros [Hne [H|H]].
    + exists (u, v). split; [done|]. apply list_elem_of_omap. exists (u, v).
      split; [done|]. unfold pair_key. simpl. by rewrite bool_decide_true.
    + exists (v, u). split; [apply ekey_comm|]. apply list_elem_of_omap.
      exists (v, u). split; [done|]. unfold pair_key. simpl.
      by rewrite bool_decide_true.
Qed.

Lemma loc_node_id (dataframe : DataFrame Atom) i :
  dataframe = range_index (rows dataframe) →
  node_id <$> loc dataframe i =
    match rows dataframe !! i with
    | Some a => Ok (node_id a)
    | None => Raise KeyError
    end.
Proof.
  intros Hrange. rewrite Hrange, loc_range_index, rows_range_index.
  by destruct (rows dataframe !! i).
Qed.

(** What [add_interacting_resis_] has done when it returns. *)
Lemma interacting_resis_effect interacting_atoms dataframe kind G G' :
  dataframe = range_index (rows dataframe) →
  add_interacting_resis_ interacting_atoms dataframe kind G = Done G' →
  same_data G G'
  ∧ ∀ u v,
      (u ≠ v
       ∧ (residues_paired interacting_atoms dataframe u v
          ∨ residues_paired interacting_atoms dataframe v u) →
       has_edge G' u v = true
       ∧ kinds G' u v = list_to_set kind ∪ kinds G u v)
      ∧ (¬ (u ≠ v
            ∧ (residues_paired interacting_atoms dataframe u v
               ∨ residues_paired interacting_atoms dataframe v u)) →
         edges G' !! ekey u v = edges G !! ekey u v).
Proof.
  intros Hrange. unfold add_interacting_resis_, eval.
  destruct (forallb _ kind); [|done].
  destruct (collect _ interacting_atoms.1) as [resi1|] eqn:E1; [|done].
  destruct (collect _ interacting_atoms.2) as [resi2|] eqn:E2; [|done].
  cbv zeta. intros HG.
  apply (commit_loop_labelled pair_key kind _ (commit_pair_Done kind)) in HG
    as [Hs He]. split; [done|].
  assert (∀ u v, (u, v) ∈ remove_dups (zip resi1 resi2)
                 ↔ residues_paired interacting_atoms dataframe u v) as Hmem.
  { intros u v. rewrite elem_of_remove_dups, list_elem_of_lookup.
    unfold residues_paired. split.
    - intros (n & Hn).
      apply lookup_zip_with_Some in Hn as (x & y & [= <- <-] & Hx & Hy).
      apply (collect_lookup _ _ _ _ _ E1) in Hx as (i & Hi & Hfi).
      apply (collect_lookup _ _ _ _ _ E2) in Hy as (j & Hj & Hfj).
      rewrite loc_node_id in Hfi, Hfj by done.
      destruct (rows dataframe !! i) as [a|] eqn:Ha; [|done].
      destruct (rows dataframe !! j) as [b|] eqn:Hb; [|done].
      injection Hfi as <-. injection Hfj as <-.
      by exists n, i, j, a, b.
    - intros (n & i & j & a & b & Hi & Hj & Ha & Hb & <- & <-).
      exists n. apply lookup_zip_with_Some. exists (node_id a), (node_id b).
      split_and!; [done| |].
      + apply (collect_lookup _ _ _ _ _ E1). exists i. split; [done|].
        by rewrite loc_node_id, Ha.
      + apply (collect_lookup _ _ _ _ _ E2). exists j. split; [done|].
        by rewrite loc_node_id, Hb. }
  intros u v.
  assert (ekey u v ∈ committed_keys pair_key (remove_dups (zip resi1 resi2))
          ↔ u ≠ v ∧ (residues_paired interacting_atoms dataframe u v
                     ∨ residues_paired interacting_atoms dataframe v u)) as Hk.
  { rewrite committed_pair. by rewrite !Hmem. }
  split.
  - intros Hp%Hk. unfold has_edge, kinds. rewrite He, decide_True by done.
    split; [by apply bool_decide_eq_true_2|].
    rewrite kind_label_edge. by destruct (edges G !! ekey u v).
  - intros Hp. rewrite He, decide_False; [done|]. by rewrite Hk.
Qed.

(** X5. On a table labelled 0, 1, ..., [add_interacting_resis_] raises
    an AssertionError, with the graph as it was, when a label of [kind]
    is not in BOND_TYPES.  When the labels are in BOND_TYPES and the
    positions of the two arrays are rows of the table, it returns: the
    node attributes are as before; for two distinct residues that the
    arrays pair, in either order, the edge exists and has the labels of
    [kind] besides those it had; every other edge is as it was. *)
Theorem add_interacting_resis_spec interacting_atoms dataframe kind G :
  dataframe = range_index (rows dataframe) →
  ((∃ k, k ∈ kind ∧ k ∉ BOND_TYPES) →
     add_interacting_resis_ interacting_atoms dataframe kind G
     = Raised AssertionError G)
  ∧ ((∀ k, k ∈ kind → k ∈ BOND_TYPES) →
     (∀ i, i ∈ interacting_atoms.1 ∨ i ∈ interacting_atoms.2 →
           i < length dataframe) →
     ∃ G', add_interacting_resis_ interacting_atoms dataframe kind G = Done G'
       ∧ same_data G G'
       ∧ ∀ u v,
           (u ≠ v
            ∧ (residues_paired interacting_atoms dataframe u v
               ∨ residues_paired interacting_atoms dataframe v u) →
            has_edge G' u v = true
            ∧ kinds G' u v = list_to_set kind ∪ kinds G u v)
           ∧ (¬ (u ≠ v
                 ∧ (residues_paired interacting_atoms dataframe u v
                    ∨ residues_paired interacting_atoms dataframe v u)) →
              edges G' !! ekey u v = edges G !! ekey u v)).
Proof.
  intros Hrange.
  assert (length (rows dataframe) = length dataframe) as Hlen
    by (unfold rows; by rewrite length_fmap).
  split_and!.
  - intros (k & Hk & Hno). unfold add_interacting_resis_.
    assert (forallb (λ k, bool_decide (k ∈ BOND_TYPES)) kind = false) as ->;
      [|done].
    apply not_true_is_false. intros Hall. rewrite forallb_forall in Hall.
    apply Hno. eapply bool_decide_eq_true_1, Hall. by apply list_elem_of_In.
  - intros Hall Hin.
    assert (∃ G', add_interacting_resis_ interacting_atoms dataframe kind G
                  = Done G') as [G' HG].
    { unfold add_interacting_resis_.
      assert (forallb (λ k, bool_decide (k ∈ BOND_TYPES)) kind = true) as ->.
      { apply forallb_forall. intros k Hk%list_elem_of_In.
        by apply bool_decide_eq_true_2, Hall. }
      assert (∀ l, (∀ i, i ∈ l → i < length dataframe) →
                ∃ bs, collect (λ i, node_id <$> loc dataframe i) l = Ok bs)
        as Hcol.
      { intros l Hl. apply collect_total. intros i Hi%Hl.
        rewrite loc_node_id by done.
        destruct (lookup_lt_is_Some_2 (rows dataframe) i) as [a ->];
          [lia|eauto]. }
      destruct (Hcol interacting_atoms.1) as [resi1 E1]; [auto|].
      destruct (Hcol interacting_atoms.2) as [resi2 E2]; [auto|].
      rewrite E1, E2. unfold eval. cbv zeta. apply commit_pairs_total. }
    exists G'. split; [done|]. by apply interacting_resis_effect.
Qed.

(** What a threshold detector has done when it returns. *)
Lemma commit_within_effect df angstroms kind G G' :
  df = range_index (rows df) →
  commit_within (Ok df) angstroms kind G = Done G' →
  same_data G G'
  ∧ ∀ u v,
      (close_residues df angstroms u v →
       has_edge G' u v = true
       ∧ kinds G' u v = list_to_set kind ∪ kinds G u v)
      ∧ (¬ close_residues df angstroms u v →
         edges G' !! ekey u v = edges G !! ekey u v).
Proof.
  intros Hrange. unfold commit_within, eval.
  destruct (compute_distmat atom_xyz df) as [m|] eqn:Hm; [|done].
  apply compute_distmat_Ok in Hm as [-> _]. intros HG.
  apply interacting_resis_effect in HG as [Hs H]; [|done]. split; [done|].
  intros u v. destruct (H u v) as [H1 H2]. split.
  - intros Hc. apply H1. pose proof Hc as [Hne Hp]%paired_close. auto.
  - intros Hc. apply H2. intros [Hne [Hp|Hp]]; apply Hc.
    + by apply paired_close.
    + apply close_residues_sym. by apply paired_close.
Qed.

Lemma close_filtered (df out : DataFrame Atom) (P : Atom → Prop)
    `{!∀ a, Decision (P a)} t u v :
  rows out = filter P (rows df) →
  close_residues out t u v ↔ atoms_within df P t u v.
Proof.
  intros Hrows. unfold close_residues, atoms_within. rewrite Hrows. split.
  - intros (a & b & [Pa Ha]%list_elem_of_filter & [Pb Hb]%list_elem_of_filter
            & ? & ? & ? & ?).
    exists a, b. by split_and!.
  - intros (a & b & Ha & Hb & Pa & Pb & ? & ? & ? & ?). exists a, b.
    split_and!; [by apply list_elem_of_filter..|done|done|done|done].
Qed.

Lemma commit_within_empty angstroms kind G :
  commit_within (Ok []) angstroms kind G = Raised ValueError G.
Proof. done. Qed.

End float64.

Lemma add_interacting_resis_spec_witness :
  let df := Sample.rgroup_of Sample.met_phe in
  let G := Sample.backbone_of Sample.met_phe in
  df = range_index (rows df)
  ∧ ∃ G', add_interacting_resis_ ([0; 1], [1; 0]) df ["hydrophobic"] G = Done G'
          ∧ same_data G G'
          ∧ kinds G' "A1MET" "A2PHE"
            = list_to_set ["hydrophobic"] ∪ kinds G "A1MET" "A2PHE".
Proof.
  intros df G.
  assert (df = range_index (rows df)) as Hr by (vm_compute; reflexivity).
  split; [exact Hr|].
  destruct (add_interacting_resis_spec ([0; 1], [1; 0]) df ["hydrophobic"] G Hr)
    as (_ & H).
  destruct H as (G' & HG & Hs & HE).
  - intros k Hk. apply list_elem_of_singleton in Hk. subst k.
    apply (bool_decide_unpack _). vm_compute. exact I.
  - intros i Hi. cbn [fst snd] in Hi.
    assert (i = 0 ∨ i = 1) as [-> | ->].
    { destruct Hi as [Hi|Hi];
        repeat (apply elem_of_cons in Hi as [->|Hi]; [auto|]);
        by apply elem_of_nil in Hi. }
    + vm_compute. lia.
    + vm_compute. lia.
  - exists G'. split; [exact HG|]. split; [exact Hs|].
    apply (HE "A1MET" "A2PHE"). split; [done|]. left.
    exists 0, 0, 1, (mkAtom "ATOM" "SD" "MET" "A" 1 1 0 0 "A1MET"),
      (mkAtom "ATOM" "CZ" "PHE" "A" 2 4 0 0 "A2PHE").
    split_and!; reflexivity.
Defined.

End PairFacts.

(** ** The hydrophobic, disulfide and hydrogen-bond detectors *)

Module ThresholdDetectors.
Import Table Geometry Graph Group ResiAtoms Pin Props GraphFacts CommitFacts
  TableFacts GeometryFacts ThresholdFacts CloseFacts AromaticFacts IonicFacts
  StepFacts ReachFacts DistanceFacts PairFacts.

Section float64.
Context {F64 : Float64}.

Lemma filter_dataframe_names df col l out :
  filter_dataframe df col (strs l) true = Ok out →
  out = range_index (rows out)
  ∧ ((col = "residue_name" →
      rows out = filter (λ a, residue_name a ∈ l) (rows df))
     ∧ (col = "atom_name" →
        rows out = filter (λ a, atom_name a ∈ l) (rows df))).
Proof.
  intros Hf. split; [by eapply filter_dataframe_range|]. split; intros ->.
  - by apply filter_dataframe_residue_name.
  - by apply filter_dataframe_atom_name.
Qed.

Lemma filter_dataframe_Ok df col l :
  col = "residue_name" ∨ col = "atom_name" →
  ∃ out, filter_dataframe df col (strs l) true = Ok out.
Proof. intros [-> | ->]; unfold filter_dataframe; cbn; eauto. Qed.

(** A threshold detector returns normally on a table with a row. *)
Lemma commit_within_total df angstroms kind G :
  df = range_index (rows df) → df ≠ [] →
  (∀ k, k ∈ kind → k ∈ BOND_TYPES) →
  ∃ G', commit_within (Ok df) angstroms kind G = Done G'.
Proof.
  intros Hrange Hne Hall. unfold commit_within, eval.
  destruct df as [|r df]; [done|]. cbn [compute_distmat].
  set (d := r :: df) in *. unfold add_interacting_resis_.
  assert (forallb (λ k, bool_decide (k ∈ BOND_TYPES)) kind = true) as ->.
  { apply forallb_forall. intros k Hk%list_elem_of_In.
    by apply bool_decide_eq_true_2, Hall. }
  assert (∀ l : list nat,
            (∀ i, i ∈ l → i < length (rows d)) →
            ∃ bs, collect (λ i, node_id <$> loc d i) l = Ok bs) as Hcol.
  { intros l Hl. apply collect_total. intros i Hi%Hl.
    rewrite loc_node_id by done.
    destruct (lookup_lt_is_Some_2 (rows d) i) as [a ->]; [lia|eauto]. }
  assert (∀ i j, (i, j) ∈ hits (λ d0, surd_le d0 angstroms)
                   (squareform_pdist (atom_xyz <$> rows d)) →
                 i < length (rows d) ∧ j < length (rows d)) as Hin.
  { intros i j (p & q & Hp & Hq & _)%hits_within.
    apply lookup_lt_Some in Hp, Hq. by rewrite length_fmap in Hp, Hq. }
  unfold get_interacting_atoms_, np_where. cbn [fst snd].
  destruct (Hcol (hits (λ d0, surd_le d0 angstroms)
                    (squareform_pdist (atom_xyz <$> rows d))).*1) as [r1 ->].
  { intros i ([i' j] & -> & H)%list_elem_of_fmap. by apply Hin in H as [? _]. }
  destruct (Hcol (hits (λ d0, surd_le d0 angstroms)
                    (squareform_pdist (atom_xyz <$> rows d))).*2) as [r2 ->].
  { intros j ([i j'] & -> & H)%list_elem_of_fmap. by apply Hin in H as [_ ?]. }
  unfold eval. cbv zeta. apply commit_pairs_total.
Qed.

Lemma rows_nil {A} (df : DataFrame A) : rows df = [] ↔ df = [].
Proof. unfold rows. split; [apply fmap_nil_inv|by intros ->]. Qed.

Lemma filter_nil_iff {A} (P : A → Prop) `{!∀ a, Decision (P a)} (l : list A) :
  filter P l = [] ↔ ∀ a, a ∈ l → ¬ P a.
Proof.
  split.
  - intros Hnil a Ha Pa.
    assert (a ∈ filter P l) as Hin by (by apply list_elem_of_filter).
    rewrite Hnil in Hin. by apply elem_of_nil in Hin.
  - intros Hno. destruct (filter P l) as [|a l'] eqn:E; [done|].
    assert (a ∈ filter P l) as [Pa Ha]%list_elem_of_filter
      by (rewrite E; by constructor).
    by destruct (Hno a Ha).
Qed.

Lemma hydrophobic_in_vocabulary k : k ∈ ["hydrophobic"] → k ∈ BOND_TYPES.
Proof.
  intros ->%list_elem_of_singleton. apply (bool_decide_unpack _). by vm_compute.
Qed.

Lemma disulfide_in_vocabulary k : k ∈ ["disulfide"] → k ∈ BOND_TYPES.
Proof.
  intros ->%list_elem_of_singleton. apply (bool_decide_unpack _). by vm_compute.
Qed.

Lemma hbond_in_vocabulary k : k ∈ ["hbond"] → k ∈ BOND_TYPES.
Proof.
  intros ->%list_elem_of_singleton. apply (bool_decide_unpack _). by vm_compute.
Qed.

(** X6. When [add_hydrophobic_interactions_] returns, the node
    attributes are as before; two distinct residues of hydrophobic type
    with side-chain atoms within 5 of each other are joined by an edge
    whose labels are "hydrophobic" and those it had; every other edge is
    as it was. *)
Theorem hydrophobic_spec rgroup_df G G' :
  add_hydrophobic_interactions_ rgroup_df G = Done G' →
  same_data G G'
  ∧ ∀ u v,
      (atoms_within rgroup_df (λ a, residue_name a ∈ HYDROPHOBIC_RESIS) 5 u v →
       has_edge G' u v = true
       ∧ kinds G' u v = {["hydrophobic"]} ∪ kinds G u v)
      ∧ (¬ atoms_within rgroup_df (λ a, residue_name a ∈ HYDROPHOBIC_RESIS)
             5 u v →
         edges G' !! ekey u v = edges G !! ekey u v).
Proof.
  unfold add_hydrophobic_interactions_.
  destruct (filter_dataframe _ _ _ _) as [out|] eqn:Hf; [|done].
  apply filter_dataframe_names in Hf as (Hrange & Hrows & _).
  specialize (Hrows eq_refl). intros HG.
  apply commit_within_effect in HG as [Hs H]; [|done]. split; [done|].
  intros u v. rewrite <-(close_filtered rgroup_df out) by done.
  rewrite <-singleton_list_to_set. apply H.
Qed.

(** X7. When [add_disulfide_interactions_] returns, the node
    attributes are as before; two distinct residues of the disulfide
    residue type with disulfide atoms within 2.2 of each other are
    joined by an edge whose labels are "disulfide" and those it had;
    every other edge is as it was. *)
Theorem disulfide_spec K rgroup_df G G' :
  add_disulfide_interactions_ K rgroup_df G = Done G' →
  same_data G G'
  ∧ ∀ u v,
      (atoms_within rgroup_df
         (λ a, atom_name a ∈ DISULFIDE_ATOMS K
               ∧ residue_name a ∈ DISULFIDE_RESIS) float_2_2 u v →
       has_edge G' u v = true
       ∧ kinds G' u v = {["disulfide"]} ∪ kinds G u v)
      ∧ (¬ atoms_within rgroup_df
             (λ a, atom_name a ∈ DISULFIDE_ATOMS K
                   ∧ residue_name a ∈ DISULFIDE_RESIS) float_2_2 u v →
         edges G' !! ekey u v = edges G !! ekey u v).
Proof.
  unfold add_disulfide_interactions_.
  destruct (filter_dataframe rgroup_df _ _ _) as [d1|] eqn:Hf1; [rsimpl|done].
  destruct (filter_dataframe d1 _ _ _) as [out|] eqn:Hf2; [|done].
  apply filter_dataframe_names in Hf1 as (_ & Hrows1 & _).
  apply filter_dataframe_names in Hf2 as (Hrange & _ & Hrows2).
  specialize (Hrows1 eq_refl). specialize (Hrows2 eq_refl).
  rewrite Hrows1, list_filter_filter in Hrows2. intros HG.
  apply commit_within_effect in HG as [Hs H]; [|done]. split; [done|].
  intros u v. rewrite <-(close_filtered rgroup_df out) by done.
  rewrite <-singleton_list_to_set. apply H.
Qed.

Lemma frame_kinds L ks G G' u v :
  labelled L ks G G' →
  (kinds G' u v = kinds G u v ∧ has_edge G' u v = has_edge G u v)
  ∨ (kinds G' u v = L ∪ kinds G u v ∧ has_edge G' u v = true).
Proof.
  intros HL. unfold kinds, has_edge.
  destruct (labelled_frame _ _ _ _ (ekey u v) HL) as [-> | ->]; [by left|].
  right. rewrite kind_label_edge. split; [|by apply bool_decide_eq_true_2].
  by destruct (edges G !! ekey u v).
Qed.

(** X8. When [add_hydrogen_bond_interactions_] returns, the node
    attributes are as before; two distinct residues are joined by an
    edge whose labels are "hbond" and those it had when they have
    side-chain atoms with hydrogen-bonding names within 3.5, or
    side-chain sulphur atoms SD or SG within 4, of each other; every
    other edge is as it was. *)
Theorem hydrogen_bond_spec rgroup_df G G' :
  add_hydrogen_bond_interactions_ rgroup_df G = Done G' →
  same_data G G'
  ∧ ∀ u v,
      (atoms_within rgroup_df (λ a, atom_name a ∈ HBOND_ATOMS) (35 # 10) u v
       ∨ atoms_within rgroup_df (λ a, atom_name a ∈ HBOND_ATOMS_SULPHUR) 4 u v →
       has_edge G' u v = true
       ∧ kinds G' u v = {["hbond"]} ∪ kinds G u v)
      ∧ (¬ (atoms_within rgroup_df (λ a, atom_name a ∈ HBOND_ATOMS)
              (35 # 10) u v
            ∨ atoms_within rgroup_df (λ a, atom_name a ∈ HBOND_ATOMS_SULPHUR)
                4 u v) →
         edges G' !! ekey u v = edges G !! ekey u v).
Proof.
  unfold add_hydrogen_bond_interactions_.
  destruct (commit_within _ _ _ G) as [Ga|] eqn:H1; [cbn [andthen]|done].
  intros H2.
  destruct (commit_within_labelled _ _ _ _ _ H1) as (ks1 & L1 & _).
  destruct (commit_within_labelled _ _ _ _ _ H2) as (ks2 & L2 & _).
  destruct (filter_dataframe rgroup_df "atom_name" (strs HBOND_ATOMS) true)
    as [d1|] eqn:Hf1; [|done].
  destruct (filter_dataframe rgroup_df "atom_name" (strs HBOND_ATOMS_SULPHUR)
              true) as [d2|] eqn:Hf2; [|done].
  apply filter_dataframe_names in Hf1 as (Hr1 & _ & Hrows1).
  apply filter_dataframe_names in Hf2 as (Hr2 & _ & Hrows2).
  specialize (Hrows1 eq_refl). specialize (Hrows2 eq_refl).
  apply commit_within_effect in H1 as [Hs1 E1]; [|done].
  apply commit_within_effect in H2 as [Hs2 E2]; [|done].
  split; [by eapply same_data_trans|]. intros u v.
  rewrite <-(close_filtered rgroup_df d1) by done.
  rewrite <-(close_filtered rgroup_df d2) by done.
  destruct (E1 u v) as [E1a E1b]. destruct (E2 u v) as [E2a E2b].
  rewrite singleton_list_to_set in *. split.
  - intros [Hc|Hc].
    + destruct (E1a Hc) as [He Hk].
      destruct (frame_kinds _ _ _ _ u v L2) as [[-> ->]|[-> ->]];
        rewrite ?singleton_list_to_set, Hk; split; [done|done|done|set_solver].
    + destruct (E2a Hc) as [He Hk]. split; [done|]. rewrite Hk.
      destruct (frame_kinds _ _ _ _ u v L1) as [[-> _]|[-> _]];
        rewrite ?singleton_list_to_set; set_solver.
  - intros Hno. rewrite E2b, E1b; [done|tauto..].
Qed.

(** X9. A detector that measures distances raises a ValueError, with
    the graph as it was, when no row of the R-group table passes its
    filter: no atom of a hydrophobic residue, no disulfide atom of a
    cysteine, no atom with a hydrogen-bonding name, no atom of an ionic
    residue, of an aromatic-sulphur residue, of a cation-pi residue.
    The hydrophobic and the disulfide detectors return normally as soon
    as one row passes.  The hydrogen-bond detector also raises, after
    its first pass has changed the graph, when the table has atoms with
    hydrogen-bonding names but no sulphur atom SD or SG. *)
Theorem detector_empty_table K rgroup_df G :
  ((∀ a, a ∈ rows rgroup_df → residue_name a ∉ HYDROPHOBIC_RESIS) →
   add_hydrophobic_interactions_ rgroup_df G = Raised ValueError G)
  ∧ ((∃ a, a ∈ rows rgroup_df ∧ residue_name a ∈ HYDROPHOBIC_RESIS) →
     ∃ G', add_hydrophobic_interactions_ rgroup_df G = Done G')
  ∧ ((∀ a, a ∈ rows rgroup_df →
        ¬ (atom_name a ∈ DISULFIDE_ATOMS K
           ∧ residue_name a ∈ DISULFIDE_RESIS)) →
     add_disulfide_interactions_ K rgroup_df G = Raised ValueError G)
  ∧ ((∃ a, a ∈ rows rgroup_df ∧ atom_name a ∈ DISULFIDE_ATOMS K
           ∧ residue_name a ∈ DISULFIDE_RESIS) →
     ∃ G', add_disulfide_interactions_ K rgroup_df G = Done G')
  ∧ ((∀ a, a ∈ rows rgroup_df → atom_name a ∉ HBOND_ATOMS) →
     add_hydrogen_bond_interactions_ rgroup_df G = Raised ValueError G)
  ∧ ((∃ a, a ∈ rows rgroup_df ∧ atom_name a ∈ HBOND_ATOMS) →
     (∀ a, a ∈ rows rgroup_df → atom_name a ∉ HBOND_ATOMS_SULPHUR) →
     ∃ G', add_hydrogen_bond_interactions_ rgroup_df G = Raised ValueError G'
           ∧ same_data G G')
  ∧ ((∀ a, a ∈ rows rgroup_df → residue_name a ∉ IONIC_RESIS) →
     add_ionic_interactions_ K rgroup_df G = Raised ValueError G)
  ∧ ((∀ a, a ∈ rows rgroup_df →
        residue_name a ∉ ["MET"; "CYS"; "PHE"; "TYR"; "TRP"]) →
     add_aromatic_sulphur_interactions_ rgroup_df G = Raised ValueError G)
  ∧ ((∀ a, a ∈ rows rgroup_df → residue_name a ∉ CATION_PI_RESIS K) →
     add_cation_pi_interactions_ K rgroup_df G = Raised ValueError G).
Proof.
  assert (∀ col l out (P : Atom → Prop) `{!∀ a, Decision (P a)},
            filter_dataframe rgroup_df col (strs l) true = Ok out →
            rows out = filter P (rows rgroup_df) →
            (∀ a, a ∈ rows rgroup_df → ¬ P a) → out = []) as Hnil.
  { intros col l out P ? _ Hrows Hno. apply rows_nil. rewrite Hrows.
    by apply filter_nil_iff. }
  assert (∀ (out : DataFrame Atom) (P : Atom → Prop) `{!∀ a, Decision (P a)},
            rows out = filter P (rows rgroup_df) →
            (∃ a, a ∈ rows rgroup_df ∧ P a) → out ≠ []) as Hcons.
  { intros out P ? Hrows (a & Ha & Pa) ->.
    assert (a ∈ filter P (rows rgroup_df)) as Hin
      by (by apply list_elem_of_filter).
    rewrite <-Hrows in Hin. by apply elem_of_nil in Hin. }
  split_and!.
  - intros Hno. unfold add_hydrophobic_interactions_.
    destruct (filter_dataframe_Ok rgroup_df "residue_name" HYDROPHOBIC_RESIS)
      as [out Hf]; [auto|]. rewrite Hf.
    pose proof (filter_dataframe_names _ _ _ _ Hf) as (_ & Hrows & _).
    by rewrite (Hnil _ _ _ _ _ Hf (Hrows eq_refl) Hno).
  - intros (a & Ha & Pa). unfold add_hydrophobic_interactions_.
    destruct (filter_dataframe_Ok rgroup_df "residue_name" HYDROPHOBIC_RESIS)
      as [out Hf]; [auto|]. rewrite Hf.
    pose proof (filter_dataframe_names _ _ _ _ Hf) as (Hrange & Hrows & _).
    apply commit_within_total; [done| |apply hydrophobic_in_vocabulary].
    eapply (Hcons out); [exact (Hrows eq_refl)|eauto].
  - intros Hno. unfold add_disulfide_interactions_.
    destruct (filter_dataframe_Ok rgroup_df "residue_name" DISULFIDE_RESIS)
      as [d1 Hf1]; [auto|]. rewrite Hf1. rsimpl.
    destruct (filter_dataframe_Ok d1 "atom_name" (DISULFIDE_ATOMS K))
      as [out Hf2]; [auto|]. rewrite Hf2.
    apply filter_dataframe_names in Hf1 as (_ & Hrows1 & _).
    pose proof (filter_dataframe_names _ _ _ _ Hf2) as (_ & _ & Hrows2).
    specialize (Hrows1 eq_refl). specialize (Hrows2 eq_refl).
    rewrite Hrows1, list_filter_filter in Hrows2.
    assert (out = []) as ->; [|done].
    apply rows_nil. rewrite Hrows2. by apply filter_nil_iff.
  - intros (a & Ha & Pa). unfold add_disulfide_interactions_.
    destruct (filter_dataframe_Ok rgroup_df "residue_name" DISULFIDE_RESIS)
      as [d1 Hf1]; [auto|]. rewrite Hf1. rsimpl.
    destruct (filter_dataframe_Ok d1 "atom_name" (DISULFIDE_ATOMS K))
      as [out Hf2]; [auto|]. rewrite Hf2.
    apply filter_dataframe_names in Hf1 as (_ & Hrows1 & _).
    pose proof (filter_dataframe_names _ _ _ _ Hf2) as (Hrange & _ & Hrows2).
    specialize (Hrows1 eq_refl). specialize (Hrows2 eq_refl).
    rewrite Hrows1, list_filter_filter in Hrows2.
    apply commit_within_total; [done| |apply disulfide_in_vocabulary].
    eapply (Hcons out); [exact Hrows2|eauto].
  - intros Hno. unfold add_hydrogen_bond_interactions_.
    destruct (filter_dataframe_Ok rgroup_df "atom_name" HBOND_ATOMS)
      as [out Hf]; [auto|]. rewrite Hf.
    pose proof (filter_dataframe_names _ _ _ _ Hf) as (_ & _ & Hrows).
    by rewrite (Hnil _ _ _ _ _ Hf (Hrows eq_refl) Hno).
  - intros (a & Ha & Pa) Hno. unfold add_hydrogen_bond_interactions_.
    destruct (filter_dataframe_Ok rgroup_df "atom_name" HBOND_ATOMS)
      as [d1 Hf1]; [auto|]. rewrite Hf1.
    destruct (filter_dataframe_Ok rgroup_df "atom_name" HBOND_ATOMS_SULPHUR)
      as [d2 Hf2]; [auto|]. rewrite Hf2.
    pose proof (filter_dataframe_names _ _ _ _ Hf1) as (Hrange & _ & Hrows1).
    pose proof (filter_dataframe_names _ _ _ _ Hf2) as (_ & _ & Hrows2).
    rewrite (Hnil _ _ _ _ _ Hf2 (Hrows2 eq_refl) Hno).
    destruct (commit_within_total d1 (35 # 10) ["hbond"] G) as [Ga HGa];
      [done| |apply hbond_in_vocabulary|].
    { eapply (Hcons d1); [exact (Hrows1 eq_refl)|eauto]. }
    rewrite HGa. cbn [andthen]. exists Ga. split; [done|].
    by apply commit_within_effect in HGa as [? _].
  - intros Hno. unfold add_ionic_interactions_.
    destruct (filter_dataframe_Ok rgroup_df "residue_name" IONIC_RESIS)
      as [out Hf]; [auto|]. rewrite Hf.
    pose proof (filter_dataframe_names _ _ _ _ Hf) as (_ & Hrows & _).
    by rewrite (Hnil _ _ _ _ _ Hf (Hrows eq_refl) Hno).
  - intros Hno. unfold add_aromatic_sulphur_interactions_. cbv zeta.
    destruct (filter_dataframe_Ok rgroup_df "residue_name"
                ["MET"; "CYS"; "PHE"; "TYR"; "TRP"]) as [out Hf]; [auto|].
    rewrite Hf.
    pose proof (filter_dataframe_names _ _ _ _ Hf) as (_ & Hrows & _).
    by rewrite (Hnil _ _ _ _ _ Hf (Hrows eq_refl) Hno).
  - intros Hno. unfold add_cation_pi_interactions_.
    destruct (filter_dataframe_Ok rgroup_df "residue_name" (CATION_PI_RESIS K))
      as [out Hf]; [auto|]. rewrite Hf.
    pose proof (filter_dataframe_names _ _ _ _ Hf) as (_ & Hrows & _).
    by rewrite (Hnil _ _ _ _ _ Hf (Hrows eq_refl) Hno).
Qed.

End float64.

#[local] Existing Instance Sample.exact.

Lemma hydrophobic_spec_witness :
  let G := Sample.backbone_of Sample.met_phe in
  let G' := Sample.after Hydrophobic Sample.met_phe G in
  add_hydrophobic_interactions_ (Sample.rgroup_of Sample.met_phe) G = Done G'
  ∧ same_data G G'
  ∧ kinds G' "A1MET" "A2PHE" = {["hydrophobic"]} ∪ kinds G "A1MET" "A2PHE".
Proof.
  intros G G'.
  assert (add_hydrophobic_interactions_ (Sample.rgroup_of Sample.met_phe) G
          = Done G') as HG by (vm_compute; reflexivity).
  destruct (hydrophobic_spec _ G G' HG) as [Hs H].
  split_and!; [exact HG|exact Hs|].
  apply (H "A1MET" "A2PHE").
  exists (mkAtom "ATOM" "SD" "MET" "A" 1 1 0 0 "A1MET"),
    (mkAtom "ATOM" "CZ" "PHE" "A" 2 4 0 0 "A2PHE").
  split_and!;
    [vm_compute; repeat constructor..
    |apply (bool_decide_unpack _); vm_compute; exact I
    |apply (bool_decide_unpack _); vm_compute; exact I
    |reflexivity|reflexivity|done|vm_compute; reflexivity].
Defined.

Lemma disulfide_spec_witness :
  let G := Sample.backbone_of Sample.cystine in
  let G' := Sample.after Disulfide Sample.cystine G in
  add_disulfide_interactions_ Sample.tables (Sample.rgroup_of Sample.cystine) G
  = Done G'
  ∧ same_data G G'
  ∧ has_edge G' "A1CYS" "A2CYS" = true
  ∧ kinds G' "A1CYS" "A2CYS" = {["disulfide"]} ∪ kinds G "A1CYS" "A2CYS".
Proof.
  intros G G'.
  assert (add_disulfide_interactions_ Sample.tables
            (Sample.rgroup_of Sample.cystine) G = Done G') as HG
    by (vm_compute; reflexivity).
  destruct (disulfide_spec Sample.tables _ G G' HG) as [Hs H].
  split; [exact HG|]. split; [exact Hs|].
  apply (H "A1CYS" "A2CYS").
  exists (mkAtom "ATOM" "SG" "CYS" "A" 1 1 0 0 "A1CYS"),
    (mkAtom "ATOM" "SG" "CYS" "A" 2 3 0 0 "A2CYS").
  split_and!;
    [vm_compute; repeat constructor..
    |apply (bool_decide_unpack _); vm_compute; exact I
    |apply (bool_decide_unpack _); vm_compute; exact I
    |apply (bool_decide_unpack _); vm_compute; exact I
    |apply (bool_decide_unpack _); vm_compute; exact I
    |reflexivity|reflexivity|done|vm_compute; reflexivity].
Defined.

Lemma hydrogen_bond_spec_witness :
  let G := Sample.backbone_of Sample.mixed in
  let G' := Sample.after Hbond Sample.mixed G in
  add_hydrogen_bond_interactions_ (Sample.rgroup_of Sample.mixed) G = Done G'
  ∧ same_data G G'
  ∧ has_edge G' "A2SER" "A3CYS" = true
  ∧ kinds G' "A2SER" "A3CYS" = {["hbond"]} ∪ kinds G "A2SER" "A3CYS".
Proof.
  intros G G'.
  assert (add_hydrogen_bond_interactions_ (Sample.rgroup_of Sample.mixed) G
          = Done G') as HG by (vm_compute; reflexivity).
  destruct (hydrogen_bond_spec _ G G' HG) as [Hs H].
  split; [exact HG|]. split; [exact Hs|].
  apply (H "A2SER" "A3CYS"). left.
  exists (mkAtom "ATOM" "OG" "SER" "A" 2 4 0 0 "A2SER"),
    (mkAtom "ATOM" "SG" "CYS" "A" 3 7 0 0 "A3CYS").
  split_and!;
    [vm_compute; repeat constructor..
    |apply (bool_decide_unpack _); vm_compute; exact I
    |apply (bool_decide_unpack _); vm_compute; exact I
    |reflexivity|reflexivity|done|vm_compute; reflexivity].
Defined.

End ThresholdDetectors.

(** ** Encoding labels *)

Module EncodingFacts.
Import Table Geometry Graph Group ResiAtoms Pin Props GraphFacts CommitFacts
  TableFacts FeatureFacts.

Lemma inject_Z_plus a b : (inject_Z a + inject_Z b)%Q = inject_Z (a + b).
Proof. unfold Qplus, inject_Z. simpl. f_equal. lia. Qed.

Lemma count_cons (c y : string) l :
  Z.of_nat (length (filter (λ x, x = c) (y :: l)))
  = (Z.of_nat (length (filter (λ x, x = c) l))
     + (if bool_decide (y = c) then 1 else 0))%Z.
Proof.
  rewrite filter_cons. case_bool_decide.
  - rewrite decide_True by done. simpl. lia.
  - rewrite decide_False by done. lia.
Qed.

Lemma lb_row_indicator c1 c2 c3 cs y :
  lb_row (c1 :: c2 :: c3 :: cs) y
  = (λ c, if bool_decide (y = c) then 1%Q else 0%Q) <$> (c1 :: c2 :: c3 :: cs).
Proof. done. Qed.

(** Adding the rows of the labels [l] to a vector of counts. *)
Lemma fold_rows (classes_ : list string) (l : list string) (g : string → Z) :
  (∀ y, lb_row classes_ y
        = (λ c, if bool_decide (y = c) then 1%Q else 0%Q) <$> classes_) →
  foldl (λ bonds b, bonds ← bonds; np_add bonds b)
    (Ok ((λ c, inject_Z (g c)) <$> classes_)) (lb_row classes_ <$> l)
  = Ok ((λ c, inject_Z (g c + Z.of_nat (length (filter (λ x, x = c) l))))
          <$> classes_).
Proof.
  intros Hrow. revert g. induction l as [|y l IH]; intros g.
  - rewrite fmap_nil. cbn [foldl]. f_equal. apply list_fmap_ext.
    intros _ c _. f_equal. rewrite filter_nil. simpl. lia.
  - rewrite fmap_cons. cbn [foldl]. rsimpl.
    assert (np_add ((λ c, inject_Z (g c)) <$> classes_) (lb_row classes_ y)
            = Ok ((λ c, inject_Z (g c + (if bool_decide (y = c) then 1 else 0)))
                    <$> classes_)) as ->.
    { unfold np_add. rewrite Hrow.
      rewrite bool_decide_true by (by rewrite !length_fmap).
      f_equal. rewrite zip_with_fmap_l, zip_with_fmap_r, zip_with_diag.
      apply list_fmap_ext. intros _ c _. cbn beta.
      case_bool_decide; apply (inject_Z_plus (g c)). }
    rewrite (IH (λ c, (g c + (if bool_decide (y = c) then 1 else 0))%Z)).
    f_equal. apply list_fmap_ext. intros _ c _. cbn beta. f_equal.
    rewrite count_cons. lia.
Qed.

(** The vector that [encode_bond_features] returns. *)
Lemma encode_bond_features_counts (bond_set : list string) :
  encode_bond_features bond_set
  = Ok ((λ c, inject_Z (Z.of_nat (length (filter (λ x, x = c) bond_set))))
          <$> ["aromatic"; "aromatic_sulphur"; "backbone"; "cation_pi";
               "delaunay"; "disulfide"; "hbond"; "hydrophobic"; "ionic"]).
Proof.
  unfold encode_bond_features.
  assert (lb_fit BOND_TYPES
          = Ok ["aromatic"; "aromatic_sulphur"; "backbone"; "cation_pi";
                "delaunay"; "disulfide"; "hbond"; "hydrophobic"; "ionic"])
    as -> by (vm_compute; reflexivity).
  rsimpl. cbv zeta. case_bool_decide as Hlen.
  - etrans; [apply (fold_rows
        ["aromatic"; "aromatic_sulphur"; "backbone"; "cation_pi"; "delaunay";
         "disulfide"; "hbond"; "hydrophobic"; "ionic"] bond_set (λ _, 0%Z));
      intros y; apply lb_row_indicator|].
    f_equal.
  - destruct bond_set; [done|]. simpl in Hlen. lia.
Qed.


Lemma count_NoDup (c : string) (l : list string) :
  NoDup l →
  inject_Z (Z.of_nat (length (filter (λ x, x = c) l)))
  = if bool_decide (c ∈ l) then 1%Q else 0%Q.
Proof.
  induction 1 as [|y l Hy Hnd IH].
  - by rewrite filter_nil.
  - rewrite filter_cons. destruct (decide (y = c)) as [->|Hne].
    + rewrite bool_decide_true by (by constructor).
      rewrite bool_decide_false in IH by done.
      destruct (filter (λ x, x = c) l); [done|]. by simplify_eq/=.
    + rewrite IH. rewrite (bool_decide_ext (c ∈ y :: l) (c ∈ l)); [done|].
      rewrite elem_of_cons. naive_solver.
Qed.

(** The vector of a set of labels. *)
Lemma encode_bond_features_set (s : gset string) :
  encode_bond_features (elements s)
  = Ok ((λ c, if bool_decide (c ∈ s) then 1%Q else 0%Q)
          <$> ["aromatic"; "aromatic_sulphur"; "backbone"; "cation_pi";
               "delaunay"; "disulfide"; "hbond"; "hydrophobic"; "ionic"]).
Proof.
  rewrite encode_bond_features_counts. f_equal. apply list_fmap_ext.
  intros _ c _. cbn beta. rewrite count_NoDup by apply NoDup_elements.
  by rewrite (bool_decide_ext _ _ (elem_of_elements s c)).
Qed.

(** X10. [encode_bond_features] never raises.  It returns one cell for
    every label of BOND_TYPES, in the sorted order of the labels, that
    holds the number of times the label occurs in the argument: 1 or 0
    when the argument is a set.  A label outside BOND_TYPES contributes
    to no cell. *)
Theorem encode_bond_features_multi_hot (bond_set : list string) :
  let classes_ := ["aromatic"; "aromatic_sulphur"; "backbone"; "cation_pi";
                   "delaunay"; "disulfide"; "hbond"; "hydrophobic"; "ionic"] in
  lb_fit BOND_TYPES = Ok classes_
  ∧ classes_ ≡ₚ BOND_TYPES
  ∧ Sorted String.le classes_
  ∧ encode_bond_features bond_set
    = Ok ((λ c, inject_Z (Z.of_nat (length (filter (λ x, x = c) bond_set))))
            <$> classes_)
  ∧ (NoDup bond_set →
     encode_bond_features bond_set
     = Ok ((λ c, if bool_decide (c ∈ bond_set) then 1%Q else 0%Q)
             <$> classes_))
  ∧ (∀ l, l ∉ BOND_TYPES →
       encode_bond_features (l :: bond_set) = encode_bond_features bond_set).
Proof.
  intros classes_.
  assert (classes_ = merge_sort String.le (remove_dups BOND_TYPES)) as Hc
    by (vm_compute; reflexivity).
  split_and!.
  - vm_compute. reflexivity.
  - rewrite Hc, merge_sort_Permutation. apply (NoDup_Permutation _ _).
    + apply NoDup_remove_dups.
    + apply NoDup_BOND_TYPES.
    + intros x. apply elem_of_remove_dups.
  - rewrite Hc. apply (Sorted_merge_sort _).
  - apply encode_bond_features_counts.
  - intros Hnd. rewrite encode_bond_features_counts. f_equal.
    apply list_fmap_ext. intros _ c _. cbn beta. by apply count_NoDup.
  - intros l Hl. rewrite !encode_bond_features_counts. f_equal.
    apply list_fmap_ext. intros i c Hi. cbn beta.
    rewrite filter_cons, decide_False; [done|]. intros ->. apply Hl.
    apply (bool_decide_unpack _).
    repeat (destruct i as [|i]; [by injection Hi as <-|]). done.
Qed.

End EncodingFacts.

Module EdgeFeatureFacts.
Import Table Geometry Graph Group ResiAtoms Pin Props GraphFacts CommitFacts
  TableFacts FeatureFacts EncodingFacts.

Lemma compute_edge_features_inv u v G G' :
  compute_edge_features [u; v] G = Done G' →
  ∃ d bond_features,
    edges G !! ekey u v = Some d
    ∧ encode_bond_features (elements (kind d)) = Ok bond_features
    ∧ G' = set_edge_features u v bond_features G.
Proof.
  unfold compute_edge_features. destruct (has_edge G u v); [|done].
  destruct (edges G !! ekey u v) as [d|]; [|done]. unfold eval.
  destruct (encode_bond_features _) as [f|] eqn:E; [|done].
  intros [= <-]. by exists d, f.
Qed.

(** X11. When [compute_edge_features] returns on the pair [u], [v]:
    the nodes are as before; the edge keeps its labels and its features
    are now one cell for every label of BOND_TYPES in sorted order, 1
    when the edge carries the label and 0 otherwise; every other edge is
    as it was; calling it again, or with the pair in the other order,
    gives the same graph. *)
Theorem compute_edge_features_effect u v G G' :
  compute_edge_features [u; v] G = Done G' →
  nodes G' = nodes G
  ∧ (∃ d, edges G !! ekey u v = Some d
          ∧ edges G' !! ekey u v
            = Some (mkEdge (kind d)
                (Some ((λ c, if bool_decide (c ∈ kind d) then 1%Q else 0%Q)
                         <$> merge_sort String.le BOND_TYPES))))
  ∧ (∀ k, k ≠ ekey u v → edges G' !! k = edges G !! k)
  ∧ (∀ x y, kinds G' x y = kinds G x y)
  ∧ compute_edge_features [u; v] G' = Done G'
  ∧ compute_edge_features [v; u] G = Done G'.
Proof.
  intros HG. pose proof HG as (d & f & Hd & Hf & ->)%compute_edge_features_inv.
  rewrite encode_bond_features_set in Hf. injection Hf as <-.
  assert (∀ k, edges (set_edge_features u v
             ((λ c, if bool_decide (c ∈ kind d) then 1%Q else 0%Q)
                <$> ["aromatic"; "aromatic_sulphur"; "backbone"; "cation_pi";
                     "delaunay"; "disulfide"; "hbond"; "hydrophobic"; "ionic"])
             G) !! k
           = if decide (k = ekey u v)
             then Some (mkEdge (kind d)
                    (Some ((λ c, if bool_decide (c ∈ kind d) then 1%Q else 0%Q)
                       <$> ["aromatic"; "aromatic_sulphur"; "backbone";
                            "cation_pi"; "delaunay"; "disulfide"; "hbond";
                            "hydrophobic"; "ionic"])))
             else edges G !! k) as He.
  { intros k. unfold set_edge_features. cbn [edges].
    destruct (decide (k = ekey u v)) as [->|Hk].
    - by rewrite lookup_alter_eq, Hd.
    - by rewrite lookup_alter_ne. }
  assert (merge_sort String.le BOND_TYPES
          = ["aromatic"; "aromatic_sulphur"; "backbone"; "cation_pi";
             "delaunay"; "disulfide"; "hbond"; "hydrophobic"; "ionic"]) as ->
    by (vm_compute; reflexivity).
  split_and!.
  - done.
  - exists d. split; [done|]. rewrite He.
    by destruct (decide (ekey u v = ekey u v)).
  - intros k Hk. rewrite He. by destruct (decide (k = ekey u v)).
  - intros x y. unfold kinds. rewrite He.
    destruct (decide (ekey x y = ekey u v)) as [Hk|Hk]; [|done].
    by rewrite Hk, Hd.
  - unfold compute_edge_features, has_edge.
    rewrite He. destruct (decide (ekey u v = ekey u v)); [|done].
    rewrite bool_decide_true by eauto. cbn [kind]. unfold eval.
    rewrite encode_bond_features_set. f_equal.
    apply graph_eq; [done|]. apply map_eq. intros k.
    unfold set_edge_features at 1. cbn [edges].
    destruct (decide (k = ekey u v)) as [->|Hk].
    + rewrite lookup_alter_eq, He.
      by destruct (decide (ekey u v = ekey u v)).
    + by rewrite lookup_alter_ne.
  - unfold compute_edge_features in *. unfold has_edge, set_edge_features in *.
    by rewrite (ekey_comm v u).
Qed.

Lemma compute_edge_features_effect_witness :
  let G := Sample.backbone_of Sample.met_phe in
  ∃ G', compute_edge_features ["A1MET"; "A2PHE"] G = Done G'
        ∧ nodes G' = nodes G
        ∧ (∀ x y, kinds G' x y = kinds G x y)
        ∧ compute_edge_features ["A2PHE"; "A1MET"] G = Done G'.
Proof.
  intros G.
  assert (∃ G', compute_edge_features ["A1MET"; "A2PHE"] G = Done G')
    as [G' HG] by (eexists; vm_compute; reflexivity).
  exists G'.
  destruct (compute_edge_features_effect "A1MET" "A2PHE" G G' HG)
    as (H1 & _ & _ & H4 & _ & H6).
  split_and!; [exact HG|exact H1|exact H4|exact H6].
Defined.

End EdgeFeatureFacts.

(** ** Features of all edges *)

Module AllEdgeFeatures.
Import Table Geometry Graph Group ResiAtoms Pin Props GraphFacts CommitFacts
  TableFacts GeometryFacts FeatureFacts EncodingFacts EdgeFeatureFacts.

Lemma compute_edge_features_Done u v G d :
  edges G !! ekey u v = Some d →
  compute_edge_features [u; v] G
  = Done (set_edge_features u v
            ((λ c, if bool_decide (c ∈ kind d) then 1%Q else 0%Q)
               <$> merge_sort String.le BOND_TYPES) G).
Proof.
  intros Hd. unfold compute_edge_features, has_edge. rewrite Hd.
  rewrite bool_decide_true by eauto. unfold eval.
  rewrite encode_bond_features_set.
  assert (merge_sort String.le BOND_TYPES
          = ["aromatic"; "aromatic_sulphur"; "backbone"; "cation_pi";
             "delaunay"; "disulfide"; "hbond"; "hydrophobic"; "ionic"]) as ->
    by (vm_compute; reflexivity).
  done.
Qed.

(** The loop of [compute_all_edge_features] over edges of the graph. *)
Lemma edge_features_loop (l : list (string * string)) (g : Graph.t) :
  NoDup l →
  (∀ k, k ∈ l → ekey k.1 k.2 = k ∧ is_Some (edges g !! k)) →
  ∃ g', for_each l (λ '(u, v), compute_edge_features [u; v]) g = Done g'
        ∧ nodes g' = nodes g
        ∧ ∀ k, edges g' !! k
               = if decide (k ∈ l)
                 then (λ d, mkEdge (kind d)
                         (Some ((λ c, if bool_decide (c ∈ kind d)
                                      then 1%Q else 0%Q)
                                  <$> merge_sort String.le BOND_TYPES)))
                        <$> edges g !! k
                 else edges g !! k.
Proof.
  revert g. induction l as [|[u v] l IH]; intros g Hnd Hl.
  - exists g. split_and!; [done..|]. intros k.
    by destruct (decide (k ∈ [])) as [?%elem_of_nil|].
  - apply NoDup_cons in Hnd as [Hnotin Hnd].
    destruct (Hl (u, v)) as [Hk [d Hd]]; [by constructor|]. simpl in Hk.
    cbn [for_each]. rewrite <-Hk in Hd.
    rewrite (compute_edge_features_Done u v g d Hd). cbn [andthen].
    set (g1 := set_edge_features u v _ g).
    assert (∀ k, edges g1 !! k
                 = if decide (k = (u, v))
                   then Some (mkEdge (kind d)
                          (Some ((λ c, if bool_decide (c ∈ kind d)
                                       then 1%Q else 0%Q)
                                   <$> merge_sort String.le BOND_TYPES)))
                   else edges g !! k) as He1.
    { intros k. unfold g1, set_edge_features. cbn [edges]. rewrite Hk.
      destruct (decide (k = (u, v))) as [->|Hne].
      - rewrite lookup_alter_eq. rewrite Hk in Hd. by rewrite Hd.
      - by rewrite lookup_alter_ne. }
    destruct (IH g1 Hnd) as (g' & HG & Hn & He).
    { intros k Hin. destruct (Hl k) as [? Hs]; [by constructor|].
      split; [done|]. rewrite He1.
      destruct (decide (k = (u, v))); [eauto|done]. }
    exists g'. split_and!; [done|by rewrite Hn|].
    intros k. rewrite He, He1. rewrite Hk in Hd.
    destruct (decide (k = (u, v))) as [->|Hne].
    + rewrite decide_False by done. rewrite decide_True by (by constructor).
      by rewrite Hd.
    + destruct (decide (k ∈ l)) as [Hin|Hin].
      * by rewrite decide_True by (by constructor).
      * rewrite decide_False; [done|]. by intros [?|?]%elem_of_cons.
Qed.

Lemma collect_fails {A B} (f : A → result B) (l : list A) e x :
  x ∈ l → f x = Raise e → (∀ y e', f y = Raise e' → e' = e) →
  collect f l = Raise e.
Proof.
  intros Hx Hf He. induction l as [|a l IH]; [by apply elem_of_nil in Hx|].
  simpl. destruct (f a) as [b|e'] eqn:E; rsimpl; [|by rewrite (He a e' E)].
  apply elem_of_cons in Hx as [->|Hx]; [congruence|].
  by rewrite IH.
Qed.

(** What [feature_array] returns for the edges. *)
Lemma feature_array_edge G :
  ((∃ k d, edges G !! k = Some d ∧ e_features d = None) →
   feature_array G "edge" = Raise KeyError)
  ∧ ((∀ k d, edges G !! k = Some d → is_Some (e_features d)) →
     ∃ l, feature_array G "edge" = Ok (EdgeFeatures l)
          ∧ length l = size (edges G)
          ∧ ∀ f, f ∈ l ↔ ∃ k d, edges G !! k = Some d ∧ e_features d = Some f).
Proof.
  unfold feature_array. rewrite bool_decide_true by set_solver.
  rewrite bool_decide_false by done. unfold edge_list. split.
  - intros (k & d & Hd & Hf).
    rewrite (collect_fails _ _ KeyError (k, d)); [done| | |].
    + by apply elem_of_map_to_list.
    + by rewrite Hf.
    + intros [k' d'] e'. destruct (e_features d'); [done|]. by intros [= <-].
  - intros Hall.
    rewrite (collect_Ok _ (λ x, default [] (e_features x.2))).
    + rsimpl. eexists. split; [done|]. split.
      * by rewrite length_fmap, length_map_to_list.
      * intros f. rewrite list_elem_of_fmap. split.
        -- intros ([k d] & -> & Hin%elem_of_map_to_list). simpl.
           destruct (Hall k d Hin) as [f Hf]. exists k, d. by rewrite Hf.
        -- intros (k & d & Hd & Hf). exists (k, d). simpl. rewrite Hf.
           split; [done|]. by apply elem_of_map_to_list.
    + intros [k d] Hin%elem_of_map_to_list. simpl.
      by destruct (Hall k d Hin) as [f ->].
Qed.

(** X12. On a graph whose edges are stored under the keys of their
    unordered pairs, [compute_all_edge_features] returns normally: the
    nodes are as before, every edge keeps its labels and has for
    features the cells of its labels over BOND_TYPES, and
    [feature_array] on "edge" then returns as many vectors as the graph
    has edges, each of the length of BOND_TYPES. *)
Theorem compute_all_edge_features_spec G :
  normal G →
  ∃ G', compute_all_edge_features G = Done G'
        ∧ nodes G' = nodes G
        ∧ (∀ k, edges G' !! k
                = (λ d, mkEdge (kind d)
                     (Some ((λ c, if bool_decide (c ∈ kind d)
                                  then 1%Q else 0%Q)
                              <$> merge_sort String.le BOND_TYPES)))
                  <$> edges G !! k)
        ∧ (∀ u v, kinds G' u v = kinds G u v
                  ∧ has_edge G' u v = has_edge G u v)
        ∧ ∃ l, feature_array G' "edge" = Ok (EdgeFeatures l)
               ∧ length l = size (edges G)
               ∧ ∀ f, f ∈ l → length f = length BOND_TYPES.
Proof.
  intros Hn. unfold compute_all_edge_features.
  destruct (edge_features_loop (edge_list G).*1 G) as (G' & HG & Hnodes & He).
  { apply NoDup_fst_map_to_list. }
  { intros k ([k' d] & -> & Hin%elem_of_map_to_list)%list_elem_of_fmap.
    simpl. split; [by apply (Hn k' d)|eauto]. }
  assert (∀ k, edges G' !! k
               = (λ d, mkEdge (kind d)
                    (Some ((λ c, if bool_decide (c ∈ kind d)
                                 then 1%Q else 0%Q)
                             <$> merge_sort String.le BOND_TYPES)))
                 <$> edges G !! k) as He'.
  { intros k. rewrite He.
    destruct (decide (k ∈ (edge_list G).*1)) as [Hin|Hin]; [done|].
    destruct (edges G !! k) as [d|] eqn:Hd; [|done]. destruct Hin.
    apply list_elem_of_fmap. exists (k, d). split; [done|].
    by apply elem_of_map_to_list. }
  exists G'. split_and!; [done|done|done| |].
  - intros u v. unfold kinds, has_edge. rewrite He'.
    by destruct (edges G !! ekey u v).
  - destruct (feature_array_edge G') as [_ Hok].
    destruct Hok as (l & Hl & Hlen & Hmem).
    { intros k d. rewrite He'. destruct (edges G !! k); [|done].
      intros [= <-]. eauto. }
    exists l. split_and!; [done| |].
    + rewrite Hlen.
      assert (edges G' = (λ d, mkEdge (kind d)
                (Some ((λ c, if bool_decide (c ∈ kind d) then 1%Q else 0%Q)
                         <$> merge_sort String.le BOND_TYPES)))
              <$> edges G) as ->; [|apply map_size_fmap].
      apply map_eq. intros k. by rewrite He', lookup_fmap.
    + intros f (k & d & Hd & Hf)%Hmem. rewrite He' in Hd.
      destruct (edges G !! k) as [d0|]; [|done]. injection Hd as <-.
      cbn [e_features] in Hf. apply (inj Some) in Hf. subst f.
      reflexivity.
Qed.

Lemma compute_all_edge_features_spec_witness :
  let G := Sample.backbone_of Sample.met_phe in
  normal G
  ∧ ∃ G', compute_all_edge_features G = Done G'
          ∧ nodes G' = nodes G
          ∧ ∃ l, feature_array G' "edge" = Ok (EdgeFeatures l)
                 ∧ length l = size (edges G).
Proof.
  intros G.
  assert (normal G) as Hn
    by (apply (bool_decide_unpack _); vm_compute; exact I).
  split; [exact Hn|].
  destruct (compute_all_edge_features_spec G Hn)
    as (G' & HG & Hnodes & _ & _ & l & Hl & Hlen & _).
  exists G'. split_and!; [exact HG|exact Hnodes|].
  exists l. split; [exact Hl|exact Hlen].
Defined.

End AllEdgeFeatures.

(** ** Feature arrays and features of a node *)

Module FeatureArrayFacts.
Import Table Geometry Graph Group ResiAtoms Pin Props GraphFacts CommitFacts
  TableFacts GeometryFacts FeatureFacts AllEdgeFeatures.

(** X13. [feature_array] on "edge" raises a KeyError when an edge has
    no features yet, and otherwise returns the feature vectors of the
    edges, one for every edge; on "node" it raises a KeyError when a
    node has no attributes (a node that [add_edge] alone has made), and
    otherwise returns one entry for every node, the features of the
    node or None where they have not been computed. *)
Theorem feature_array_spec G :
  ((∃ k d, edges G !! k = Some d ∧ e_features d = None) →
   feature_array G "edge" = Raise KeyError)
  ∧ ((∀ k d, edges G !! k = Some d → is_Some (e_features d)) →
     ∃ l, feature_array G "edge" = Ok (EdgeFeatures l)
          ∧ length l = size (edges G)
          ∧ ∀ f, f ∈ l ↔ ∃ k d, edges G !! k = Some d ∧ e_features d = Some f)
  ∧ ((∃ n, nodes G !! n = Some None) →
     feature_array G "node" = Raise KeyError)
  ∧ ((∀ n, nodes G !! n ≠ Some None) →
     ∃ l, feature_array G "node" = Ok (NodeFeatures l)
          ∧ length l = size (nodes G)
          ∧ ∀ f, f ∈ l ↔ ∃ n d, nodes G !! n = Some (Some d) ∧ n_features d = f).
Proof.
  destruct (feature_array_edge G) as [H1 H2]. split_and!; [done|done| |].
  - intros (n & Hn). unfold feature_array.
    rewrite bool_decide_true by set_solver. rewrite bool_decide_true by done.
    unfold node_list.
    rewrite (collect_fails _ _ KeyError (n, None)); [done| |done|].
    + by apply elem_of_map_to_list.
    + intros [n' [d'|]] e'; [done|]. by intros [= <-].
  - intros Hall. unfold feature_array.
    rewrite bool_decide_true by set_solver. rewrite bool_decide_true by done.
    unfold node_list.
    rewrite (collect_Ok _ (λ x, x.2 ≫= n_features)).
    + rsimpl. eexists. split; [done|]. split.
      * by rewrite length_fmap, length_map_to_list.
      * intros f. rewrite list_elem_of_fmap. split.
        -- intros ([n [d|]] & -> & Hin%elem_of_map_to_list); simpl.
           ++ by exists n, d.
           ++ by destruct (Hall n).
        -- intros (n & d & Hd & Hf). exists (n, Some d). simpl.
           split; [done|]. by apply elem_of_map_to_list.
    + intros [n [d|]] Hin%elem_of_map_to_list; [done|]. by destruct (Hall n).
Qed.

End FeatureArrayFacts.

Module NodeFeatureFacts.
Import Table Geometry Graph Group ResiAtoms Pin Props GraphFacts CommitFacts
  TableFacts GeometryFacts FeatureFacts BackboneFacts EncodingFacts.

Section float64.
Context {F64 : Float64}.

Lemma has_node_true G n : has_node G n = true ↔ is_Some (nodes G !! n).
Proof. unfold has_node. by rewrite bool_decide_eq_true. Qed.

Lemma node_coords_Ok G n d :
  nodes G !! n = Some (Some d) →
  node_coords G n = Ok (n_x_coord d, n_y_coord d, n_z_coord d).
Proof. intros H. unfold node_coords, node_data. by rewrite H. Qed.

(** X14. [compute_node_features] raises, with the graph as it was: an
    AssertionError when the node is not in the graph; a KeyError when the
    node has no attributes, when its residue type is not in the table of
    isoelectric points or not in the table of molecular weights, and when
    one of its neighbours has no attributes. *)
Theorem compute_node_features_errors K node G :
  (nodes G !! node = None →
   compute_node_features K node G = Raised AssertionError G)
  ∧ (nodes G !! node = Some None →
     compute_node_features K node G = Raised KeyError G)
  ∧ (∀ d, nodes G !! node = Some (Some d) → RESI_NAMES K ≠ [] →
       ISOELECTRIC_POINTS_STD K !! n_residue_name d = None →
       compute_node_features K node G = Raised KeyError G)
  ∧ (∀ d row rest, nodes G !! node = Some (Some d) → RESI_NAMES K ≠ [] →
       ISOELECTRIC_POINTS_STD K !! n_residue_name d = Some (row :: rest) →
       MOLECULAR_WEIGHTS_STD K !! n_residue_name d = None →
       compute_node_features K node G = Raised KeyError G)
  ∧ (∀ d row rest row' rest' n2,
       nodes G !! node = Some (Some d) → RESI_NAMES K ≠ [] →
       ISOELECTRIC_POINTS_STD K !! n_residue_name d = Some (row :: rest) →
       MOLECULAR_WEIGHTS_STD K !! n_residue_name d = Some (row' :: rest') →
       n2 ∈ neighbors G node → nodes G !! n2 = Some None →
       compute_node_features K node G = Raised KeyError G).
Proof.
  split_and!.
  - intros Hn. unfold compute_node_features, has_node. rewrite Hn.
    by rewrite bool_decide_false by (by intros [? ?]).
  - intros Hn. unfold compute_node_features, has_node. rewrite Hn.
    rewrite bool_decide_true by eauto.
    unfold node_feature_vector, node_data. by rewrite Hn.
  - intros d Hn He Hp. unfold compute_node_features, has_node. rewrite Hn.
    rewrite bool_decide_true by eauto.
    unfold node_feature_vector, node_data. rewrite Hn. rsimpl.
    destruct (lb_fit_Ok _ He) as [cls ->]. rsimpl.
    unfold table_row. by rewrite Hp.
  - intros d row rest Hn He Hp Hm. unfold compute_node_features, has_node.
    rewrite Hn. rewrite bool_decide_true by eauto.
    unfold node_feature_vector, node_data. rewrite Hn. rsimpl.
    destruct (lb_fit_Ok _ He) as [cls ->]. rsimpl.
    unfold table_row. rewrite Hp. rsimpl. by rewrite Hm.
  - intros d row rest row' rest' n2 Hn He Hp Hm Hin Hn2.
    unfold compute_node_features, has_node.
    rewrite Hn. rewrite bool_decide_true by eauto.
    unfold node_feature_vector, node_data. rewrite Hn. rsimpl.
    destruct (lb_fit_Ok _ He) as [cls ->]. rsimpl.
    unfold table_row. rewrite Hp, Hm. rsimpl.
    rewrite (node_coords_Ok G node d Hn). rsimpl.
    rewrite (AllEdgeFeatures.collect_fails _ _ KeyError n2); [done|done| |].
    + unfold node_coords, node_data. by rewrite Hn2.
    + intros y e'. unfold node_coords, node_data.
      destruct (nodes G !! y) as [[dy|]|]; rsimpl; try done; by intros [= <-].
Qed.


Lemma lb_row_unknown classes_ y :
  y ∉ classes_ → Forall (λ q, q = 0%Q) (lb_row classes_ y).
Proof.
  intros Hy. unfold lb_row.
  destruct classes_ as [|c1 [|c2 [|c3 cs]]].
  - by repeat constructor.
  - by repeat constructor.
  - repeat constructor. rewrite bool_decide_false; [done|].
    intros ->. apply Hy. set_solver.
  - apply Forall_fmap, Forall_forall. intros c Hc. simpl.
    rewrite bool_decide_false; [done|]. by intros ->.
Qed.

Lemma lb_fit_elem labels classes_ x :
  lb_fit labels = Ok classes_ → x ∈ classes_ ↔ x ∈ labels.
Proof.
  unfold lb_fit. destruct labels as [|a l] eqn:E; [done|]. intros H.
  assert (classes_ = merge_sort String.le (remove_dups (a :: l))) as ->
    by congruence.
  rewrite merge_sort_Permutation. apply elem_of_remove_dups.
Qed.

Lemma collect_all {A B} (f : A → result B) (l : list A) :
  (∀ x, x ∈ l → ∃ b, f x = Ok b) → ∃ bs, collect f l = Ok bs.
Proof.
  induction l as [|a l IH]; intros H; simpl; [eauto|].
  destruct (H a) as [b ->]; [by constructor|]. rsimpl.
  destruct IH as [bs ->]; [|rsimpl; eauto].
  intros x Hx. apply H. by constructor.
Qed.

(** When [compute_node_features] returns normally. *)
Lemma node_feature_vector_Ok K G node d row rest row' rest' :
  nodes G !! node = Some (Some d) →
  RESI_NAMES K ≠ [] →
  ISOELECTRIC_POINTS_STD K !! n_residue_name d = Some (row :: rest) →
  MOLECULAR_WEIGHTS_STD K !! n_residue_name d = Some (row' :: rest') →
  (∀ n2, n2 ∈ neighbors G node → ∃ d2, nodes G !! n2 = Some (Some d2)) →
  ∃ classes_ tail,
    lb_fit (RESI_NAMES K) = Ok classes_
    ∧ node_feature_vector K G node
      = Ok ((Rat <$> lb_row classes_ (n_residue_name d)) ++ tail)%list.
Proof.
  intros Hn He Hp Hm Hnb. unfold node_feature_vector, node_data.
  rewrite Hn. rsimpl. destruct (lb_fit_Ok _ He) as [cls Hcls]. rewrite Hcls.
  rsimpl. unfold table_row. rewrite Hp, Hm. rsimpl.
  rewrite (node_coords_Ok G node d Hn). rsimpl.
  destruct (collect_all
    (λ n2, there ← node_coords G n2;
           Ok (radicand (euclidean (n_x_coord d, n_y_coord d, n_z_coord d)
                           there)))
    (neighbors G node)) as [dists ->].
  { intros n2 [d2 Hd2]%Hnb. rewrite (node_coords_Ok G n2 d2 Hd2). rsimpl. eauto. }
  rsimpl.
  destruct (encode_bond_features_total
    (elements (foldl (λ (bond_set : gset string) n2,
                 match edges G !! ekey node n2 with
                 | Some e => bond_set ∪ kind e
                 | None => bond_set
                 end) ∅ (neighbors G node)))) as (bonds & -> & _).
  rsimpl. by eexists _, _.
Qed.

(** X15. [compute_node_features] returns normally when the node has
    attributes, the alphabet is not empty, the two tables have a row for
    the residue type of the node and every neighbour has attributes: the
    edges and the other nodes are as before, the node keeps its
    attributes and gets one row of features that starts with the
    encoding of its residue type over the alphabet.  The residue type
    need not be in the alphabet: its encoding is then all zeros. *)
Theorem compute_node_features_total K node G d row rest row' rest' :
  nodes G !! node = Some (Some d) →
  RESI_NAMES K ≠ [] →
  ISOELECTRIC_POINTS_STD K !! n_residue_name d = Some (row :: rest) →
  MOLECULAR_WEIGHTS_STD K !! n_residue_name d = Some (row' :: rest') →
  (∀ n2, n2 ∈ neighbors G node → ∃ d2, nodes G !! n2 = Some (Some d2)) →
  ∃ G' classes_ tail,
    compute_node_features K node G = Done G'
    ∧ edges G' = edges G
    ∧ (∀ n, n ≠ node → nodes G' !! n = nodes G !! n)
    ∧ lb_fit (RESI_NAMES K) = Ok classes_
    ∧ nodes G' !! node
      = Some (Some (mkNode (n_chain_id d) (n_residue_number d)
                      (n_residue_name d) (n_x_coord d) (n_y_coord d)
                      (n_z_coord d)
                      (Some [(Rat <$> lb_row classes_ (n_residue_name d))
                               ++ tail])))%list
    ∧ (n_residue_name d ∉ RESI_NAMES K →
       Forall (λ q, q = 0%Q) (lb_row classes_ (n_residue_name d))).
Proof.
  intros Hn He Hp Hm Hnb.
  destruct (node_feature_vector_Ok K G node d row rest row' rest' Hn He Hp Hm Hnb)
    as (cls & tail & Hcls & Hv).
  eexists _, cls, tail. unfold compute_node_features, has_node.
  rewrite bool_decide_true by (rewrite Hn; eauto). rewrite Hv. unfold eval.
  split_and!; [done|done| |done| |].
  - intros n Hne. unfold set_node_features. cbn [nodes].
    by rewrite lookup_alter_ne.
  - unfold set_node_features. cbn [nodes].
    by rewrite lookup_alter_eq, Hn.
  - intros Hno. apply lb_row_unknown. intros Hin. apply Hno.
    by apply (lb_fit_elem _ _ _ Hcls).
Qed.

End float64.

#[local] Existing Instance Sample.exact.

Lemma compute_node_features_total_witness :
  let G := Sample.backbone_of Sample.met_phe in
  let d := mkNode "A" 1 "MET" 0 0 0 None in
  nodes G !! "A1MET" = Some (Some d)
  ∧ ∃ G', compute_node_features Sample.tables "A1MET" G = Done G'
          ∧ edges G' = edges G
          ∧ (∀ n, n ≠ "A1MET" → nodes G' !! n = nodes G !! n).
Proof.
  intros G d.
  assert (nodes G !! "A1MET" = Some (Some d)) as Hn
    by (vm_compute; reflexivity).
  split; [exact Hn|].
  destruct (compute_node_features_total Sample.tables "A1MET" G d
              [1 # 2] [] [2 # 3] [] Hn)
    as (G' & cls & tail & HG & He & Hframe & _).
  - discriminate.
  - vm_compute. reflexivity.
  - vm_compute. reflexivity.
  - intros n2 Hin.
    assert (neighbors G "A1MET" = ["A2PHE"]) as E by (vm_compute; reflexivity).
    rewrite E in Hin. apply list_elem_of_singleton in Hin. subst n2.
    eexists. vm_compute. reflexivity.
  - exists G'. split_and!; [exact HG|exact He|exact Hframe].
Defined.

End NodeFeatureFacts.

(** ** The nodes of the graph *)

Module NodeConstruction.
Import Table Geometry Graph Group ResiAtoms Pin Props GraphFacts CommitFacts
  TableFacts BackboneFacts.

(** The body of the first loop of [compute_interaction_graph]. *)
Local Abbreviation residue_node :=
  (λ '((node_id, chain_id, residue_number, residue_name), d) G,
     eval G (ca_value x_coord d) (λ x_coord,
     eval G (ca_value y_coord d) (λ y_coord,
     eval G (ca_value z_coord d) (λ z_coord,
     Done (add_node node_id
             (mkNode chain_id residue_number residue_name
                x_coord y_coord z_coord None) G))))).

Lemma residue_node_outcome nid c num name (d : DataFrame Atom) g :
  match filter (λ r, atom_name r.2 = "CA") d with
  | r :: _ =>
      residue_node (nid, c, num, name, d) g
      = Done (add_node nid (mkNode c num name (x_coord r.2) (y_coord r.2)
                              (z_coord r.2) None) g)
  | [] => residue_node (nid, c, num, name, d) g = Raised IndexError g
  end.
Proof.
  unfold ca_value. by destruct (filter _ d).
Qed.

Lemma rows_elem {A} (df : DataFrame A) a : a ∈ rows df ↔ ∃ i, (i, a) ∈ df.
Proof.
  unfold rows. rewrite list_elem_of_fmap. split.
  - intros ([i b] & -> & H). by exists i.
  - intros [i H]. by exists (i, a).
Qed.

(** The groups of the first loop. *)
Lemma atom_groups pdb_df k d :
  (k, d) ∈ groupby key4_le
             (λ a, (node_id a, chain_id a, residue_number a, residue_name a))
             (filter (λ r, record_name r.2 = "ATOM") pdb_df) →
  ∃ a, a ∈ rows pdb_df ∧ record_name a = "ATOM"
       ∧ k = (node_id a, chain_id a, residue_number a, residue_name a)
       ∧ ∀ r, r ∈ d ↔ r ∈ pdb_df ∧ record_name r.2 = "ATOM"
                      ∧ (node_id r.2, chain_id r.2, residue_number r.2,
                         residue_name r.2) = k.
Proof.
  intros H. apply groupby_elem in H. destruct H as [(a & Ha & Hk) Hd]. subst d k.
  apply rows_elem in Ha as [i Ha]. apply list_elem_of_filter in Ha as [Hat Ha].
  exists a. split_and!; [apply rows_elem; eauto|done|done|].
  intros r. rewrite !list_elem_of_filter. tauto.
Qed.

Lemma residue_loop_fails (l : list (key4 * DataFrame Atom)) g :
  (∃ k d, (k, d) ∈ l ∧ ∀ r, r ∈ d → atom_name r.2 ≠ "CA") →
  ∃ g', for_each l residue_node g = Raised IndexError g'.
Proof.
  revert g. induction l as [|[[[[nid c] num] name] d] l IH]; intros g.
  - intros (k & d & []%elem_of_nil & _).
  - intros (k & d0 & Hin & Hno). cbn [for_each].
    pose proof (residue_node_outcome nid c num name d g) as Hb.
    destruct (filter (λ r, atom_name r.2 = "CA") d) as [|r rs] eqn:Hf.
    + rewrite Hb. by eexists.
    + rewrite Hb. cbn [andthen]. apply IH.
      apply elem_of_cons in Hin as [[= -> ->]|Hin]; [|eauto].
      exfalso. assert (r ∈ filter (λ r, atom_name r.2 = "CA") d) as Hr
        by (rewrite Hf; left).
      apply list_elem_of_filter in Hr as [Hca Hr]. by apply (Hno r).
Qed.

Lemma add_residue_nodes_fails pdb_df G :
  (∃ a, a ∈ rows pdb_df ∧ record_name a = "ATOM"
        ∧ ∀ c, ¬ alpha_carbon_of pdb_df a c) →
  ∃ G', add_residue_nodes pdb_df G = Raised IndexError G'.
Proof.
  intros (a & Ha & Hat & Hno). unfold add_residue_nodes.
  apply residue_loop_fails.
  assert (a ∈ rows (filter (λ r, record_name r.2 = "ATOM") pdb_df)) as Ha'.
  { apply rows_elem in Ha as [i Ha]. apply rows_elem. exists i.
    by apply list_elem_of_filter. }
  destruct (groupby_key key4_le
    (λ a, (node_id a, chain_id a, residue_number a, residue_name a)) _ a Ha')
    as [d Hd].
  eexists _, d. split; [exact Hd|].
  apply atom_groups in Hd as (a' & _ & _ & _ & Hd).
  intros [i r] (Hr & Hrat & [= H1 H2 H3 H4])%Hd Hca. cbn [snd] in *.
  apply (Hno r). split_and!; try done. apply rows_elem; eauto.
Qed.

Lemma add_residue_nodes_succeeds pdb_df G :
  (∀ a, a ∈ rows pdb_df → record_name a = "ATOM" →
        ∃ c, alpha_carbon_of pdb_df a c) →
  ∃ G', add_residue_nodes pdb_df G = Done G'
    ∧ edges G' = edges G
    ∧ (∀ n, nodes G' !! n = nodes G !! n
            ∨ ∃ c, c ∈ rows pdb_df ∧ record_name c = "ATOM"
                   ∧ atom_name c = "CA" ∧ node_id c = n
                   ∧ nodes G' !! n = Some (Some (alpha_carbon_node c)))
    ∧ (∀ a, a ∈ rows pdb_df → record_name a = "ATOM" →
         ∃ c, c ∈ rows pdb_df ∧ record_name c = "ATOM"
              ∧ atom_name c = "CA" ∧ node_id c = node_id a
              ∧ nodes G' !! node_id a = Some (Some (alpha_carbon_node c))).
Proof.
  intros Hall. unfold add_residue_nodes.
  set (key := λ a : Atom, (node_id a, chain_id a, residue_number a, residue_name a)).
  set (l := groupby key4_le key _).
  pose (good := λ (g : Graph.t) n,
          ∃ c, c ∈ rows pdb_df ∧ record_name c = "ATOM"
               ∧ atom_name c = "CA" ∧ node_id c = n
               ∧ nodes g !! n = Some (Some (alpha_carbon_node c))).
  assert (∀ k d g, (k, d) ∈ l →
            ∃ c, c ∈ rows pdb_df ∧ record_name c = "ATOM" ∧ atom_name c = "CA"
                 ∧ node_id c = k.1.1.1
                 ∧ residue_node (k, d) g
                   = Done (add_node k.1.1.1 (alpha_carbon_node c) g)) as Hstep.
  { intros k d g H. apply atom_groups in H as (a & Ha & Hat & -> & Hd).
    pose proof (residue_node_outcome (node_id a) (chain_id a)
                  (residue_number a) (residue_name a) d g) as Hb.
    destruct (filter (λ r, atom_name r.2 = "CA") d) as [|r rs] eqn:Hf.
    - exfalso. destruct (Hall a Ha Hat) as (c & Hc & Hcat & Hca & H1 & H2 & H3 & H4).
      apply rows_elem in Hc as [i Hc].
      assert ((i, c) ∈ filter (λ r, atom_name r.2 = "CA") d) as Hin.
      { apply list_elem_of_filter. split; [done|]. apply Hd.
        split_and!; [done|done|]. cbn [snd]. congruence. }
      rewrite Hf in Hin. by apply elem_of_nil in Hin.
    - assert (r ∈ filter (λ r, atom_name r.2 = "CA") d) as Hr
        by (rewrite Hf; left).
      apply list_elem_of_filter in Hr as [Hca (Hr & Hrat & [= H1 H2 H3 H4])%Hd].
      exists r.2. split_and!; try done.
      + apply rows_elem. exists r.1. by destruct r.
      + rewrite Hb. cbn [fst]. unfold alpha_carbon_node. by rewrite H2, H3, H4. }
  destruct (for_each_total (λ _, True) l residue_node G I) as (G' & HG' & _).
  { intros [k d] g Hx _. destruct (Hstep k d g Hx) as (c & _ & _ & _ & _ & ->).
    eauto. }
  exists G'. split; [exact HG'|].
  cut (edges G' = edges G
       ∧ (∀ n, nodes G' !! n = nodes G !! n ∨ good G' n)
       ∧ (∀ k d, (k, d) ∈ l → good G' k.1.1.1)).
  { intros (H1 & H2 & H3). split_and!; [done|done|].
    intros a Ha Hat.
    assert (a ∈ rows (filter (λ r, record_name r.2 = "ATOM") pdb_df)) as Ha'.
    { apply rows_elem in Ha as [i Ha]. apply rows_elem. exists i.
      by apply list_elem_of_filter. }
    destruct (groupby_key key4_le key _ a Ha') as [d Hd].
    apply (H3 _ _ Hd). }
  revert HG'.
  apply (for_each_ind (λ pre g,
           edges g = edges G
           ∧ (∀ n, nodes g !! n = nodes G !! n ∨ good g n)
           ∧ (∀ k d, (k, d) ∈ pre → good g k.1.1.1))).
  - split_and!; [done|by left|]. intros k d []%elem_of_nil.
  - intros pre [k d] post g g' Hl (He & Hn & Hv) Hb.
    destruct (Hstep k d g) as (c & Hc & Hcat & Hca & Hid & Hb').
    { rewrite Hl. apply elem_of_app. right. left. }
    rewrite Hb' in Hb. injection Hb as <-.
    assert (∀ n, good g n → good (add_node k.1.1.1 (alpha_carbon_node c) g) n)
      as Hkeep.
    { intros n (c' & H1 & H2 & H3 & H4 & H5).
      destruct (decide (n = k.1.1.1)) as [->|Hne].
      - exists c. split_and!; try done. cbn [add_node nodes].
        by rewrite lookup_insert_eq.
      - exists c'. split_and!; try done. cbn [add_node nodes].
        by rewrite lookup_insert_ne. }
    assert (good (add_node k.1.1.1 (alpha_carbon_node c) g) k.1.1.1) as Hnew.
    { exists c. split_and!; try done. cbn [add_node nodes].
      by rewrite lookup_insert_eq. }
    split_and!; [done| |].
    + intros n. destruct (decide (n = k.1.1.1)) as [->|Hne]; [by right|].
      destruct (Hn n) as [H|H]; [left|right; by apply Hkeep].
      cbn [add_node nodes]. by rewrite lookup_insert_ne.
    + intros k' d' [Hin|[= -> ->]%list_elem_of_singleton]%elem_of_app;
        [|done]. apply Hkeep. by eapply Hv.
Qed.

(** X16. The first loop of [compute_interaction_graph] returns normally
    when every group of ATOM records has a CA atom: the edges are as
    before, every ATOM record has a node carrying the chain, residue
    number, residue name and coordinates of a CA atom with its node
    identifier and no features, and every other node is as before.  It
    raises an IndexError when some group of ATOM records has no CA atom. *)
Theorem add_residue_nodes_outcome pdb_df G :
  ((∀ a, a ∈ rows pdb_df → record_name a = "ATOM" →
         ∃ c, alpha_carbon_of pdb_df a c) →
   ∃ G', add_residue_nodes pdb_df G = Done G'
     ∧ edges G' = edges G
     ∧ (∀ n, nodes G' !! n = nodes G !! n
             ∨ ∃ c, c ∈ rows pdb_df ∧ record_name c = "ATOM"
                    ∧ atom_name c = "CA" ∧ node_id c = n
                    ∧ nodes G' !! n = Some (Some (alpha_carbon_node c)))
     ∧ (∀ a, a ∈ rows pdb_df → record_name a = "ATOM" →
          ∃ c, c ∈ rows pdb_df ∧ record_name c = "ATOM"
               ∧ atom_name c = "CA" ∧ node_id c = node_id a
               ∧ nodes G' !! node_id a = Some (Some (alpha_carbon_node c))))
  ∧ ((∃ a, a ∈ rows pdb_df ∧ record_name a = "ATOM"
           ∧ ∀ c, ¬ alpha_carbon_of pdb_df a c) →
     ∃ G', add_residue_nodes pdb_df G = Raised IndexError G').
Proof.
  split; [apply add_residue_nodes_succeeds|apply add_residue_nodes_fails].
Qed.

Section backbone.
Variable K : ResiAtoms.t.

Lemma touch_node_present n (ns : gmap string (option NodeData)) :
  is_Some (ns !! n) → touch_node n ns = ns.
Proof. unfold touch_node. by intros [o ->]. Qed.

Lemma link_backbone_nodes m n chain aa pos' g :
  is_Some (nodes g !! n) →
  (∀ aa', chain_map m chain !! pos' = Some aa' →
          is_Some (nodes g !! make_node_id chain pos' aa')) →
  nodes (link_backbone K m n chain aa pos' g) = nodes g.
Proof.
  intros Hn Ht. unfold link_backbone.
  destruct (chain_map m chain !! pos') as [aa'|]; [|done]. cbv zeta.
  destruct (_ && _); [|done]. cbn [add_edge nodes].
  rewrite (touch_node_present n) by done. by apply touch_node_present, Ht.
Qed.

(** The second loop returns, with the nodes it started with, when
    every node has attributes and every neighbour the mapping names is
    a node. *)
Lemma add_backbone_edges_total m G0 :
  (∀ n, nodes G0 !! n ≠ Some None) →
  (∀ n d pos' aa', nodes G0 !! n = Some (Some d) →
     chain_map m (n_chain_id d) !! pos' = Some aa' →
     is_Some (nodes G0 !! make_node_id (n_chain_id d) pos' aa')) →
  ∃ G, add_backbone_edges K m G0 = Done G ∧ nodes G = nodes G0.
Proof.
  intros Hdata Htarget. unfold add_backbone_edges. cbv zeta.
  apply (for_each_total (λ g, nodes g = nodes G0)); [done|].
  intros [n o] g Hin Hg. apply elem_of_map_to_list in Hin.
  destruct o as [d|]; [|by apply Hdata in Hin].
  assert (node_data g n = Ok d) as -> by (apply node_data_Ok; congruence).
  cbn [eval].
  set (g1 := link_backbone K m n (n_chain_id d) (n_residue_name d)
               (n_residue_number d - 1) g).
  assert (nodes g1 = nodes G0) as Hg1.
  { unfold g1. rewrite link_backbone_nodes; [done|rewrite Hg; eauto|].
    intros aa' Haa. rewrite Hg. by eapply Htarget. }
  set (g2 := link_backbone K m n (n_chain_id d) (n_residue_name d)
               (n_residue_number d + 1) g1).
  assert (nodes g2 = nodes G0) as Hg2.
  { unfold g2. rewrite link_backbone_nodes; [done|rewrite Hg1; eauto|].
    intros aa' Haa. rewrite Hg1. by eapply Htarget. }
  exists g2. rewrite bool_decide_true by (by rewrite Hg2). done.
Qed.

(** X17. On a table of ATOM records with the node identifiers of
    [read_pdb] in which every residue has a CA atom, the two loops that
    start [compute_interaction_graph], run with the mapping of the
    table, return normally: no IndexError and no change of the node
    dictionary during the second loop.  The nodes are exactly the node
    identifiers of the table, and every node carries the attributes of
    a CA atom with its identifier. *)
Theorem backbone_graph_returns pdb_df :
  derived_ids pdb_df →
  (∀ a, a ∈ rows pdb_df → record_name a = "ATOM") →
  (∀ a, a ∈ rows pdb_df → ∃ c, alpha_carbon_of pdb_df a c) →
  ∃ G, backbone_graph K pdb_df (compute_chain_pos_aa_mapping pdb_df) = Done G
    ∧ (∀ n, is_Some (nodes G !! n) ↔ ∃ a, a ∈ rows pdb_df ∧ node_id a = n)
    ∧ (∀ n d, nodes G !! n = Some d →
         ∃ c, c ∈ rows pdb_df ∧ atom_name c = "CA" ∧ node_id c = n
              ∧ d = Some (alpha_carbon_node c)).
Proof.
  intros Hder Hatom Hca. unfold backbone_graph.
  destruct (add_residue_nodes_succeeds pdb_df Graph.empty)
    as (G0 & -> & He & Hn & Hrow); [auto|]. cbn [andthen].
  assert (∀ n d, nodes G0 !! n = Some d →
            ∃ c, c ∈ rows pdb_df ∧ atom_name c = "CA" ∧ node_id c = n
                 ∧ d = Some (alpha_carbon_node c)) as Hdata.
  { intros n d Hd. destruct (Hn n) as [H|(c & H1 & H2 & H3 & H4 & H5)].
    - rewrite Hd in H. done.
    - exists c. split_and!; try done. congruence. }
  destruct (add_backbone_edges_total (compute_chain_pos_aa_mapping pdb_df) G0)
    as (G & -> & HG).
  - intros n Hd. by destruct (Hdata n None Hd) as (c & _ & _ & _ & ?).
  - intros n d pos' aa' Hd Hm.
    apply mapping_in_table in Hm as (b & Hb & H1 & H2 & H3).
    destruct (Hrow b Hb (Hatom b Hb)) as (c & _ & _ & _ & _ & Hc).
    rewrite (Hder b Hb), H1, H2, H3 in Hc. by rewrite Hc.
  - exists G. split; [done|]. rewrite HG. split; [|done].
    intros n. split.
    + intros [d Hd]. destruct (Hdata n d Hd) as (c & Hc & _ & Hid & _). eauto.
    + intros (a & Ha & <-).
      destruct (Hrow a Ha (Hatom a Ha)) as (c & _ & _ & _ & _ & ->). eauto.
Qed.

End backbone.

Lemma backbone_graph_returns_witness :
  ∃ G, backbone_graph Sample.tables (read_pdb Sample.met_phe)
         (compute_chain_pos_aa_mapping (read_pdb Sample.met_phe)) = Done G
       ∧ ∀ n, is_Some (nodes G !! n)
              ↔ ∃ a, a ∈ rows (read_pdb Sample.met_phe) ∧ node_id a = n.
Proof.
  destruct (backbone_graph_returns Sample.tables (read_pdb Sample.met_phe))
    as (G & HG & Hn & _).
  - apply read_pdb_derived.
  - intros a Ha. vm_compute in Ha.
    repeat (apply elem_of_cons in Ha as [->|Ha]; [reflexivity|]).
    by apply elem_of_nil in Ha.
  - intros a Ha. vm_compute in Ha.
    apply elem_of_cons in Ha as [->|Ha].
    { exists (with_node_id (mkRaw "ATOM" "CA" "MET" "A" 1 0 0 0)).
      split_and!; try reflexivity. vm_compute. repeat constructor. }
    apply elem_of_cons in Ha as [->|Ha].
    { exists (with_node_id (mkRaw "ATOM" "CA" "MET" "A" 1 0 0 0)).
      split_and!; try reflexivity. vm_compute. repeat constructor. }
    apply elem_of_cons in Ha as [->|Ha].
    { exists (with_node_id (mkRaw "ATOM" "CA" "PHE" "A" 2 3 0 0)).
      split_and!; try reflexivity. vm_compute. repeat constructor. }
    apply elem_of_cons in Ha as [->|Ha].
    { exists (with_node_id (mkRaw "ATOM" "CA" "PHE" "A" 2 3 0 0)).
      split_and!; try reflexivity. vm_compute. repeat constructor. }
    by apply elem_of_nil in Ha.
  - exists G. split; [exact HG|exact Hn].
Defined.

End NodeConstruction.

(** ** Features of all nodes *)

Module AllNodeFeatures.
Import Table Geometry Graph Group ResiAtoms Pin Props GraphFacts CommitFacts
  TableFacts GeometryFacts FeatureFacts BackboneFacts EncodingFacts
  NodeFeatureFacts.

Section float64.
Context {F64 : Float64}.

Lemma collect_ext {A B} (f g : A → result B) (l : list A) :
  (∀ x, f x = g x) → collect f l = collect g l.
Proof.
  intros H. induction l as [|a l IH]; [done|]. cbn [collect].
  by rewrite H, IH.
Qed.

Lemma neighbors_elem G n n2 :
  n2 ∈ neighbors G n →
  ∃ u v, is_Some (edges G !! (u, v)) ∧ (n2 = u ∨ n2 = v).
Proof.
  unfold neighbors, edge_list. intros Hin.
  apply list_elem_of_omap in Hin as ([[u v] e] & Hin & Hsel).
  apply elem_of_map_to_list in Hin. exists u, v. split; [eauto|].
  repeat case_bool_decide; naive_solver.
Qed.

(** A loop whose body returns normally, with the list of the elements
    already visited. *)
Lemma for_each_total_ind {A} (P : list A → Graph.t → Prop) (l : list A) body G :
  P [] G →
  (∀ pre x post g, l = pre ++ x :: post → P pre g →
     ∃ g', body x g = Done g' ∧ P (pre ++ [x]) g') →
  ∃ G', for_each l body G = Done G' ∧ P l G'.
Proof.
  intros H0 Hstep.
  cut (∀ post pre g, l = pre ++ post → P pre g →
         ∃ G', for_each post body g = Done G' ∧ P l G').
  { intros Hcut. by apply (Hcut l [] G). }
  induction post as [|x post IH]; intros pre g Hl HP; cbn [for_each].
  - exists g. by rewrite Hl, app_nil_r.
  - destruct (Hstep pre x post g Hl HP) as (g' & -> & HP'). cbn [andthen].
    apply (IH (pre ++ [x])); [by rewrite <-app_assoc|done].
Qed.

Section facts.
Variable K : ResiAtoms.t.

Lemma node_data_set m f g n :
  node_data (set_node_features m f g) n
  = (d ← node_data g n;
     Ok (if decide (n = m)
         then mkNode (n_chain_id d) (n_residue_number d) (n_residue_name d)
                (n_x_coord d) (n_y_coord d) (n_z_coord d) (Some f)
         else d)).
Proof.
  unfold node_data, set_node_features. cbn [nodes].
  destruct (decide (n = m)) as [->|Hne].
  - rewrite lookup_alter_eq. by destruct (nodes g !! m) as [[d|]|].
  - rewrite lookup_alter_ne by done. by destruct (nodes g !! n) as [[d|]|].
Qed.

Lemma node_coords_set m f g n :
  node_coords (set_node_features m f g) n = node_coords g n.
Proof.
  unfold node_coords. rewrite node_data_set.
  destruct (node_data g n) as [d|e]; rsimpl; [|done].
  by destruct (decide (n = m)).
Qed.

(** The vector of a node does not depend on the features stored in the
    graph. *)
Lemma node_feature_vector_set m f g n :
  node_feature_vector K (set_node_features m f g) n = node_feature_vector K g n.
Proof.
  unfold node_feature_vector. rewrite node_data_set.
  destruct (node_data g n) as [d|e]; rsimpl; [|done].
  assert (n_residue_name
            (if decide (n = m)
             then mkNode (n_chain_id d) (n_residue_number d) (n_residue_name d)
                    (n_x_coord d) (n_y_coord d) (n_z_coord d) (Some f)
             else d) = n_residue_name d) as -> by (by destruct (decide (n = m))).
  destruct (lb_fit (RESI_NAMES K)) as [cls|]; rsimpl; [|done].
  destruct (table_row (ISOELECTRIC_POINTS_STD K) _) as [pka|]; rsimpl; [|done].
  destruct (table_row (MOLECULAR_WEIGHTS_STD K) _) as [mw|]; rsimpl; [|done].
  rewrite node_coords_set.
  destruct (node_coords g n) as [here|]; rsimpl; [|done].
  erewrite collect_ext; [|intros n2; rewrite node_coords_set; reflexivity].
  done.
Qed.

(** X18. [compute_all_node_features] returns normally on a graph in
    which every node has attributes, the two tables have a row for every
    residue type of a node and the endpoints of every edge are nodes,
    with a non-empty alphabet: the edges and the set of nodes are as
    before, and every node keeps its attributes and gets as features the
    one-row matrix of the vector computed on the graph as it was on
    entry; the features written for the nodes visited earlier do not
    change the vector of a node visited later. *)
Theorem compute_all_node_features_spec G :
  RESI_NAMES K ≠ [] →
  (∀ n, nodes G !! n ≠ Some None) →
  (∀ n d, nodes G !! n = Some (Some d) →
     ∃ row rest row' rest',
       ISOELECTRIC_POINTS_STD K !! n_residue_name d = Some (row :: rest)
       ∧ MOLECULAR_WEIGHTS_STD K !! n_residue_name d = Some (row' :: rest')) →
  (∀ u v, is_Some (edges G !! (u, v)) →
     is_Some (nodes G !! u) ∧ is_Some (nodes G !! v)) →
  ∃ G', compute_all_node_features K G = Done G'
    ∧ edges G' = edges G
    ∧ (∀ n, nodes G !! n = None → nodes G' !! n = None)
    ∧ (∀ n d, nodes G !! n = Some (Some d) →
         ∃ f, node_feature_vector K G n = Ok f
              ∧ nodes G' !! n
                = Some (Some (mkNode (n_chain_id d) (n_residue_number d)
                                (n_residue_name d) (n_x_coord d) (n_y_coord d)
                                (n_z_coord d) (Some [f])))).
Proof.
  intros He Hdata Htab Hends.
  pose (good := λ (g : Graph.t) n,
          ∃ d f, nodes G !! n = Some (Some d)
                 ∧ node_feature_vector K G n = Ok f
                 ∧ nodes g !! n
                   = Some (Some (mkNode (n_chain_id d) (n_residue_number d)
                                   (n_residue_name d) (n_x_coord d)
                                   (n_y_coord d) (n_z_coord d) (Some [f])))).
  assert (∀ n d, nodes G !! n = Some (Some d) →
            ∃ f, node_feature_vector K G n = Ok f) as Hvec.
  { intros n d Hn. destruct (Htab n d Hn) as (row & rest & row' & rest' & Hp & Hm).
    destruct (node_feature_vector_Ok K G n d row rest row' rest' Hn He Hp Hm)
      as (cls & tail & _ & ->); [|eauto].
    intros n2 (u & v & Huv & Hn2)%neighbors_elem.
    destruct (Hends u v Huv) as [Hu Hv].
    assert (is_Some (nodes G !! n2)) as [[d2|] Hd2]
      by (by destruct Hn2 as [-> | ->]); [eauto|by apply Hdata in Hd2]. }
  unfold compute_all_node_features.
  destruct (for_each_total_ind
    (λ pre g, edges g = edges G
              ∧ (∀ n, nodes g !! n = nodes G !! n ∨ good g n)
              ∧ (∀ n, n ∈ pre → good g n)
              ∧ (∀ n, node_feature_vector K g n = node_feature_vector K G n))
    (node_list G).*1 (compute_node_features K) G)
    as (G' & HG' & Hedges & Hn & Hvis & _).
  - split_and!; [done|by left| |done]. intros n []%elem_of_nil.
  - intros pre x post g Hl (Heg & Hng & Hpre & Hv).
    assert (x ∈ (node_list G).*1) as Hx
      by (rewrite Hl; apply elem_of_app; right; left).
    apply list_elem_of_fmap in Hx as ([x' o] & -> & Hx). cbn [fst].
    apply elem_of_map_to_list in Hx.
    destruct o as [d|]; [|by apply Hdata in Hx].
    destruct (Hvec x' d Hx) as [f Hf].
    assert (nodes g !! x' = Some (Some d) ∨ good g x') as Hgx
      by (destruct (Hng x') as [H|H]; [left; congruence|by right]).
    assert (has_node g x' = true) as Hhas.
    { apply has_node_true.
      destruct Hgx as [->|(? & ? & _ & _ & ->)]; eauto. }
    exists (set_node_features x' [f] g). unfold compute_node_features.
    rewrite Hhas, Hv, Hf. cbn [eval]. split; [done|].
    assert (good (set_node_features x' [f] g) x') as Hnew.
    { exists d, f. split_and!; [done|done|]. unfold set_node_features.
      cbn [nodes]. rewrite lookup_alter_eq.
      destruct Hgx as [->|(d' & f' & Hd' & _ & ->)]; [done|].
      rewrite Hx in Hd'. by injection Hd' as <-. }
    assert (∀ n, good g n → good (set_node_features x' [f] g) n) as Hkeep.
    { intros n Hgn. destruct (decide (n = x')) as [->|Hne]; [done|].
      destruct Hgn as (d' & f' & H1 & H2 & H3). exists d', f'.
      split_and!; [done|done|]. unfold set_node_features. cbn [nodes].
      by rewrite lookup_alter_ne. }
    split_and!; [done| | |].
    + intros n. destruct (decide (n = x')) as [->|Hne]; [by right|].
      destruct (Hng n) as [H|H]; [left|right; by apply Hkeep].
      unfold set_node_features. cbn [nodes]. by rewrite lookup_alter_ne.
    + intros n [Hin|Hin%list_elem_of_singleton]%elem_of_app;
        [by apply Hkeep, Hpre|by subst n].
    + intros n. by rewrite node_feature_vector_set.
  - exists G'. split_and!; [done|done| |].
    + intros n Hnone. destruct (Hn n) as [H|(d & f & H & _)]; congruence.
    + intros n d Hd.
      destruct (Hvis n) as (d' & f & H1 & H2 & H3).
      { apply list_elem_of_fmap. exists (n, Some d). split; [done|].
        by apply elem_of_map_to_list. }
      rewrite Hd in H1. injection H1 as <-. eauto.
Qed.

End facts.

End float64.

#[local] Existing Instance Sample.exact.

Lemma compute_all_node_features_spec_witness :
  let G := Sample.backbone_of Sample.met_phe in
  ∃ G', compute_all_node_features Sample.tables G = Done G'
        ∧ edges G' = edges G
        ∧ ∃ f, node_feature_vector Sample.tables G "A1MET" = Ok f
               ∧ nodes G' !! "A1MET"
                 = Some (Some (mkNode "A" 1 "MET" 0 0 0 (Some [f]))).
Proof.
  intros G.
  destruct (compute_all_node_features_spec Sample.tables G)
    as (G' & HG' & He & _ & Hf).
  - discriminate.
  - intros n Hn. apply elem_of_map_to_list in Hn. vm_compute in Hn.
    repeat (apply elem_of_cons in Hn as [Hn|Hn]; [discriminate Hn|]).
    by apply elem_of_nil in Hn.
  - intros n d Hn. apply elem_of_map_to_list in Hn. vm_compute in Hn.
    repeat (apply elem_of_cons in Hn as [Hn|Hn];
            [injection Hn as -> ->; eexists _, _, _, _; split;
             vm_compute; reflexivity|]).
    by apply elem_of_nil in Hn.
  - intros u v [e Huv]. apply elem_of_map_to_list in Huv. vm_compute in Huv.
    repeat (apply elem_of_cons in Huv as [Huv|Huv];
            [injection Huv as -> -> _; split; vm_compute; eauto|]).
    by apply elem_of_nil in Huv.
  - exists G'. split_and!; [exact HG'|exact He|].
    apply (Hf "A1MET" (mkNode "A" 1 "MET" 0 0 0 None)).
    vm_compute. reflexivity.
Defined.

End AllNodeFeatures.

(** ** Composing filters *)

Module FilterFacts.
Import Table Geometry Graph Group ResiAtoms Pin Props TableFacts.

Lemma reset_filter_rows (P : Atom → bool) (df : DataFrame Atom) :
  reset_index (filter (λ r, P r.2) df) = range_index (filter (λ a, P a) (rows df)).
Proof. unfold reset_index. by rewrite rows_filter. Qed.

Lemma filter_twice_rows df c1 v1 b1 c2 v2 b2 out :
  (d ← filter_dataframe df c1 v1 b1; filter_dataframe d c2 v2 b2) = Ok out →
  out = range_index (filter (λ a, keep c1 v1 b1 a ∧ keep c2 v2 b2 a) (rows df)).
Proof.
  unfold filter_dataframe.
  destruct (is_column c1); rsimpl; [|done].
  destruct (is_column c2); rsimpl; [|done]. intros [= <-].
  rewrite !reset_filter_rows, rows_range_index, list_filter_filter.
  f_equal. apply list_filter_iff. tauto.
Qed.

Lemma keep_flags c v a :
  is_column c = true → (keep c v false a ↔ ¬ keep c v true a).
Proof.
  intros [x Hx]%(is_column_spec _ a). unfold keep. rewrite Hx.
  destruct (isin v x); cbn; naive_solver.
Qed.

(** X19. Two calls of [filter_dataframe] in sequence give the same
    result in either order, the KeyError of a name that is no column
    included; the result holds the rows that pass both filters, labelled
    [0, 1, ...].  Filtering the result of a filter again with the same
    arguments changes nothing, and the rows of a result are a
    subsequence of the rows of the table.  The results for the flags
    true and false split the rows of the table: together they are a
    permutation of them and no row is in both. *)
Theorem filter_dataframe_compose df c1 v1 b1 c2 v2 b2 :
  (d ← filter_dataframe df c1 v1 b1; filter_dataframe d c2 v2 b2)
  = (d ← filter_dataframe df c2 v2 b2; filter_dataframe d c1 v1 b1)
  ∧ (∀ out,
       (d ← filter_dataframe df c1 v1 b1; filter_dataframe d c2 v2 b2) = Ok out →
       rows out = filter (λ a, keep c1 v1 b1 a ∧ keep c2 v2 b2 a) (rows df)
       ∧ labels out = seq 0 (length out))
  ∧ (∀ out, filter_dataframe df c1 v1 b1 = Ok out →
            filter_dataframe out c1 v1 b1 = Ok out
            ∧ rows out `sublist_of` rows df)
  ∧ (∀ yes no, filter_dataframe df c1 v1 true = Ok yes →
               filter_dataframe df c1 v1 false = Ok no →
               rows yes ++ rows no ≡ₚ rows df
               ∧ ∀ a, a ∈ rows yes → a ∉ rows no).
Proof.
  split_and!.
  - unfold filter_dataframe.
    destruct (is_column c1), (is_column c2); rsimpl; try done.
    rewrite !reset_filter_rows, !rows_range_index, !list_filter_filter.
    do 2 f_equal. apply list_filter_iff. tauto.
  - intros out ->%filter_twice_rows.
    by rewrite rows_range_index, labels_range_index, length_range_index.
  - intros out Hout. pose proof Hout as [Hrows _]%filter_dataframe_rows.
    split; [|rewrite Hrows; apply sublist_filter].
    revert Hout. unfold filter_dataframe.
    destruct (is_column c1); [|done]. intros [= <-].
    rewrite !reset_filter_rows, rows_range_index, list_filter_filter.
    do 2 f_equal. apply list_filter_iff. tauto.
  - intros yes no Hy Hn.
    assert (is_column c1 = true) as Hc
      by (unfold filter_dataframe in Hy; by destruct (is_column c1)).
    apply filter_dataframe_rows in Hy as [-> _].
    apply filter_dataframe_rows in Hn as [-> _].
    rewrite (list_filter_iff (λ a, keep c1 v1 false a)
               (λ a, ¬ keep c1 v1 true a)) by (intros a; by apply keep_flags).
    split; [apply filter_app_complement|].
    intros a [Ha _]%list_elem_of_filter [Hna _]%list_elem_of_filter. done.
Qed.

End FilterFacts.

(** ** Edges of one bond type *)

Module BondTypeFacts.
Import Table Geometry Graph Group ResiAtoms Pin Props GraphFacts IonicFacts.

Lemma length_omap_le {A B} (f : A → option B) (l : list A) :
  length (omap f l) ≤ length l.
Proof.
  induction l as [|a l IH]; [done|]. cbn [omap list_omap].
  destruct (f a); cbn [length]; lia.
Qed.

(** X20. On a graph that stores every edge once,
    [get_edges_by_bond_type] lists no pair twice and at most as many
    pairs as the graph has edges; the edge between [u] and [v] is listed,
    as [(u, v)] or as [(v, u)], exactly when its labels contain the bond
    type, and never in both orientations. *)
Theorem get_edges_by_bond_type_spec G bond_type :
  normal G →
  NoDup (get_edges_by_bond_type G bond_type)
  ∧ length (get_edges_by_bond_type G bond_type) ≤ size (edges G)
  ∧ (∀ u v, ((u, v) ∈ get_edges_by_bond_type G bond_type
             ∨ (v, u) ∈ get_edges_by_bond_type G bond_type)
            ↔ bond_type ∈ kinds G u v)
  ∧ (∀ u v, u ≠ v → (u, v) ∈ get_edges_by_bond_type G bond_type →
            (v, u) ∉ get_edges_by_bond_type G bond_type).
Proof.
  intros Hn. split_and!.
  - apply edges_by_type_NoDup.
  - unfold get_edges_by_bond_type, edge_list.
    rewrite <-length_map_to_list. apply length_omap_le.
  - intros u v. rewrite !edges_by_type_elem. unfold kinds. split.
    + intros [(d & Hd & Hb)|(d & Hd & Hb)].
      * pose proof (ekey_of_normal G (u, v) d Hn Hd) as Hk. cbn in Hk.
        by rewrite Hk, Hd.
      * pose proof (ekey_of_normal G (v, u) d Hn Hd) as Hk. cbn in Hk.
        by rewrite ekey_comm, Hk, Hd.
    + destruct (edges G !! ekey u v) as [d|] eqn:Hd; [|set_solver].
      intros Hb. destruct (ekey_cases u v) as [[Hk _]|[Hk _]];
        rewrite Hk in Hd; eauto.
  - intros u v Hne [d (Hd & _)]%edges_by_type_elem
      [d' (Hd' & _)]%edges_by_type_elem.
    pose proof (ekey_of_normal G (u, v) d Hn Hd) as Hk.
    pose proof (ekey_of_normal G (v, u) d' Hn Hd') as Hk'. cbn in Hk, Hk'.
    rewrite ekey_comm in Hk'. congruence.
Qed.

Lemma get_edges_by_bond_type_spec_witness :
  let G := Sample.backbone_of Sample.met_phe in
  normal G
  ∧ NoDup (get_edges_by_bond_type G "backbone")
  ∧ (("A1MET", "A2PHE") ∈ get_edges_by_bond_type G "backbone"
     ∨ ("A2PHE", "A1MET") ∈ get_edges_by_bond_type G "backbone").
Proof.
  intros G.
  assert (normal G) as Hn.
  { intros k e Hk. apply elem_of_map_to_list in Hk. vm_compute in Hk.
    repeat (apply elem_of_cons in Hk as [Hk|Hk];
            [injection Hk as -> _; vm_compute; reflexivity|]).
    by apply elem_of_nil in Hk. }
  destruct (get_edges_by_bond_type_spec G "backbone" Hn) as (H1 & _ & H3 & _).
  split_and!; [exact Hn|exact H1|].
  apply H3. vm_compute. repeat constructor.
Defined.

End BondTypeFacts.

(** ** What the construction needs *)

Module PipelineFacts.
Import Table Geometry Graph Group ResiAtoms Pin Props GraphFacts CommitFacts
  TableFacts GeometryFacts ThresholdFacts PairFacts ThresholdDetectors.

Section float64.
Context {F64 : Float64}.

Lemma filter_row_residue df l (r : nat * Atom) out :
  filter_dataframe df "residue_name" (strs l) true = Ok (r :: out) →
  ∃ a, a ∈ rows df ∧ residue_name a ∈ l.
Proof.
  intros Hf. apply filter_dataframe_names in Hf as (_ & Hrows & _).
  specialize (Hrows eq_refl).
  assert (r.2 ∈ filter (λ a, residue_name a ∈ l) (rows df)) as Hin
    by (rewrite <-Hrows; left).
  apply list_elem_of_filter in Hin as [? ?]. eauto.
Qed.

Lemma filter_row_atom df l (r : nat * Atom) out :
  filter_dataframe df "atom_name" (strs l) true = Ok (r :: out) →
  ∃ a, a ∈ rows df ∧ atom_name a ∈ l.
Proof.
  intros Hf. apply filter_dataframe_names in Hf as (_ & _ & Hrows).
  specialize (Hrows eq_refl).
  assert (r.2 ∈ filter (λ a, atom_name a ∈ l) (rows df)) as Hin
    by (rewrite <-Hrows; left).
  apply list_elem_of_filter in Hin as [? ?]. eauto.
Qed.

Lemma commit_within_residue df l angstroms kind G G' :
  commit_within (filter_dataframe df "residue_name" (strs l) true)
    angstroms kind G = Done G' →
  ∃ a, a ∈ rows df ∧ residue_name a ∈ l.
Proof.
  unfold commit_within.
  destruct (filter_dataframe _ _ _ _) as [[|r out]|] eqn:Hf; [done| |done].
  intros _. by eapply filter_row_residue.
Qed.

Lemma commit_within_atom df l angstroms kind G G' :
  commit_within (filter_dataframe df "atom_name" (strs l) true)
    angstroms kind G = Done G' →
  ∃ a, a ∈ rows df ∧ atom_name a ∈ l.
Proof.
  unfold commit_within.
  destruct (filter_dataframe _ _ _ _) as [[|r out]|] eqn:Hf; [done| |done].
  intros _. by eapply filter_row_atom.
Qed.

Section facts.
Variable K : ResiAtoms.t.

Lemma disulfide_Done rgroup_df G G' :
  add_disulfide_interactions_ K rgroup_df G = Done G' →
  ∃ a, a ∈ rows rgroup_df ∧ residue_name a ∈ DISULFIDE_RESIS
       ∧ atom_name a ∈ DISULFIDE_ATOMS K.
Proof.
  unfold add_disulfide_interactions_, commit_within.
  destruct (filter_dataframe rgroup_df _ _ _) as [d1|] eqn:Hf1; rsimpl; [|done].
  destruct (filter_dataframe d1 _ _ _) as [[|r out]|] eqn:Hf2; [done| |done].
  intros _. apply filter_row_atom in Hf2 as (a & Ha & Hat).
  apply filter_dataframe_names in Hf1 as (_ & Hrows & _).
  rewrite (Hrows eq_refl) in Ha.
  apply list_elem_of_filter in Ha as [? ?]. eauto.
Qed.

Lemma hbond_Done rgroup_df G G' :
  add_hydrogen_bond_interactions_ rgroup_df G = Done G' →
  ∃ a, a ∈ rows rgroup_df ∧ atom_name a ∈ HBOND_ATOMS_SULPHUR.
Proof.
  unfold add_hydrogen_bond_interactions_.
  destruct (commit_within _ (35 # 10) _ G) as [g|]; [|done]. cbn [andthen].
  apply commit_within_atom.
Qed.

Lemma ionic_Done rgroup_df G G' :
  add_ionic_interactions_ K rgroup_df G = Done G' →
  ∃ a, a ∈ rows rgroup_df ∧ residue_name a ∈ IONIC_RESIS.
Proof.
  unfold add_ionic_interactions_.
  destruct (commit_within _ 6 _ G) as [g|] eqn:Hc; [|done]. intros _.
  by eapply commit_within_residue.
Qed.

Lemma aromatic_sulphur_Done rgroup_df G G' :
  add_aromatic_sulphur_interactions_ rgroup_df G = Done G' →
  ∃ a, a ∈ rows rgroup_df
       ∧ residue_name a ∈ ["MET"; "CYS"; "PHE"; "TYR"; "TRP"].
Proof.
  unfold add_aromatic_sulphur_interactions_. cbv zeta.
  destruct (filter_dataframe _ _ _ _) as [[|r out]|] eqn:Hf; [done| |done].
  intros _. by eapply filter_row_residue.
Qed.

Lemma cation_pi_Done rgroup_df G G' :
  add_cation_pi_interactions_ K rgroup_df G = Done G' →
  ∃ a, a ∈ rows rgroup_df ∧ residue_name a ∈ CATION_PI_RESIS K.
Proof.
  unfold add_cation_pi_interactions_.
  destruct (filter_dataframe _ _ _ _) as [[|r out]|] eqn:Hf; [done| |done].
  intros _. by eapply filter_row_residue.
Qed.

(** X21. [compute_interaction_graph] returns normally only when the
    R-group table has a row for every detector that measures distances:
    an atom of a hydrophobic residue, a disulfide atom of a cysteine, an
    atom named SD or SG, an atom of an ionic residue, an atom of a
    residue of the aromatic-sulphur list and an atom of a cation-pi
    residue.  On a structure that lacks one of them a detector raises
    and no graph is returned. *)
Theorem compute_interaction_graph_requires pdb_df rgroup_df chain_pos_aa G :
  compute_interaction_graph K pdb_df rgroup_df chain_pos_aa = Done G →
  (∃ a, a ∈ rows rgroup_df ∧ residue_name a ∈ HYDROPHOBIC_RESIS)
  ∧ (∃ a, a ∈ rows rgroup_df ∧ residue_name a ∈ DISULFIDE_RESIS
          ∧ atom_name a ∈ DISULFIDE_ATOMS K)
  ∧ (∃ a, a ∈ rows rgroup_df ∧ atom_name a ∈ HBOND_ATOMS_SULPHUR)
  ∧ (∃ a, a ∈ rows rgroup_df ∧ residue_name a ∈ IONIC_RESIS)
  ∧ (∃ a, a ∈ rows rgroup_df
          ∧ residue_name a ∈ ["MET"; "CYS"; "PHE"; "TYR"; "TRP"])
  ∧ (∃ a, a ∈ rows rgroup_df ∧ residue_name a ∈ CATION_PI_RESIS K).
Proof.
  unfold compute_interaction_graph.
  destruct (backbone_graph K pdb_df chain_pos_aa) as [g0|]; [|done].
  unfold funcs. cbn [andthen for_each run_detector].
  destruct (add_hydrophobic_interactions_ rgroup_df g0) as [g1|] eqn:H1;
    [|done]. cbn [andthen].
  destruct (add_disulfide_interactions_ K rgroup_df g1) as [g2|] eqn:H2;
    [|done]. cbn [andthen].
  destruct (add_hydrogen_bond_interactions_ rgroup_df g2) as [g3|] eqn:H3;
    [|done]. cbn [andthen].
  destruct (add_ionic_interactions_ K rgroup_df g3) as [g4|] eqn:H4;
    [|done]. cbn [andthen].
  destruct (add_aromatic_interactions_ K pdb_df g4) as [g5|] eqn:H5;
    [|done]. cbn [andthen].
  destruct (add_aromatic_sulphur_interactions_ rgroup_df g5) as [g6|] eqn:H6;
    [|done]. cbn [andthen].
  destruct (add_cation_pi_interactions_ K rgroup_df g6) as [g7|] eqn:H7;
    [|done]. intros _.
  split_and!.
  - by eapply commit_within_residue.
  - by eapply disulfide_Done.
  - by eapply hbond_Done.
  - by eapply ionic_Done.
  - by eapply aromatic_sulphur_Done.
  - by eapply cation_pi_Done.
Qed.

End facts.

End float64.

#[local] Existing Instance Sample.exact.

Lemma compute_interaction_graph_requires_witness :
  ∃ a, a ∈ rows (Sample.rgroup_of Sample.mixed)
       ∧ residue_name a ∈ DISULFIDE_RESIS
       ∧ atom_name a ∈ DISULFIDE_ATOMS Sample.tables.
Proof.
  destruct (compute_interaction_graph_requires Sample.tables
              (read_pdb Sample.mixed) (Sample.rgroup_of Sample.mixed)
              (compute_chain_pos_aa_mapping (read_pdb Sample.mixed))
              (Sample.graph_of Sample.mixed)) as (_ & H & _).
  - vm_compute. reflexivity.
  - exact H.
Defined.

End PipelineFacts.
